(** * Sigma.Collections: the sparse value container (IndexArray)

    A shallow embedding of [src/indexarray.c] and of the parts of
    [src/collections.c] it is built on (the growth primitive, disposal and the
    sparse iterator), over an explicit store.  The dense collection of
    [src/collections.c] (add, remove, clear, set_data, count and its
    iterator) is embedded over the same store.

    - The store is a list of cells addressed by their position.  A cell is a
      raw byte block, one of the C structs ([sc_collection], [sc_indexarray],
      [sparse_iterator_s]) or a released block.  A container, the iterators
      over it and a caller's buffer it is a view of all live in the one
      store, so aliasing is what it is in C.
    - Every C function is a computation [M A := heap -> option (A * heap)];
      [None] is undefined behaviour (a load or store outside a live block, an
      invalid release), never an error status: those are ordinary results.
    - [usize] values that index memory are [nat]: every sum and product the
      code forms is bounded by twice the byte size of a live buffer.  The two
      places where the C types matter are written out: the cast of a slot
      index to [int] for the returned handle, and the conversion of a pointer
      difference to [usize].
    - A value passed to add and the out buffer passed to get_at are the
      caller's own memory; they are passed as their bytes.  An object passed
      to the dense collection is its address together with the bytes it
      points at, since the code stores the one or the other.
    - The dense iterator's struct is kept as the sixteen bytes of a raw
      block, its two fields in little-endian order.

    The file has three parts: the embedding, then definitions used to state
    what the code computes (the layout of a container in the store, pure
    counterparts of the loops, example stores), then the properties: the
    claims C1 to C10, followed by further properties X1 to X23 of the code
    and the lemmas they rest on. *)

From Stdlib Require Import ZArith Lia.
From Stdlib Require Import Strings.Byte.
From Stdlib Require Import Sorting.Sorted.
From stdpp Require Import base tactics option list.

Local Open Scope nat_scope.

(** ** Machine integers *)

Definition OK : Z := 0.
Definition ERR : Z := -1.
Definition INT_MAX : Z := 2147483647.

(** [(int)x] for a [usize] x: reduction modulo 2^32 into the signed range. *)
Definition int_of_usize (n : nat) : Z :=
  let z := (Z.of_nat n mod 2 ^ 32)%Z in
  if (z <=? INT_MAX)%Z then z else (z - 2 ^ 32)%Z.

(** [(usize)d] for a [ptrdiff_t] d. *)
Definition usize_of_ptrdiff (d : Z) : nat := Z.to_nat (d mod 2 ^ 64).

(** ** The store *)

Definition is_zero (b : byte) : bool :=
  match b with x00 => true | _ => false end.

(** A pointer into a byte block: the block and a byte offset inside it. *)
Record ptr := Ptr { blk : nat; off : nat }.

(** A pointer to a struct is the address of its cell. *)
Abbreviation addr := nat (only parsing).

(** [struct sc_collection]: the array base (handle, bucket, end), stride,
    logical length and the ownership flag.  The handle characters are
    [x46] for 'F' (values) and [x50] for 'P' (pointers). *)
Record sc_collection := mk_collection {
  c_handle : byte * byte;
  c_bucket : option ptr;
  c_end : option ptr;
  c_stride : nat;
  c_length : nat;
  c_owns_buffer : bool
}.

(** [struct sc_indexarray] *)
Record sc_indexarray := mk_indexarray {
  ia_coll : option addr;
  ia_next_slot : nat
}.

(** The address of a capability table ([const sc_sparse_i *]).  The only table
    defined in the sources at hand is [indexarray_sparse_ops]. *)
Inductive sparse_ops_ref := indexarray_sparse_ops_ref.

(** [struct sparse_iterator_s] *)
Record sparse_iterator_s := mk_sparse_iterator {
  it_sparse_coll : option addr;
  it_ops : option sparse_ops_ref;
  it_current : nat;
  it_capacity : nat;
  it_positioned : bool
}.

Inductive cell :=
| CBytes (bs : list byte)
| CColl (c : sc_collection)
| CIndexArray (s : sc_indexarray)
| CIter (i : sparse_iterator_s)
| CFreed.

(** [avail] is what the allocator can still hand out, [junk b o] the content
    it leaves in byte [o] of a fresh block [b]. *)
Record heap := mk_heap {
  cells : list cell;
  avail : nat;
  junk : nat -> nat -> byte
}.

Definition set_cell (a : nat) (c : cell) (h : heap) : heap :=
  {| cells := <[a := c]> (cells h); avail := avail h; junk := junk h |}.

(** sizeof on an LP64 target *)
Definition sizeof_sc_collection : nat := 48.
Definition sizeof_sc_indexarray : nat := 16.
Definition sizeof_sparse_iterator_s : nat := 40.

Definition cell_size (c : cell) : nat :=
  match c with
  | CBytes bs => length bs
  | CColl _ => sizeof_sc_collection
  | CIndexArray _ => sizeof_sc_indexarray
  | CIter _ => sizeof_sparse_iterator_s
  | CFreed => 0
  end.

(** ** Computations over the store *)

Definition M (A : Type) : Type := heap -> option (A * heap).

Definition ret {A} (x : A) : M A := fun h => Some (x, h).

Definition bind {A B} (m : M A) (f : A -> M B) : M B :=
  fun h => match m h with Some (x, h') => f x h' | None => None end.

Definition fault {A} : M A := fun _ => None.

Notation "'let*' x ':=' m 'in' k" := (bind m (fun x => k))
  (at level 10, x pattern, m at level 100, k at level 200).
Notation "m ';;' k" := (bind m (fun _ => k))
  (at level 100, k at level 200, right associativity).

(** ** The allocator capability *)

Definition junk_block (h : heap) (b n : nat) : list byte :=
  map (junk h b) (seq 0 n).

(** Modelled from the spec: [Allocator.alloc] belongs to sigma.core, outside
    this repository; the spec assumes it as allocate(n) -> buffer | null.
    Allocation fails exactly when the request exceeds what is available or
    the address space; the block is fresh (a released block is never handed
    out again) and its content is whatever [junk] says. *)
Definition Allocator_alloc (n : nat) : M (option ptr) := fun h =>
  if decide (n <= avail h /\ (Z.of_nat n < 2 ^ 64)%Z) then
    let b := length (cells h) in
    Some (Some (Ptr b 0),
          {| cells := cells h ++ [CBytes (junk_block h b n)];
             avail := avail h - n; junk := junk h |})
  else Some (None, h).

(** Modelled from the spec: [Allocator.dispose], the spec's
    deallocate(buffer).  Releasing NULL does nothing; releasing anything but
    the start of a live block is undefined. *)
Definition Allocator_dispose (p : option ptr) : M unit := fun h =>
  match p with
  | None => Some (tt, h)
  | Some p =>
      match cells h !! blk p with
      | None | Some CFreed => None
      | Some c =>
          if off p =? 0 then
            Some (tt, {| cells := <[blk p := CFreed]> (cells h);
                         avail := avail h + cell_size c; junk := junk h |})
          else None
      end
  end.

(** ** Loads and stores *)

Definition ptr_add (p : option ptr) (k : nat) : option ptr :=
  match p with Some p => Some (Ptr (blk p) (off p + k)) | None => None end.

(** [(char * )e - (char * )b] *)
Definition ptr_diff (e b : option ptr) : M Z :=
  match e, b with
  | Some e, Some b =>
      if blk e =? blk b then ret (Z.of_nat (off e) - Z.of_nat (off b))%Z
      else fault
  | None, None => ret 0%Z
  | _, _ => fault
  end.

(** [b >= e] on pointers *)
Definition ptr_ge (b e : ptr) : M bool :=
  if blk b =? blk e then ret (off e <=? off b) else fault.

Definition load_byte (p : option ptr) : M byte := fun h =>
  match p with
  | Some p =>
      match cells h !! blk p with
      | Some (CBytes bs) =>
          match bs !! off p with Some b => Some (b, h) | None => None end
      | _ => None
      end
  | None => None
  end.

Definition load_bytes (p : option ptr) (n : nat) : M (list byte) := fun h =>
  match p with
  | Some p =>
      match cells h !! blk p with
      | Some (CBytes bs) =>
          if decide (off p + n <= length bs)
          then Some (take n (drop (off p) bs), h) else None
      | _ => None
      end
  | None => None
  end.

Definition store_bytes (p : option ptr) (v : list byte) : M unit := fun h =>
  match p with
  | Some p =>
      match cells h !! blk p with
      | Some (CBytes bs) =>
          if decide (off p + length v <= length bs)
          then Some (tt, set_cell (blk p) (CBytes (list_inserts (off p) v bs)) h)
          else None
      | _ => None
      end
  | None => None
  end.

(** [memset(p, 0, n)] *)
Definition memset_zero (p : option ptr) (n : nat) : M unit :=
  store_bytes p (replicate n x00).

(** [memcpy(dst, src, n)] between two regions of the store *)
Definition memcpy (dst src : option ptr) (n : nat) : M unit :=
  let* bs := load_bytes src n in store_bytes dst bs.

(** [memcpy(dst, value, n)]: the caller's value is passed as its bytes. *)
Definition memcpy_from (dst : option ptr) (value : list byte) (n : nat) : M unit :=
  if decide (n <= length value) then store_bytes dst (take n value) else fault.

(** [memcpy(out, src, n)]: returns the new content of the caller's buffer. *)
Definition memcpy_to (out : list byte) (src : option ptr) (n : nat) : M (list byte) :=
  if decide (n <= length out)
  then let* bs := load_bytes src n in ret (bs ++ drop n out)
  else fault.

Definition load_coll (c : addr) : M sc_collection := fun h =>
  match cells h !! c with Some (CColl k) => Some (k, h) | _ => None end.

Definition load_ia (a : addr) : M sc_indexarray := fun h =>
  match cells h !! a with Some (CIndexArray s) => Some (s, h) | _ => None end.

Definition load_iter (a : addr) : M sparse_iterator_s := fun h =>
  match cells h !! a with Some (CIter i) => Some (i, h) | _ => None end.

(** Writing the fields of a struct: into its cell, or into a fresh block of
    the struct's size. *)
Definition store_struct (a : addr) (size : nat) (c : cell) : M unit := fun h =>
  match cells h !! a with
  | Some (CBytes bs) =>
      if length bs =? size then Some (tt, set_cell a c h) else None
  | Some CFreed | None => None
  | Some c0 =>
      if cell_size c0 =? size then Some (tt, set_cell a c h) else None
  end.

Definition store_coll (c : addr) (k : sc_collection) : M unit :=
  store_struct c sizeof_sc_collection (CColl k).

Definition store_ia (a : addr) (s : sc_indexarray) : M unit :=
  store_struct a sizeof_sc_indexarray (CIndexArray s).

Definition store_iter (a : addr) (i : sparse_iterator_s) : M unit :=
  store_struct a sizeof_sparse_iterator_s (CIter i).

(** ** collections.c *)

Definition collection_get_buffer (coll : option addr) : M (option ptr) :=
  match coll with
  | Some c => let* k := load_coll c in ret (c_bucket k)
  | None => ret None
  end.

Definition collection_get_end (coll : option addr) : M (option ptr) :=
  match coll with
  | Some c => let* k := load_coll c in ret (c_end k)
  | None => ret None
  end.

Definition collection_get_stride (coll : option addr) : M nat :=
  match coll with
  | Some c => let* k := load_coll c in ret (c_stride k)
  | None => ret 0
  end.

(** Modelled from the spec: [array_alloc_struct_with_bucket] lives in
    internal/array_base, which is not among the sources.  By the spec's
    allocate(capacity, stride) it fails when the stride is 0 or the allocator
    fails, and the region it returns is zero-initialised.  The struct and the
    bucket are separate blocks, as [collection_dispose] releases them
    separately. *)
Definition array_alloc_struct_with_bucket (size : nat) (handle : byte)
    (stride capacity : nat) : M (option (addr * ptr * ptr)) :=
  if stride =? 0 then ret None else
  let* s := Allocator_alloc size in
  match s with
  | None => ret None
  | Some sp =>
      let* b := Allocator_alloc (capacity * stride) in
      match b with
      | None => Allocator_dispose (Some sp) ;; ret None
      | Some bp =>
          memset_zero (Some bp) (capacity * stride) ;;
          ret (Some (blk sp, bp, Ptr (blk bp) (off bp + capacity * stride)))
      end
  end.

Definition collection_new (capacity stride : nat) : M (option addr) :=
  let* r := array_alloc_struct_with_bucket sizeof_sc_collection x50 stride capacity in
  match r with
  | None => ret None
  | Some (coll, bucket, end_) =>
      store_coll coll
        {| c_handle := (x50, x00); c_bucket := Some bucket; c_end := Some end_;
           c_stride := stride; c_length := 0; c_owns_buffer := true |} ;;
      ret (Some coll)
  end.

Definition collection_dispose (coll : option addr) : M unit :=
  match coll with
  | None => ret tt
  | Some c =>
      let* k := load_coll c in
      (if c_owns_buffer k && bool_decide (c_bucket k <> None)
       then Allocator_dispose (c_bucket k) else ret tt) ;;
      Allocator_dispose (Some (Ptr c 0))
  end.

Definition collection_grow (coll : option addr) : M Z :=
  match coll with
  | None => ret ERR
  | Some c =>
      let* k := load_coll c in
      let* d := ptr_diff (c_end k) (c_bucket k) in
      if c_stride k =? 0 then fault else
      let current_capacity := usize_of_ptrdiff d / c_stride k in
      let new_capacity :=
        if current_capacity =? 0 then 8 else current_capacity * 2 in
      let* new_buffer := Allocator_alloc (c_stride k * new_capacity) in
      match new_buffer with
      | None => ret ERR
      | Some _ =>
          memcpy new_buffer (c_bucket k) (c_stride k * current_capacity) ;;
          Allocator_dispose (c_bucket k) ;;
          store_coll c
            {| c_handle := c_handle k; c_bucket := new_buffer;
               c_end := ptr_add new_buffer (c_stride k * new_capacity);
               c_stride := c_stride k; c_length := c_length k;
               c_owns_buffer := c_owns_buffer k |} ;;
          ret OK
      end
  end.

(** ** indexarray.c *)

Fixpoint is_slot_empty_from (slot_ptr : option ptr) (n i : nat) : M bool :=
  match n with
  | 0 => ret true
  | S n' =>
      let* b := load_byte (ptr_add slot_ptr i) in
      if is_zero b then is_slot_empty_from slot_ptr n' (S i) else ret false
  end.

(** [for (i = 0; i < stride; i++) if (bytes[i] != 0) return false;] *)
Definition is_slot_empty (slot_ptr : option ptr) (stride : nat) : M bool :=
  is_slot_empty_from slot_ptr stride 0.

Definition zero_slot (slot_ptr : option ptr) (stride : nat) : M unit :=
  memset_zero slot_ptr stride.

Definition indexarray_capacity (ia : option addr) : M nat :=
  match ia with
  | None => ret 0
  | Some a =>
      let* s := load_ia a in
      let* buffer := collection_get_buffer (ia_coll s) in
      let* end_ := collection_get_end (ia_coll s) in
      let* stride := collection_get_stride (ia_coll s) in
      if bool_decide (buffer = None) || bool_decide (end_ = None) || (stride =? 0)
      then ret 0
      else let* d := ptr_diff end_ buffer in ret (usize_of_ptrdiff d / stride)
  end.

Definition indexarray_stride (ia : option addr) : M nat :=
  match ia with
  | None => ret 0
  | Some a => let* s := load_ia a in collection_get_stride (ia_coll s)
  end.

Definition indexarray_new (capacity stride : nat) : M (option addr) :=
  if stride =? 0 then ret None else
  let* p := Allocator_alloc sizeof_sc_indexarray in
  match p with
  | None => ret None
  | Some p =>
      let ia := blk p in
      let* coll := collection_new capacity stride in
      match coll with
      | None => Allocator_dispose (Some p) ;; ret None
      | Some _ =>
          let* buffer := collection_get_buffer coll in
          (if bool_decide (buffer <> None)
           then memset_zero buffer (capacity * stride) else ret tt) ;;
          store_ia ia {| ia_coll := coll; ia_next_slot := 0 |} ;;
          ret (Some ia)
      end
  end.

Definition indexarray_dispose (ia : option addr) : M unit :=
  match ia with
  | None => ret tt
  | Some a =>
      let* s := load_ia a in
      collection_dispose (ia_coll s) ;;
      Allocator_dispose (Some (Ptr a 0))
  end.

(** The scan of [indexarray_add]: [n] iterations remain, [i] is the loop
    counter.  [Some r] is the function's return value from inside the loop,
    [None] means the loop ran to its end. *)
Fixpoint indexarray_add_scan (a : addr) (value : list byte)
    (buffer : option ptr) (stride capacity : nat) (n i : nat) : M (option Z) :=
  match n with
  | 0 => ret None
  | S n' =>
      let* s := load_ia a in
      let slot_index := (ia_next_slot s + i) mod capacity in
      let slot := ptr_add buffer (slot_index * stride) in
      let* e := is_slot_empty slot stride in
      if e then
        memcpy_from slot value stride ;;
        store_ia a {| ia_coll := ia_coll s;
                      ia_next_slot := (slot_index + 1) mod capacity |} ;;
        ret (Some (int_of_usize slot_index))
      else indexarray_add_scan a value buffer stride capacity n' (S i)
  end.

Definition indexarray_add (ia : option addr) (value : option (list byte)) : M Z :=
  match ia, value with
  | Some a, Some v =>
      let* s := load_ia a in
      let* stride := collection_get_stride (ia_coll s) in
      let* capacity := indexarray_capacity ia in
      let* buffer := collection_get_buffer (ia_coll s) in
      let* found := indexarray_add_scan a v buffer stride capacity capacity 0 in
      match found with
      | Some r => ret r
      | None =>
          let* g := collection_grow (ia_coll s) in
          if negb (g =? OK)%Z then ret ERR else
          let* buffer := collection_get_buffer (ia_coll s) in
          let* capacity := indexarray_capacity ia in
          let new_space := ptr_add buffer ((capacity / 2) * stride) in
          memset_zero new_space ((capacity / 2) * stride) ;;
          let slot := ptr_add buffer ((capacity / 2) * stride) in
          memcpy_from slot v stride ;;
          let* s := load_ia a in
          store_ia a {| ia_coll := ia_coll s;
                        ia_next_slot := capacity / 2 + 1 |} ;;
          ret (int_of_usize (capacity / 2))
      end
  | _, _ => ret ERR
  end.

(** [out_value] is the caller's buffer, passed and returned as its bytes. *)
Definition indexarray_get_at (ia : option addr) (index : nat)
    (out_value : option (list byte)) : M (Z * option (list byte)) :=
  match ia, out_value with
  | Some a, Some out =>
      let* capacity := indexarray_capacity ia in
      if capacity <=? index then ret (ERR, out_value) else
      let* s := load_ia a in
      let* stride := collection_get_stride (ia_coll s) in
      let* buffer := collection_get_buffer (ia_coll s) in
      let slot := ptr_add buffer (index * stride) in
      let* e := is_slot_empty slot stride in
      if e then ret (ERR, out_value) else
      let* out' := memcpy_to out slot stride in
      ret (OK, Some out')
  | _, _ => ret (ERR, out_value)
  end.

Definition indexarray_remove_at (ia : option addr) (index : nat) : M Z :=
  match ia with
  | None => ret ERR
  | Some a =>
      let* capacity := indexarray_capacity ia in
      if capacity <=? index then ret ERR else
      let* s := load_ia a in
      let* stride := collection_get_stride (ia_coll s) in
      let* buffer := collection_get_buffer (ia_coll s) in
      let slot := ptr_add buffer (index * stride) in
      zero_slot slot stride ;;
      ret OK
  end.

Definition indexarray_from_buffer (buffer end_ : option ptr) (stride : nat)
    : M (option addr) :=
  match buffer, end_ with
  | Some b, Some e =>
      if stride =? 0 then ret None else
      let* ge := ptr_ge b e in
      if ge then ret None else
      let* p := Allocator_alloc sizeof_sc_indexarray in
      match p with
      | None => ret None
      | Some p =>
          let ia := blk p in
          let* c := Allocator_alloc sizeof_sc_collection in
          match c with
          | None => Allocator_dispose (Some p) ;; ret None
          | Some c =>
              store_coll (blk c)
                {| c_handle := (x46, x00); c_bucket := buffer; c_end := end_;
                   c_stride := stride; c_length := 0;
                   c_owns_buffer := false |} ;;
              store_ia ia {| ia_coll := Some (blk c); ia_next_slot := 0 |} ;;
              ret (Some ia)
          end
      end
  | _, _ => ret None
  end.

Definition indexarray_is_empty_slot (ia : option addr) (index : nat) : M bool :=
  match ia with
  | None => ret true
  | Some a =>
      let* capacity := indexarray_capacity ia in
      if capacity <=? index then ret true else
      let* s := load_ia a in
      let* stride := collection_get_stride (ia_coll s) in
      let* buffer := collection_get_buffer (ia_coll s) in
      let slot := ptr_add buffer (index * stride) in
      is_slot_empty slot stride
  end.

Definition indexarray_clear (ia : option addr) : M unit :=
  match ia with
  | None => ret tt
  | Some a =>
      let* capacity := indexarray_capacity ia in
      let* s := load_ia a in
      let* stride := collection_get_stride (ia_coll s) in
      let* buffer := collection_get_buffer (ia_coll s) in
      (if bool_decide (buffer <> None)
       then memset_zero buffer (capacity * stride) else ret tt) ;;
      let* s := load_ia a in
      store_ia a {| ia_coll := ia_coll s; ia_next_slot := 0 |}
  end.

(** ** The sparse capability table and the sparse iterator (collections.c) *)

(** [sc_sparse_i]: the three operations a sparse container provides. *)
Record sc_sparse_i := mk_sparse_i {
  sp_is_empty_slot : option addr -> nat -> M bool;
  sp_capacity : option addr -> M nat;
  sp_get_at : option addr -> nat -> option (list byte) -> M (Z * option (list byte))
}.

Definition indexarray_sparse_ops : sc_sparse_i :=
  {| sp_is_empty_slot := indexarray_is_empty_slot;
     sp_capacity := indexarray_capacity;
     sp_get_at := indexarray_get_at |}.

(** Dereferencing a table pointer. *)
Definition sparse_ops (r : sparse_ops_ref) : sc_sparse_i :=
  match r with indexarray_sparse_ops_ref => indexarray_sparse_ops end.

Definition sparse_iterator_new (sparse_coll : option addr)
    (ops : option sparse_ops_ref) : M (option addr) :=
  match sparse_coll, ops with
  | Some _, Some o =>
      let* p := Allocator_alloc sizeof_sparse_iterator_s in
      match p with
      | None => ret None
      | Some p =>
          let* capacity := sp_capacity (sparse_ops o) sparse_coll in
          store_iter (blk p)
            {| it_sparse_coll := sparse_coll; it_ops := ops; it_current := 0;
               it_capacity := capacity; it_positioned := false |} ;;
          ret (Some (blk p))
      end
  | _, _ => ret None
  end.

(** The [while (it->current < it->capacity)] loop of [sparse_iter_next];
    [fuel] bounds the iterations and is never the reason to stop when it
    starts at [capacity - current]. *)
Fixpoint sparse_iter_scan (it : addr) (ops : sc_sparse_i) (fuel : nat) : M bool :=
  let* s := load_iter it in
  if it_capacity s <=? it_current s then ret false else
  match fuel with
  | 0 => fault
  | S fuel' =>
      let* e := sp_is_empty_slot ops (it_sparse_coll s) (it_current s) in
      if negb e then
        store_iter it
          {| it_sparse_coll := it_sparse_coll s; it_ops := it_ops s;
             it_current := it_current s; it_capacity := it_capacity s;
             it_positioned := true |} ;;
        ret true
      else
        store_iter it
          {| it_sparse_coll := it_sparse_coll s; it_ops := it_ops s;
             it_current := it_current s + 1; it_capacity := it_capacity s;
             it_positioned := it_positioned s |} ;;
        sparse_iter_scan it ops fuel'
  end.

Definition sparse_iter_next (it : option addr) : M bool :=
  match it with
  | None => ret false
  | Some i =>
      let* s := load_iter i in
      match it_ops s with
      | None => ret false
      | Some o =>
          (if it_positioned s then
             store_iter i
               {| it_sparse_coll := it_sparse_coll s; it_ops := it_ops s;
                  it_current := it_current s + 1; it_capacity := it_capacity s;
                  it_positioned := false |}
           else ret tt) ;;
          let* s := load_iter i in
          sparse_iter_scan i (sparse_ops o) (it_capacity s - it_current s)
      end
  end.

Definition sparse_iter_current_index (it : option addr) : M nat :=
  match it with
  | None => ret 0
  | Some i => let* s := load_iter i in ret (it_current s)
  end.

Definition sparse_iter_current_value (it : option addr)
    (out_value : option (list byte)) : M (Z * option (list byte)) :=
  match it, out_value with
  | Some i, Some _ =>
      let* s := load_iter i in
      match it_ops s with
      | Some o =>
          if it_positioned s
          then sp_get_at (sparse_ops o) (it_sparse_coll s) (it_current s) out_value
          else ret (ERR, out_value)
      | None => ret (ERR, out_value)
      end
  | _, _ => ret (ERR, out_value)
  end.

Definition sparse_iter_reset (it : option addr) : M unit :=
  match it with
  | None => ret tt
  | Some i =>
      let* s := load_iter i in
      store_iter i
        {| it_sparse_coll := it_sparse_coll s; it_ops := it_ops s;
           it_current := 0; it_capacity := it_capacity s;
           it_positioned := false |}
  end.

Definition sparse_iter_dispose (it : option addr) : M unit :=
  match it with
  | None => ret tt
  | Some i => Allocator_dispose (Some (Ptr i 0))
  end.

Definition indexarray_create_iterator (ia : option addr) : M (option addr) :=
  match ia with
  | None => ret None
  | Some _ => sparse_iterator_new ia (Some indexarray_sparse_ops_ref)
  end.

(** ** The dense collection and its iterator (collections.c) *)

(** [usize] arithmetic where the code itself gives no bound on the operands:
    modulo 2^64. *)
Definition usize_wrap (z : Z) : nat := Z.to_nat (z mod 2 ^ 64).
Definition usize_mul (a b : nat) : nat := usize_wrap (Z.of_nat a * Z.of_nat b).
Definition usize_add (a b : nat) : nat := usize_wrap (Z.of_nat a + Z.of_nat b).
Definition usize_sub (a b : nat) : nat := usize_wrap (Z.of_nat a - Z.of_nat b).

(** The object representation of a scalar of [k] bytes (little endian), and
    the value a run of bytes represents. *)
Definition byte_of_N (n : N) : byte := default x00 (Byte.of_N (n mod 256)).

Fixpoint le_bytes (k : nat) (n : N) : list byte :=
  match k with
  | 0 => []
  | S k' => byte_of_N n :: le_bytes k' (n / 256)
  end.

Fixpoint le_value (bs : list byte) : N :=
  match bs with
  | [] => 0
  | b :: bs' => Byte.to_N b + 256 * le_value bs'
  end.

Definition sizeof_pointer : nat := 8.
Definition sizeof_usize : nat := 8.

(** An [object] argument: a pointer into the caller's own memory, given by
    the address it holds and by the bytes found there.  NULL is [None]. *)
Record object := mk_object { obj_addr : N; obj_data : list byte }.

(** The bytes of the pointer itself, what [&ptr] points at. *)
Definition obj_repr (p : object) : list byte :=
  le_bytes sizeof_pointer (obj_addr p).

(** [coll->length = n] *)
Definition with_length (k : sc_collection) (n : nat) : sc_collection :=
  {| c_handle := c_handle k; c_bucket := c_bucket k; c_end := c_end k;
     c_stride := c_stride k; c_length := n;
     c_owns_buffer := c_owns_buffer k |}.

#[global] Instance byte_eq_dec : EqDecision byte.
Proof.
  intros x y. destruct (Byte.eqb x y) eqn:E;
    [left; by apply Byte.byte_dec_bl | right; by apply Byte.eqb_false].
Defined.

(** [memcmp(slot, ptr, n) == 0] *)
Definition memcmp_eq (slot : option ptr) (data : list byte) (n : nat) : M bool :=
  if decide (n <= length data)
  then let* bs := load_bytes slot n in ret (bool_decide (bs = take n data))
  else fault.

Definition collection_set_data (coll : option addr) (data : option (list byte))
    (count : nat) : M unit :=
  match coll, data with
  | Some c, Some d =>
      let* k := load_coll c in
      memcpy_from (c_bucket k) d (usize_mul count (c_stride k)) ;;
      let* k := load_coll c in
      store_coll c (with_length k count)
  | _, _ => ret tt
  end.

Definition collection_get_length (coll : option addr) : M nat :=
  match coll with
  | Some c => let* k := load_coll c in ret (c_length k)
  | None => ret 0
  end.

Definition collection_set_length (coll : option addr) (length : nat) : M unit :=
  match coll with
  | Some c => let* k := load_coll c in store_coll c (with_length k length)
  | None => ret tt
  end.

Definition collection_count (coll : option addr) : M nat :=
  match coll with
  | None => ret 0
  | Some c => let* k := load_coll c in ret (c_length k)
  end.

Definition collection_add (coll : option addr) (ptr : option object) : M Z :=
  match coll, ptr with
  | Some c, Some p =>
      let* k := load_coll c in
      let* d := ptr_diff (c_end k) (c_bucket k) in
      if c_stride k =? 0 then fault else
      let capacity := usize_of_ptrdiff d / c_stride k in
      let* failed :=
        (if capacity <=? c_length k
         then let* g := collection_grow coll in ret (negb (g =? 0)%Z)
         else ret false) in
      if failed then ret ERR else
      let* k := load_coll c in
      let dest := ptr_add (c_bucket k) (usize_mul (c_length k) (c_stride k)) in
      (if Byte.eqb (fst (c_handle k)) x46
       then memcpy_from dest (obj_data p) (c_stride k)
       else memcpy_from dest (obj_repr p) (c_stride k)) ;;
      let* k := load_coll c in
      store_coll c (with_length k (usize_add (c_length k) 1)) ;;
      ret OK
  | _, _ => ret ERR
  end.

(** The inner loop of [collection_remove], shifting the records after the
    match one place left: [n] iterations remain, [j] is the loop counter. *)
Fixpoint collection_remove_shift (c : addr) (n j : nat) : M unit :=
  match n with
  | 0 => ret tt
  | S n' =>
      let* k := load_coll c in
      let src := ptr_add (c_bucket k) (usize_mul (usize_add j 1) (c_stride k)) in
      let dest := ptr_add (c_bucket k) (usize_mul j (c_stride k)) in
      memcpy dest src (c_stride k) ;;
      collection_remove_shift c n' (S j)
  end.

(** The outer loop of [collection_remove]: [n] iterations remain, [i] is the
    loop counter.  Both branches on the handle compare the slot with the
    bytes [ptr] points at. *)
Fixpoint collection_remove_scan (c : addr) (p : object) (n i : nat) : M Z :=
  match n with
  | 0 => ret ERR
  | S n' =>
      let* k := load_coll c in
      let slot := ptr_add (c_bucket k) (usize_mul i (c_stride k)) in
      let* is_match :=
        (if Byte.eqb (fst (c_handle k)) x50
         then memcmp_eq slot (obj_data p) (c_stride k)
         else memcmp_eq slot (obj_data p) (c_stride k)) in
      if is_match then
        collection_remove_shift c (usize_sub (c_length k) 1 - i) i ;;
        let* k := load_coll c in
        memset_zero
          (ptr_add (c_bucket k)
             (usize_mul (usize_sub (c_length k) 1) (c_stride k)))
          (c_stride k) ;;
        let* k := load_coll c in
        store_coll c (with_length k (usize_sub (c_length k) 1)) ;;
        ret OK
      else collection_remove_scan c p n' (S i)
  end.

Definition collection_remove (coll : option addr) (ptr : option object) : M Z :=
  match coll, ptr with
  | Some c, Some p =>
      let* k := load_coll c in
      collection_remove_scan c p (c_length k) 0
  | _, _ => ret ERR
  end.

Definition collection_clear (coll : option addr) : M unit :=
  match coll with
  | None => ret tt
  | Some c =>
      let* k := load_coll c in
      if bool_decide (c_bucket k = None) then ret tt else
      let* d := ptr_diff (c_end k) (c_bucket k) in
      if c_stride k =? 0 then fault else
      let capacity := usize_of_ptrdiff d / c_stride k in
      memset_zero (c_bucket k) (usize_mul capacity (c_stride k)) ;;
      let* k := load_coll c in
      store_coll c (with_length k 0)
  end.

Definition collection_get_count (coll : option addr) : M nat :=
  collection_count coll.

(** [struct iterator_s] (collections.h) has two fields, [coll] at offset 0
    and [current] at offset 8.  An iterator lives in its block as these
    bytes; the address of the collection in cell [c] is taken to be [c + 1],
    that of NULL is 0. *)
Definition sizeof_iterator_s : nat := 16.

Definition addr_repr (c : option addr) : N :=
  match c with None => 0 | Some a => N.succ (N.of_nat a) end.

Definition addr_of_repr (n : N) : option addr :=
  if (n =? 0)%N then None else Some (N.to_nat (N.pred n)).

(** [it->coll] *)
Definition load_iterator_coll (it : addr) : M (option addr) :=
  let* bs := load_bytes (Some (Ptr it 0)) sizeof_pointer in
  ret (addr_of_repr (le_value bs)).

(** [it->current] *)
Definition load_iterator_current (it : addr) : M nat :=
  let* bs := load_bytes (Some (Ptr it sizeof_pointer)) sizeof_usize in
  ret (N.to_nat (le_value bs)).

(** [it->coll = c] *)
Definition store_iterator_coll (it : addr) (c : option addr) : M unit :=
  store_bytes (Some (Ptr it 0)) (le_bytes sizeof_pointer (addr_repr c)).

(** [it->current = n] *)
Definition store_iterator_current (it : addr) (n : nat) : M unit :=
  store_bytes (Some (Ptr it sizeof_pointer)) (le_bytes sizeof_usize (N.of_nat n)).

Definition collection_create_iterator (coll : option addr) : M (option addr) :=
  match coll with
  | None => ret None
  | Some _ =>
      let* p := Allocator_alloc sizeof_iterator_s in
      match p with
      | None => ret None
      | Some p =>
          store_iterator_coll (blk p) coll ;;
          store_iterator_current (blk p) 0 ;;
          ret (Some (blk p))
      end
  end.

Definition iter_next (it : option addr) : M bool :=
  match it with
  | None => ret false
  | Some i =>
      let* coll := load_iterator_coll i in
      match coll with
      | None => ret false
      | Some c =>
          let* current := load_iterator_current i in
          let* k := load_coll c in
          if c_length k <=? current then ret false else
          store_iterator_current i (usize_add current 1) ;;
          ret true
      end
  end.

Definition iter_current (it : option addr) : M (option ptr) :=
  match it with
  | None => ret None
  | Some i =>
      let* coll := load_iterator_coll i in
      match coll with
      | None => ret None
      | Some c =>
          let* current := load_iterator_current i in
          if current =? 0 then ret None else
          let* k := load_coll c in
          if c_length k <? current then ret None else
          ret (ptr_add (c_bucket k)
                 (usize_mul (usize_sub current 1) (c_stride k)))
      end
  end.

Definition iter_reset (it : option addr) : M unit :=
  match it with
  | None => ret tt
  | Some i => store_iterator_current i 0
  end.

Definition iter_dispose (it : option addr) : M unit :=
  match it with
  | None => ret tt
  | Some i => Allocator_dispose (Some (Ptr i 0))
  end.

(** [Collections.add] called once for each object of a list. *)
Fixpoint collection_add_all (coll : option addr) (ps : list object) : M (list Z) :=
  match ps with
  | [] => ret []
  | p :: ps' =>
      let* r := collection_add coll (Some p) in
      let* rs := collection_add_all coll ps' in
      ret (r :: rs)
  end.

(** [while (Iterator.next(it)) use(Iterator.current(it))], the caller reading
    [stride] bytes through each pointer it is handed: the records it sees,
    at most [fuel] of them. *)
Fixpoint iter_collect (it : option addr) (stride fuel : nat)
    : M (list (list byte)) :=
  match fuel with
  | 0 => fault
  | S fuel' =>
      let* more := iter_next it in
      if more then
        let* p := iter_current it in
        let* v := load_bytes p stride in
        let* rest := iter_collect it stride fuel' in
        ret (v :: rest)
      else ret []
  end.

(** ** Driving the code *)

(** An empty store whose allocator can hand out [n] bytes and leaves [xaa]
    in fresh memory. *)
Definition heap_init (n : nat) : heap :=
  {| cells := []; avail := n; junk := fun _ _ => xaa |}.

(** [while (SparseIterator.next(it)) record(SparseIterator.current_index(it))]:
    the indices a caller sees, at most [fuel] of them. *)
Fixpoint sparse_iter_drain (it : option addr) (fuel : nat) : M (list nat) :=
  match fuel with
  | 0 => fault
  | S fuel' =>
      let* more := sparse_iter_next it in
      if more then
        let* i := sparse_iter_current_index it in
        let* rest := sparse_iter_drain it fuel' in
        ret (i :: rest)
      else ret []
  end.

(** ** Observing a container in the store *)

(** What the two structs and the bucket of a container hold. *)
Record layout := mk_layout {
  L_coll : addr;
  L_next : nat;
  L_handle : byte * byte;
  L_blk : nat;
  L_off : nat;
  L_end : nat;
  L_stride : nat;
  L_length : nat;
  L_owns : bool;
  L_bytes : list byte
}.

Definition ia_layout (h : heap) (a : addr) : option layout :=
  match cells h !! a with
  | Some (CIndexArray (mk_indexarray (Some c) next)) =>
      match cells h !! c with
      | Some (CColl (mk_collection hd (Some (Ptr b o)) (Some (Ptr b' e)) st len owns)) =>
          match cells h !! b with
          | Some (CBytes bs) =>
              if b =? b' then Some (mk_layout c next hd b o e st len owns bs)
              else None
          | _ => None
          end
      | _ => None
      end
  | _ => None
  end.

Definition layout_ok (L : layout) : bool :=
  (0 <? L_stride L) && (L_off L <=? L_end L) && (L_end L <=? length (L_bytes L))
  && (Z.of_nat (length (L_bytes L)) <? 2 ^ 64)%Z.

(** The representation invariant of a container at [a]: both structs are
    live, bucket and end delimit a range of one live byte block, and the
    stride is positive. *)
Definition ia_wf (h : heap) (a : addr) : bool :=
  match ia_layout h a with Some L => layout_ok L | None => false end.

(** The bucket is the start of its block, as [Allocator.dispose] needs it to
    be when [collection_grow] hands the bucket over.  Every container made by
    [indexarray_new] is so, and stays so; a view is so when its range starts
    a block. *)
Definition ia_growable (h : heap) (a : addr) : bool :=
  match ia_layout h a with
  | Some L => layout_ok L && (L_off L =? 0)
  | None => false
  end.

Definition L_cap (L : layout) : nat := (L_end L - L_off L) / L_stride L.

Definition L_slot (L : layout) (i : nat) : list byte :=
  take (L_stride L) (drop (L_off L + i * L_stride L) (L_bytes L)).

Definition all_zero (bs : list byte) : bool := forallb is_zero bs.

(** The next-free-slot hint. *)
Definition ia_hint (h : heap) (a : addr) : option nat :=
  match ia_layout h a with Some L => Some (L_next L) | None => None end.

(** The bytes of slot [i], for [i] below the capacity. *)
Definition ia_slot (h : heap) (a : addr) (i : nat) : option (list byte) :=
  match ia_layout h a with
  | Some L => if i <? L_cap L then Some (L_slot L i) else None
  | None => None
  end.

(** The bucket's block. *)
Definition ia_bucket_block (h : heap) (a : addr) : option nat :=
  match ia_layout h a with Some L => Some (L_blk L) | None => None end.

(** Pure counterparts of the loops, used to state what the code computes. *)

Definition L_set_bytes (L : layout) (bs : list byte) : layout :=
  mk_layout (L_coll L) (L_next L) (L_handle L) (L_blk L) (L_off L) (L_end L)
    (L_stride L) (L_length L) (L_owns L) bs.

Definition L_set_next (L : layout) (n : nat) : layout :=
  mk_layout (L_coll L) n (L_handle L) (L_blk L) (L_off L) (L_end L)
    (L_stride L) (L_length L) (L_owns L) (L_bytes L).

Definition L_ia (L : layout) : sc_indexarray :=
  {| ia_coll := Some (L_coll L); ia_next_slot := L_next L |}.

Definition L_collection (L : layout) : sc_collection :=
  {| c_handle := L_handle L;
     c_bucket := Some (Ptr (L_blk L) (L_off L));
     c_end := Some (Ptr (L_blk L) (L_end L));
     c_stride := L_stride L; c_length := L_length L;
     c_owns_buffer := L_owns L |}.

(** The first empty slot in the order [indexarray_add] scans them. *)
Fixpoint scan_first (L : layout) (capacity n i : nat) : option nat :=
  match n with
  | 0 => None
  | S n' =>
      let slot_index := (L_next L + i) mod capacity in
      if all_zero (L_slot L slot_index) then Some slot_index
      else scan_first L capacity n' (S i)
  end.

(** How many slots the circular scan from [hint] passes before slot [i]. *)
Definition scan_distance (hint capacity i : nat) : nat :=
  (i + capacity - hint mod capacity) mod capacity.

(** [ia_at h a L]: the store [h] holds at [a] a well-formed container whose
    structs and bucket are as [L] says. *)
Record ia_at (h : heap) (a : addr) (L : layout) : Prop := mk_ia_at {
  at_ia : cells h !! a = Some (CIndexArray (L_ia L));
  at_coll : cells h !! L_coll L = Some (CColl (L_collection L));
  at_bytes : cells h !! L_blk L = Some (CBytes (L_bytes L));
  at_stride : 0 < L_stride L;
  at_lo : L_off L <= L_end L;
  at_hi : L_end L <= length (L_bytes L);
  at_size : (Z.of_nat (length (L_bytes L)) < 2 ^ 64)%Z
}.

(** Slot [i] overwritten with [v]. *)
Definition L_write (L : layout) (i : nat) (v : list byte) : layout :=
  L_set_bytes L (list_inserts (L_off L + i * L_stride L) v (L_bytes L)).

(** The store once the structs and bucket of the container at [a] hold [L']
    instead of [L] (same cells). *)
Definition h_update (h : heap) (a : addr) (L' : layout) : heap :=
  set_cell a (CIndexArray (L_ia L'))
    (set_cell (L_blk L') (CBytes (L_bytes L')) h).

(** The container after [indexarray_add] stored [v] in the empty slot [idx]. *)
Definition L_found (L : layout) (idx : nat) (v : list byte) : layout :=
  L_set_next (L_write L idx (take (L_stride L) v)) ((idx + 1) mod L_cap L).

(** The allocator grants a request of [n] bytes. *)
Definition alloc_ok (h : heap) (n : nat) : Prop :=
  n <= avail h /\ (Z.of_nat n < 2 ^ 64)%Z.

(** The capacity [collection_grow] moves to. *)
Definition L_new_cap (L : layout) : nat :=
  if L_cap L =? 0 then 8 else L_cap L * 2.

(** The fresh bucket after [collection_grow]: the old slots in its low part,
    whatever the allocator left there above them. *)
Definition grown_bytes (h : heap) (L : layout) : list byte :=
  list_inserts 0 (take (L_stride L * L_cap L) (drop (L_off L) (L_bytes L)))
    (junk_block h (length (cells h)) (L_stride L * L_new_cap L)).

Definition L_grown (h : heap) (L : layout) : layout :=
  mk_layout (L_coll L) (L_next L) (L_handle L) (length (cells h)) 0
    (L_stride L * L_new_cap L) (L_stride L) (L_length L) (L_owns L)
    (grown_bytes h L).

(** The store after [collection_grow]: a fresh block at the end, the old
    bucket released, the collection struct pointing at the fresh block. *)
Definition h_grown (h : heap) (L : layout) : heap :=
  {| cells :=
       <[L_coll L := CColl (L_collection (L_grown h L))]>
         (<[L_blk L := CFreed]>
            (<[length (cells h) := CBytes (grown_bytes h L)]>
               (cells h ++
                [CBytes (junk_block h (length (cells h))
                                    (L_stride L * L_new_cap L))])));
     avail := avail h - L_stride L * L_new_cap L + length (L_bytes L);
     junk := junk h |}.

(** The container after an [indexarray_add] that grew the bucket. *)
Definition L_add_grown (h : heap) (L : layout) (v : list byte) : layout :=
  let half := L_new_cap L / 2 in
  L_set_next
    (L_write (L_write (L_grown h L) half (replicate (half * L_stride L) x00))
             half (take (L_stride L) v))
    (half + 1).

(** The store after a granted allocation of [n] bytes. *)
Definition h_alloc (h : heap) (n : nat) : heap :=
  {| cells := cells h ++ [CBytes (junk_block h (length (cells h)) n)];
     avail := avail h - n; junk := junk h |}.

(** ** Pure counterparts of the iterator *)

(** The iterator struct of a container at [a]. *)
Definition it_state (a : addr) (cap cur : nat) (pos : bool) : sparse_iterator_s :=
  {| it_sparse_coll := Some a; it_ops := Some indexarray_sparse_ops_ref;
     it_current := cur; it_capacity := cap; it_positioned := pos |}.

(** The first occupied slot among the [n] slots from [cur] on. *)
Fixpoint find_occupied (L : layout) (n cur : nat) : option nat :=
  match n with
  | 0 => None
  | S n' =>
      if all_zero (L_slot L cur) then find_occupied L n' (S cur) else Some cur
  end.

(** The occupied slots among the [n] slots from [cur] on, in order. *)
Fixpoint occupied_from (L : layout) (n cur : nat) : list nat :=
  match n with
  | 0 => []
  | S n' =>
      if all_zero (L_slot L cur) then occupied_from L n' (S cur)
      else cur :: occupied_from L n' (S cur)
  end.

(** The store [h0] with the iterator cell at [it] holding the given cursor. *)
Definition h_iter (h0 : heap) (it a : addr) (L : layout) (cur : nat)
    (pos : bool) : heap :=
  set_cell it (CIter (it_state a (L_cap L) cur pos)) h0.

(** ** Sequences of operations on one container *)

Inductive op :=
| OpAdd (value : option (list byte))
| OpGetAt (index : nat) (out_value : option (list byte))
| OpRemoveAt (index : nat)
| OpIsEmptySlot (index : nat)
| OpCapacity
| OpStride
| OpClear
| OpCreateIterator.

Definition run_op (ia : addr) (o : op) : M unit :=
  match o with
  | OpAdd value => indexarray_add (Some ia) value ;; ret tt
  | OpGetAt index out_value =>
      indexarray_get_at (Some ia) index out_value ;; ret tt
  | OpRemoveAt index => indexarray_remove_at (Some ia) index ;; ret tt
  | OpIsEmptySlot index => indexarray_is_empty_slot (Some ia) index ;; ret tt
  | OpCapacity => indexarray_capacity (Some ia) ;; ret tt
  | OpStride => indexarray_stride (Some ia) ;; ret tt
  | OpClear => indexarray_clear (Some ia)
  | OpCreateIterator => indexarray_create_iterator (Some ia) ;; ret tt
  end.

Fixpoint run_ops (ia : addr) (os : list op) : M unit :=
  match os with
  | [] => ret tt
  | o :: os' => run_op ia o ;; run_ops ia os'
  end.

(** The buffers a caller passes hold at least [stride] bytes. *)
Definition op_ok (stride : nat) (o : op) : bool :=
  match o with
  | OpAdd (Some v) => stride <=? length v
  | OpGetAt _ (Some out) => stride <=? length out
  | _ => true
  end.

(** No slot of the container at [a] is empty. *)
Definition ia_full (h : heap) (a : addr) : Prop :=
  exists cap,
    indexarray_capacity (Some a) h = Some (cap, h)
    /\ forall i, i < cap ->
         indexarray_is_empty_slot (Some a) i h = Some (false, h).

(** The capacity [collection_grow] moves to from [cap]. *)
Definition grown_capacity (cap : nat) : nat :=
  if cap =? 0 then 8 else cap * 2.

(** ** Concrete stores for examples *)

(** The store a computation leaves behind ([h] itself when it faults). *)
Definition heap_after {A} (m : M A) (h : heap) : heap :=
  match m h with Some (_, h') => h' | None => h end.

(** [IndexArray.new(3, 2)] in an empty store: the container is at address 0. *)
Definition h_new_3_2 : heap := heap_after (indexarray_new 3 2) (heap_init 1000).

(** ... then three records added: the container is full. *)
Definition h_full_3_2 : heap :=
  heap_after (indexarray_add (Some 0) (Some [x01; x02]) ;;
              indexarray_add (Some 0) (Some [x03; x04]) ;;
              indexarray_add (Some 0) (Some [x05; x06])) h_new_3_2.

(** ... then a fourth, which grows it to six slots and leaves the hint at 4. *)
Definition h_grown_3_2 : heap :=
  heap_after (indexarray_add (Some 0) (Some [x07; x08])) h_full_3_2.

(** [IndexArray.new(2, 1)], then an all-zero record added. *)
Definition h_new_2_1 : heap := heap_after (indexarray_new 2 1) (heap_init 100).

Definition h_zero_added : heap :=
  heap_after (indexarray_add (Some 0) (Some [x00])) h_new_2_1.

(** [IndexArray.new(1, 1)] with an allocator that has nothing left
    afterwards, then one record added: the container is full. *)
Definition h_new_1_1 : heap := heap_after (indexarray_new 1 1) (heap_init 65).

Definition h_full_1_1 : heap :=
  heap_after (indexarray_add (Some 0) (Some [x01])) h_new_1_1.

(** The spec's third scenario: handle 1 removed from the grown container. *)
Definition h_removed_3_2 : heap :=
  heap_after (indexarray_remove_at (Some 0) 1) h_grown_3_2.

Definition h_readded_3_2 : heap :=
  heap_after (indexarray_add (Some 0) (Some [x09; x09])) h_removed_3_2.

(** A caller's buffer (block 0) holding two one-byte records, both set;
    the view made of it by [IndexArray.from_buffer] is at address 1. *)
Definition h_external : heap :=
  {| cells := [CBytes [x01; x02]]; avail := 1000; junk := fun _ _ => xaa |}.

Definition h_view : heap :=
  heap_after (indexarray_from_buffer (Some (Ptr 0 0)) (Some (Ptr 0 2)) 1)
    h_external.

Definition h_view_grown : heap :=
  heap_after (indexarray_add (Some 1) (Some [x03])) h_view.

Definition h_view_disposed : heap :=
  heap_after (indexarray_dispose (Some 1)) h_view.

(** The same with the view over the second record only. *)
Definition h_view_inner : heap :=
  heap_after (indexarray_from_buffer (Some (Ptr 0 1)) (Some (Ptr 0 2)) 1)
    h_external.

(** [IndexArray.new(2, 1)] with an allocator that has nothing left, then
    both slots filled. *)
Definition h_full_2_1 : heap :=
  heap_after (indexarray_add (Some 0) (Some [x01]) ;;
              indexarray_add (Some 0) (Some [x02]))
    (heap_after (indexarray_new 2 1) (heap_init 66)).

(** [IndexArray.new(0, 1)], then one record added. *)
Definition h_new_0_1 : heap := heap_after (indexarray_new 0 1) (heap_init 1000).

Definition h_grown_0_1 : heap :=
  heap_after (indexarray_add (Some 0) (Some [x01])) h_new_0_1.

(** ** Observing a dense collection in the store *)

(** What the struct and the bucket of the collection at [c] hold. *)
Definition coll_layout (h : heap) (c : addr) : option layout :=
  match cells h !! c with
  | Some (CColl (mk_collection hd (Some (Ptr b o)) (Some (Ptr b' e)) st len owns)) =>
      match cells h !! b with
      | Some (CBytes bs) =>
          if b =? b' then Some (mk_layout c 0 hd b o e st len owns bs)
          else None
      | _ => None
      end
  | _ => None
  end.

(** The representation invariant of a dense collection: the struct is live,
    bucket and end delimit a range of one live byte block, the stride is
    positive and the length is within the capacity. *)
Definition coll_wf (h : heap) (c : addr) : bool :=
  match coll_layout h c with
  | Some L => layout_ok L && (L_length L <=? L_cap L)
  | None => false
  end.

(** ... and the bucket is the start of its block, so that it can be handed
    to [Allocator.dispose]. *)
Definition coll_growable (h : heap) (c : addr) : bool :=
  match coll_layout h c with
  | Some L => layout_ok L && (L_length L <=? L_cap L) && (L_off L =? 0)
  | None => false
  end.

(** The records of a collection: its first [length] slots, in order. *)
Definition L_records (L : layout) : list (list byte) :=
  L_slot L <$> seq 0 (L_length L).

Definition coll_records (h : heap) (c : addr) : option (list (list byte)) :=
  L_records <$> coll_layout h c.

Definition coll_capacity (h : heap) (c : addr) : option nat :=
  L_cap <$> coll_layout h c.

(** Whether the handle says the collection stores values ('F') rather than
    pointers. *)
Definition coll_stores_values (h : heap) (c : addr) : option bool :=
  (fun L => Byte.eqb (fst (L_handle L)) x46) <$> coll_layout h c.

(** [coll_at h c L]: the store holds at [c] a well-formed collection whose
    struct and bucket are as [L] says. *)
Record coll_at (h : heap) (c : addr) (L : layout) : Prop := mk_coll_at {
  cat_self : L_coll L = c;
  cat_next : L_next L = 0;
  cat_coll : cells h !! c = Some (CColl (L_collection L));
  cat_bytes : cells h !! L_blk L = Some (CBytes (L_bytes L));
  cat_stride : 0 < L_stride L;
  cat_lo : L_off L <= L_end L;
  cat_hi : L_end L <= length (L_bytes L);
  cat_size : (Z.of_nat (length (L_bytes L)) < 2 ^ 64)%Z;
  cat_length : L_length L <= L_cap L
}.

Definition L_set_length (L : layout) (n : nat) : layout :=
  mk_layout (L_coll L) (L_next L) (L_handle L) (L_blk L) (L_off L) (L_end L)
    (L_stride L) n (L_owns L) (L_bytes L).

(** The collection with the record [v] put after its last. *)
Definition L_put (L : layout) (v : list byte) : layout :=
  L_set_length (L_write L (L_length L) v) (L_length L + 1).

(** The store once struct and bucket of the collection hold [L'] (same
    cells). *)
Definition h_coll (h : heap) (L' : layout) : heap :=
  set_cell (L_coll L') (CColl (L_collection L'))
    (set_cell (L_blk L') (CBytes (L_bytes L')) h).

(** The bytes [collection_add] stores for [p]: the bytes [p] points at in a
    collection of values, the bytes of [p] itself otherwise. *)
Definition L_payload (L : layout) (p : object) : list byte :=
  if Byte.eqb (fst (L_handle L)) x46 then obj_data p else obj_repr p.



(** [IndexArray.add] called once for each value of a list: the handles it
    returns. *)
Fixpoint indexarray_add_all (ia : option addr) (vs : list (list byte)) : M (list Z) :=
  match vs with
  | [] => ret []
  | v :: vs' =>
      let* r := indexarray_add ia (Some v) in
      let* rs := indexarray_add_all ia vs' in
      ret (r :: rs)
  end.

(** The layout of a container fresh from [indexarray_new] at address [a]. *)
Definition L_fresh (a capacity stride : nat) : layout :=
  mk_layout (S a) 0 (x50, x00) (S (S a)) 0 (capacity * stride) stride 0 true
    (replicate (capacity * stride) x00).

(** The layout of a view made by [indexarray_from_buffer] at address [a]. *)
Definition L_view (a b o e stride : nat) (bs : list byte) : layout :=
  mk_layout (S a) 0 (x46, x00) b o e stride 0 false bs.

(** The store after [indexarray_from_buffer] made a view of the range
    [o, e) of block [b]: the two structs in two fresh blocks. *)
Definition h_viewed (h : heap) (b o e stride : nat) : heap :=
  let a := length (cells h) in
  set_cell a (CIndexArray {| ia_coll := Some (S a); ia_next_slot := 0 |})
    (set_cell (S a)
       (CColl {| c_handle := (x46, x00); c_bucket := Some (Ptr b o);
                 c_end := Some (Ptr b e); c_stride := stride; c_length := 0;
                 c_owns_buffer := false |})
       (h_alloc (h_alloc h sizeof_sc_indexarray) sizeof_sc_collection)).

(** Whether the container's collection owns its bucket. *)
Definition ia_owns_buffer (h : heap) (a : addr) : option bool :=
  match ia_layout h a with Some L => Some (L_owns L) | None => None end.

(** [while (SparseIterator.next(it))] with both accessors called on each
    element: the index, and the status and buffer [current_value] returns
    when handed a buffer holding [out]. *)
Fixpoint sparse_iter_collect (it : option addr) (out : list byte) (fuel : nat)
    : M (list (nat * (Z * option (list byte)))) :=
  match fuel with
  | 0 => fault
  | S fuel' =>
      let* more := sparse_iter_next it in
      if more then
        let* i := sparse_iter_current_index it in
        let* r := sparse_iter_current_value it (Some out) in
        let* rest := sparse_iter_collect it out fuel' in
        ret ((i, r) :: rest)
      else ret []
  end.

(** The store [h0] with the iterator cell at [it] holding the given cursor
    and the capacity [cap0] it cached when it was created. *)
Definition h_snap (h0 : heap) (it a cap0 cur : nat) (pos : bool) : heap :=
  set_cell it (CIter (it_state a cap0 cur pos)) h0.

(** What the iterator hands out at an occupied slot [i] when the caller's
    buffer holds [out]. *)
Definition L_item (L : layout) (out : list byte) (i : nat)
    : nat * (Z * option (list byte)) :=
  (i, (OK, Some (L_slot L i ++ drop (L_stride L) out))).

(** The first record among the [n] from [i] on that equals [v]. *)
Fixpoint find_record (L : layout) (v : list byte) (n i : nat) : option nat :=
  match n with
  | 0 => None
  | S n' =>
      if bool_decide (L_slot L i = v) then Some i
      else find_record L v n' (S i)
  end.

(** The [n] records after record [j] moved one place down. *)
Fixpoint L_shift (L : layout) (n j : nat) : layout :=
  match n with
  | 0 => L
  | S n' => L_shift (L_write L j (L_slot L (j + 1))) n' (S j)
  end.

(** The collection after [collection_remove] took out record [i]. *)
Definition L_removed (L : layout) (i : nat) : layout :=
  L_set_length
    (L_write (L_shift L (L_length L - 1 - i) i) (L_length L - 1)
       (replicate (L_stride L) x00))
    (L_length L - 1).

(** The bytes of an iterator over the collection in cell [c] whose cursor is
    [cur]. *)
Definition iter_bytes (c cur : nat) : list byte :=
  le_bytes sizeof_pointer (addr_repr (Some c))
  ++ le_bytes sizeof_usize (N.of_nat cur).

(** The store [h0] with the iterator block at [it] holding the given cursor. *)
Definition h_dense (h0 : heap) (it c cur : nat) : heap :=
  set_cell it (CBytes (iter_bytes c cur)) h0.

(** The bucket with its whole capacity zeroed, as [collection_clear] leaves
    it. *)
Definition L_cleared (L : layout) : layout :=
  L_set_length
    (L_set_bytes L
       (list_inserts (L_off L) (replicate (L_cap L * L_stride L) x00)
          (L_bytes L))) 0.

(** The collection after [collection_set_data] copied [count] records from
    [d]. *)
Definition L_loaded (L : layout) (d : list byte) (count : nat) : layout :=
  L_set_length
    (L_set_bytes L
       (list_inserts (L_off L) (take (count * L_stride L) d) (L_bytes L)))
    count.

(** The bytes of slot [i] of a collection's bucket. *)
Definition coll_slot (h : heap) (c : addr) (i : nat) : option (list byte) :=
  (fun L => L_slot L i) <$> coll_layout h c.

(** [Collections] over pointers: [collection_new(2, 8)] in an empty store;
    the collection is at address 0. *)
Definition h_pointers_2 : heap := heap_after (collection_new 2 8) (heap_init 1000).

(** A collection of two-byte values with room for three, as a view of an
    farray is: the bucket in block 0, the struct at address 1. *)
Definition h_values_3 : heap :=
  {| cells := [CBytes (replicate 6 x00);
               CColl {| c_handle := (x46, x00); c_bucket := Some (Ptr 0 0);
                        c_end := Some (Ptr 0 6); c_stride := 2; c_length := 0;
                        c_owns_buffer := true |}];
     avail := 1000; junk := fun _ _ => xaa |}.

(** Three objects in the caller's memory. *)
Definition obj_1 : object := mk_object 4096 [x01; x02; x00; x00; x00; x00; x00; x00].
Definition obj_2 : object := mk_object 4104 [x03; x04; x00; x00; x00; x00; x00; x00].
Definition obj_3 : object := mk_object 4112 [x05; x06; x00; x00; x00; x00; x00; x00].

(** ... the first two added to the collection of values, the second twice. *)
Definition h_values_added : heap :=
  heap_after (collection_add_all (Some 1) [obj_1; obj_2; obj_2]) h_values_3.

(** ** A view with more than INT_MAX slots *)

(** A caller's buffer of [n + 1] one-byte records, every record occupied but
    the last, in a store whose allocator has room for the two structs of a
    view ... *)
Definition h_buffer_last_free (n : nat) : heap :=
  {| cells := [CBytes (replicate n x01 ++ [x00])];
     avail := 100; junk := fun _ _ => xaa |}.

(** ... and the view [IndexArray.from_buffer(buf, buf + n + 1, 1)] of it, at
    address 1. *)
Definition h_view_last_free (n : nat) : heap :=
  h_viewed (h_buffer_last_free n) 0 0 (S n) 1.

(** * Properties *)

(** ** Arithmetic of the C types *)

Lemma int_of_usize_small (n : nat) :
  (Z.of_nat n <= INT_MAX)%Z -> int_of_usize n = Z.of_nat n.
Proof.
  intros Hn. unfold int_of_usize, INT_MAX in *.
  rewrite Z.mod_small by lia.
  destruct (Z.leb_spec (Z.of_nat n) 2147483647); [reflexivity | lia].
Qed.

Lemma usize_of_ptrdiff_small (e o : nat) :
  o <= e -> (Z.of_nat e < 2 ^ 64)%Z ->
  usize_of_ptrdiff (Z.of_nat e - Z.of_nat o) = e - o.
Proof.
  intros Hle He. unfold usize_of_ptrdiff.
  rewrite Z.mod_small by lia. lia.
Qed.

Lemma slot_in_range (o e st i : nat) :
  0 < st -> o <= e -> i < (e - o) / st -> o + i * st + st <= e.
Proof.
  intros Hst Hoe Hi.
  pose proof (Nat.Div0.mul_div_le (e - o) st) as Hm.
  assert (S i <= (e - o) / st) as Hs by lia.
  assert (st * S i <= st * ((e - o) / st)) by (apply Nat.mul_le_mono_l; exact Hs).
  lia.
Qed.

(** ** Byte blocks *)

Lemma take_drop_inserts_same (bs v : list byte) (o : nat) :
  o + length v <= length bs ->
  take (length v) (drop o (list_inserts o v bs)) = v.
Proof.
  intros Hlen. apply list_eq. intros i.
  rewrite lookup_take. case_decide as Hi.
  - rewrite lookup_drop, list_lookup_inserts by lia.
    f_equal. lia.
  - symmetry. apply lookup_ge_None_2. lia.
Qed.

Lemma take_drop_inserts_other (bs v : list byte) (o o' n : nat) :
  o + n <= o' \/ o' + length v <= o ->
  take n (drop o (list_inserts o' v bs)) = take n (drop o bs).
Proof.
  intros Hd. apply list_eq. intros i.
  rewrite !lookup_take. case_decide as Hi; [|reflexivity].
  rewrite !lookup_drop. destruct Hd.
  - apply list_lookup_inserts_lt. lia.
  - apply list_lookup_inserts_ge. lia.
Qed.

Lemma all_zero_replicate (n : nat) : all_zero (replicate n x00) = true.
Proof. induction n; simpl; auto. Qed.

(** ** Loads and stores at known cells *)

Lemma cells_set_cell_eq h a c :
  a < length (cells h) -> cells (set_cell a c h) !! a = Some c.
Proof. intros. simpl. by apply list_lookup_insert_eq. Qed.

Lemma cells_set_cell_ne h a b c :
  a <> b -> cells (set_cell a c h) !! b = cells h !! b.
Proof. intros. simpl. by apply list_lookup_insert_ne. Qed.

Lemma load_bytes_at h b o bs n :
  cells h !! b = Some (CBytes bs) -> o + n <= length bs ->
  load_bytes (Some (Ptr b o)) n h = Some (take n (drop o bs), h).
Proof.
  intros Hb Hn. unfold load_bytes. simpl. rewrite Hb.
  by rewrite decide_True.
Qed.

Lemma store_bytes_at h b o bs v :
  cells h !! b = Some (CBytes bs) -> o + length v <= length bs ->
  store_bytes (Some (Ptr b o)) v h
  = Some (tt, set_cell b (CBytes (list_inserts o v bs)) h).
Proof.
  intros Hb Hn. unfold store_bytes. simpl. rewrite Hb.
  by rewrite decide_True.
Qed.

Lemma is_slot_empty_from_at h b o bs n i :
  cells h !! b = Some (CBytes bs) -> o + i + n <= length bs ->
  is_slot_empty_from (Some (Ptr b o)) n i h
  = Some (all_zero (take n (drop (o + i) bs)), h).
Proof.
  intros Hb. revert i. induction n as [|n IH]; intros i Hn; simpl.
  - reflexivity.
  - unfold bind, load_byte. simpl. rewrite Hb.
    destruct (lookup_lt_is_Some_2 bs (o + i)) as [x Hx]; [lia|].
    rewrite Hx. rewrite (drop_S _ _ _ Hx). simpl.
    destruct (is_zero x); [|reflexivity].
    rewrite IH by lia. simpl. by rewrite Nat.add_succ_r.
Qed.

Lemma is_slot_empty_at h b o bs n :
  cells h !! b = Some (CBytes bs) -> o + n <= length bs ->
  is_slot_empty (Some (Ptr b o)) n h = Some (all_zero (take n (drop o bs)), h).
Proof.
  intros Hb Hn. unfold is_slot_empty.
  rewrite (is_slot_empty_from_at h b o bs n 0 Hb) by lia.
  by rewrite Nat.add_0_r.
Qed.

(** Reduce the projections of the structs and of layouts, nothing else. *)
Ltac fields :=
  cbn [L_ia L_collection L_set_bytes L_set_next L_write L_found L_grown
       L_add_grown
       ia_coll ia_next_slot c_handle c_bucket c_end c_stride c_length
       c_owns_buffer L_coll L_next L_handle L_blk L_off L_end L_stride
       L_length L_owns L_bytes blk off ptr_add
       it_sparse_coll it_ops it_current it_capacity it_positioned] in *.

(** Evaluate a closed computation. *)
Ltac run := vm_compute; reflexivity.

(** ** The representation invariant *)

Lemma ia_layout_at h a L :
  ia_layout h a = Some L -> layout_ok L = true -> ia_at h a L.
Proof.
  unfold ia_layout, layout_ok. intros HL Hok.
  destruct (cells h !! a) as [[| |[[c|] next]| |]|] eqn:Ha; try discriminate.
  destruct (cells h !! c) as [[|[hd [[b o]|] [[b' e]|] st len owns]| | |]|] eqn:Hc;
    try discriminate.
  destruct (cells h !! b) as [[bs| | | |]|] eqn:Hb; try discriminate.
  destruct (Nat.eqb_spec b b') as [<-|]; [|discriminate].
  injection HL as <-. simpl in Hok.
  repeat (apply andb_prop in Hok as [Hok ?]).
  constructor; simpl; try done.
  - by apply Nat.ltb_lt.
  - by apply Nat.leb_le.
  - by apply Nat.leb_le.
  - by apply Z.ltb_lt.
Qed.

Lemma ia_at_layout h a L :
  ia_at h a L -> ia_layout h a = Some L /\ layout_ok L = true.
Proof.
  intros [Ha Hc Hb Hst Hlo Hhi Hsz]. unfold ia_layout, layout_ok.
  rewrite Ha. simpl. rewrite Hc. simpl. rewrite Hb, Nat.eqb_refl.
  split; [by destruct L|].
  repeat (apply andb_true_intro; split).
  - by apply Nat.ltb_lt.
  - by apply Nat.leb_le.
  - by apply Nat.leb_le.
  - by apply Z.ltb_lt.
Qed.

Lemma ia_wf_at h a :
  ia_wf h a = true -> exists L, ia_layout h a = Some L /\ ia_at h a L.
Proof.
  unfold ia_wf. destruct (ia_layout h a) as [L|] eqn:HL; [|discriminate].
  intros Hok. exists L. split; [done|]. by apply ia_layout_at.
Qed.

Lemma ia_at_wf h a L : ia_at h a L -> ia_wf h a = true.
Proof. intros [HL Hok]%ia_at_layout. unfold ia_wf. by rewrite HL. Qed.

Lemma ia_growable_at h a :
  ia_growable h a = true ->
  exists L, ia_layout h a = Some L /\ ia_at h a L /\ L_off L = 0.
Proof.
  unfold ia_growable. destruct (ia_layout h a) as [L|] eqn:HL; [|discriminate].
  intros [Hok Ho%Nat.eqb_eq]%andb_prop. exists L.
  split; [done|]. split; [by apply ia_layout_at | done].
Qed.

Lemma ia_at_growable h a L : ia_at h a L -> L_off L = 0 -> ia_growable h a = true.
Proof.
  intros [HL Hok]%ia_at_layout Ho. unfold ia_growable.
  rewrite HL, Hok, Ho. reflexivity.
Qed.

Lemma ia_at_slot_range h a L i :
  ia_at h a L -> i < L_cap L ->
  L_off L + i * L_stride L + L_stride L <= length (L_bytes L).
Proof.
  intros H Hi. pose proof (at_hi _ _ _ H).
  pose proof (slot_in_range (L_off L) (L_end L) (L_stride L) i
                (at_stride _ _ _ H) (at_lo _ _ _ H) Hi).
  lia.
Qed.

(** ** What the accessors compute on a well-formed container *)

Lemma load_ia_at h a L : ia_at h a L -> load_ia a h = Some (L_ia L, h).
Proof. intros H. unfold load_ia. by rewrite (at_ia _ _ _ H). Qed.

Lemma collection_get_stride_at h a L :
  ia_at h a L -> collection_get_stride (Some (L_coll L)) h = Some (L_stride L, h).
Proof.
  intros H. unfold collection_get_stride, bind, load_coll.
  by rewrite (at_coll _ _ _ H).
Qed.

Lemma collection_get_buffer_at h a L :
  ia_at h a L ->
  collection_get_buffer (Some (L_coll L)) h = Some (Some (Ptr (L_blk L) (L_off L)), h).
Proof.
  intros H. unfold collection_get_buffer, bind, load_coll.
  by rewrite (at_coll _ _ _ H).
Qed.

Lemma collection_get_end_at h a L :
  ia_at h a L ->
  collection_get_end (Some (L_coll L)) h = Some (Some (Ptr (L_blk L) (L_end L)), h).
Proof.
  intros H. unfold collection_get_end, bind, load_coll.
  by rewrite (at_coll _ _ _ H).
Qed.

Lemma indexarray_capacity_at h a L :
  ia_at h a L -> indexarray_capacity (Some a) h = Some (L_cap L, h).
Proof.
  intros H. unfold indexarray_capacity, bind.
  rewrite (load_ia_at _ _ _ H). fields.
  rewrite (collection_get_buffer_at _ _ _ H), (collection_get_end_at _ _ _ H),
    (collection_get_stride_at _ _ _ H).
  pose proof (at_stride _ _ _ H) as Hst.
  destruct (Nat.eqb_spec (L_stride L) 0) as [|_]; [lia|].
  rewrite !bool_decide_eq_false_2 by discriminate. cbn [orb].
  unfold ptr_diff. fields. rewrite Nat.eqb_refl. unfold ret, L_cap.
  rewrite usize_of_ptrdiff_small; [done| apply (at_lo _ _ _ H) |].
  pose proof (at_hi _ _ _ H). pose proof (at_size _ _ _ H). lia.
Qed.

Lemma indexarray_stride_at h a L :
  ia_at h a L -> indexarray_stride (Some a) h = Some (L_stride L, h).
Proof.
  intros H. unfold indexarray_stride, bind.
  rewrite (load_ia_at _ _ _ H). fields. apply (collection_get_stride_at _ _ _ H).
Qed.

Lemma is_slot_empty_slot h a L i :
  ia_at h a L -> i < L_cap L ->
  is_slot_empty (Some (Ptr (L_blk L) (L_off L + i * L_stride L))) (L_stride L) h
  = Some (all_zero (L_slot L i), h).
Proof.
  intros H Hi. apply is_slot_empty_at; [apply (at_bytes _ _ _ H)|].
  apply (ia_at_slot_range _ _ _ _ H Hi).
Qed.

Lemma indexarray_is_empty_slot_at h a L i :
  ia_at h a L ->
  indexarray_is_empty_slot (Some a) i h
  = Some ((L_cap L <=? i) || all_zero (L_slot L i), h).
Proof.
  intros H. unfold indexarray_is_empty_slot, bind.
  rewrite (indexarray_capacity_at _ _ _ H).
  destruct (Nat.leb_spec (L_cap L) i) as [|Hi]; [done|].
  rewrite (load_ia_at _ _ _ H). fields.
  rewrite (collection_get_stride_at _ _ _ H), (collection_get_buffer_at _ _ _ H).
  fields. apply (is_slot_empty_slot _ _ _ _ H Hi).
Qed.

Lemma indexarray_get_at_at h a L i out :
  ia_at h a L -> L_stride L <= length out ->
  indexarray_get_at (Some a) i (Some out) h
  = Some (if (L_cap L <=? i) || all_zero (L_slot L i)
          then (ERR, Some out)
          else (OK, Some (L_slot L i ++ drop (L_stride L) out)), h).
Proof.
  intros H Hout. unfold indexarray_get_at, bind.
  rewrite (indexarray_capacity_at _ _ _ H).
  destruct (Nat.leb_spec (L_cap L) i) as [|Hi]; [done|].
  rewrite (load_ia_at _ _ _ H). fields.
  rewrite (collection_get_stride_at _ _ _ H), (collection_get_buffer_at _ _ _ H).
  fields. rewrite (is_slot_empty_slot _ _ _ _ H Hi).
  destruct (all_zero (L_slot L i)); [done|].
  unfold memcpy_to, bind. rewrite decide_True by done.
  rewrite (load_bytes_at _ _ _ _ _ (at_bytes _ _ _ H))
    by apply (ia_at_slot_range _ _ _ _ H Hi).
  reflexivity.
Qed.

Lemma indexarray_get_at_empty h a L i out :
  ia_at h a L -> (L_cap L <=? i) || all_zero (L_slot L i) = true ->
  indexarray_get_at (Some a) i (Some out) h = Some ((ERR, Some out), h).
Proof.
  intros H He. unfold indexarray_get_at, bind.
  rewrite (indexarray_capacity_at _ _ _ H).
  destruct (Nat.leb_spec (L_cap L) i) as [|Hi]; [done|].
  rewrite (load_ia_at _ _ _ H). fields.
  rewrite (collection_get_stride_at _ _ _ H), (collection_get_buffer_at _ _ _ H).
  fields. rewrite (is_slot_empty_slot _ _ _ _ H Hi).
  cbn [orb] in He. by rewrite He.
Qed.

(** ** Updates keep the invariant *)

Lemma ia_at_cells_distinct h a L :
  ia_at h a L -> a <> L_coll L /\ a <> L_blk L /\ L_coll L <> L_blk L.
Proof.
  intros [Ha Hc Hb _ _ _ _].
  repeat split; intros E; rewrite E in *; congruence.
Qed.

Lemma ia_at_set_bytes h a L bs :
  ia_at h a L -> length bs = length (L_bytes L) ->
  ia_at (set_cell (L_blk L) (CBytes bs) h) a (L_set_bytes L bs).
Proof.
  intros H Hlen. destruct (ia_at_cells_distinct _ _ _ H) as (?&?&?).
  destruct H as [Ha Hc Hb Hst Hlo Hhi Hsz].
  constructor; fields; rewrite ?Hlen; try done.
  - by rewrite cells_set_cell_ne.
  - by rewrite cells_set_cell_ne.
  - apply cells_set_cell_eq. by eapply lookup_lt_Some.
Qed.

Lemma ia_at_set_next h a L n :
  ia_at h a L ->
  ia_at (set_cell a (CIndexArray (L_ia (L_set_next L n))) h) a (L_set_next L n).
Proof.
  intros H. destruct (ia_at_cells_distinct _ _ _ H) as (?&?&?).
  destruct H as [Ha Hc Hb Hst Hlo Hhi Hsz].
  constructor; fields; try done.
  - apply cells_set_cell_eq. by eapply lookup_lt_Some.
  - by rewrite cells_set_cell_ne.
  - by rewrite cells_set_cell_ne.
Qed.

Lemma ia_at_update h a L bs n :
  ia_at h a L -> length bs = length (L_bytes L) ->
  ia_at (h_update h a (L_set_next (L_set_bytes L bs) n)) a
        (L_set_next (L_set_bytes L bs) n).
Proof.
  intros H Hlen. unfold h_update.
  apply (ia_at_set_next (set_cell (L_blk L) (CBytes bs) h) a (L_set_bytes L bs) n).
  by apply ia_at_set_bytes.
Qed.

Lemma store_ia_at h a L s :
  ia_at h a L -> store_ia a s h = Some (tt, set_cell a (CIndexArray s) h).
Proof.
  intros H. unfold store_ia, store_struct. by rewrite (at_ia _ _ _ H).
Qed.

Lemma ia_at_alloc h a L c n :
  ia_at h a L ->
  ia_at {| cells := cells h ++ [c]; avail := n; junk := junk h |} a L.
Proof.
  intros [Ha Hc Hb Hst Hlo Hhi Hsz].
  constructor; try done; simpl; by apply lookup_app_l_Some.
Qed.

(** ** Slots of an updated bucket *)

Lemma L_slot_write_same h a L i v :
  ia_at h a L -> i < L_cap L -> length v = L_stride L ->
  L_slot (L_write L i v) i = v.
Proof.
  intros H Hi Hv. pose proof (ia_at_slot_range _ _ _ _ H Hi).
  unfold L_slot. fields. rewrite <- Hv.
  apply take_drop_inserts_same. lia.
Qed.

Lemma L_slot_write_other L i j v :
  i <> j -> length v = L_stride L ->
  L_slot (L_write L i v) j = L_slot L j.
Proof.
  intros Hij Hv. unfold L_slot. fields.
  apply take_drop_inserts_other. rewrite Hv.
  destruct (Nat.lt_total i j) as [Hlt|[->|Hlt]]; [right|done|left]; nia.
Qed.

Lemma L_slot_set_next L n i : L_slot (L_set_next L n) i = L_slot L i.
Proof. reflexivity. Qed.

(** ** remove_at *)

Lemma indexarray_remove_at_at h a L i :
  ia_at h a L ->
  indexarray_remove_at (Some a) i h
  = Some (if L_cap L <=? i then (ERR, h)
          else (OK, set_cell (L_blk L)
                      (CBytes (L_bytes (L_write L i (replicate (L_stride L) x00)))) h)).
Proof.
  intros H. unfold indexarray_remove_at, bind.
  rewrite (indexarray_capacity_at _ _ _ H).
  destruct (Nat.leb_spec (L_cap L) i) as [|Hi]; [done|].
  rewrite (load_ia_at _ _ _ H). fields.
  rewrite (collection_get_stride_at _ _ _ H), (collection_get_buffer_at _ _ _ H).
  fields. unfold zero_slot, memset_zero.
  rewrite (store_bytes_at _ _ _ _ _ (at_bytes _ _ _ H)); [done|].
  rewrite length_replicate. apply (ia_at_slot_range _ _ _ _ H Hi).
Qed.

Lemma ia_at_remove h a L i :
  ia_at h a L ->
  ia_at (set_cell (L_blk L)
           (CBytes (L_bytes (L_write L i (replicate (L_stride L) x00)))) h)
        a (L_write L i (replicate (L_stride L) x00)).
Proof.
  intros H. apply (ia_at_set_bytes _ _ _ _ H). fields. apply length_inserts.
Qed.

(** ** The scan of add *)

Lemma scan_first_lt L cap n i idx :
  0 < cap -> scan_first L cap n i = Some idx -> idx < cap.
Proof.
  intros Hcap. revert i. induction n as [|n IH]; intros i; simpl; [done|].
  destruct (all_zero _); [|by apply IH].
  intros [= <-]. by apply Nat.mod_upper_bound, Nat.neq_0_lt_0.
Qed.

Lemma scan_first_empty L cap n i idx :
  scan_first L cap n i = Some idx -> all_zero (L_slot L idx) = true.
Proof.
  revert i. induction n as [|n IH]; intros i; simpl; [done|].
  destruct (all_zero (L_slot L ((L_next L + i) mod cap))) eqn:E; [|by apply IH].
  by intros [= <-].
Qed.

Lemma indexarray_add_scan_at h a L v n i :
  ia_at h a L -> L_stride L <= length v -> 0 < L_cap L ->
  indexarray_add_scan a v (Some (Ptr (L_blk L) (L_off L))) (L_stride L) (L_cap L) n i h
  = match scan_first L (L_cap L) n i with
    | Some idx => Some (Some (int_of_usize idx), h_update h a (L_found L idx v))
    | None => Some (None, h)
    end.
Proof.
  intros H Hv Hcap. revert i. induction n as [|n IH]; intros i; [done|].
  cbn [indexarray_add_scan scan_first]. unfold bind at 1.
  rewrite (load_ia_at _ _ _ H). fields.
  set (idx := (L_next L + i) mod L_cap L).
  assert (idx < L_cap L) as Hidx by (apply Nat.mod_upper_bound; lia).
  unfold bind at 1. rewrite (is_slot_empty_slot _ _ _ _ H Hidx).
  destruct (all_zero (L_slot L idx)); [|apply IH].
  unfold bind, memcpy_from. rewrite decide_True by done.
  pose proof (ia_at_slot_range _ _ _ _ H Hidx).
  rewrite (store_bytes_at _ _ _ _ _ (at_bytes _ _ _ H))
    by (rewrite length_take; lia).
  erewrite store_ia_at; [reflexivity|].
  apply (ia_at_set_bytes _ _ _ _ H). rewrite length_inserts. done.
Qed.

(** ** collection_grow *)

Lemma L_new_cap_half L :
  L_new_cap L / 2 * 2 = L_new_cap L /\ 0 < L_new_cap L / 2 /\
  (0 < L_cap L -> L_new_cap L / 2 = L_cap L).
Proof.
  unfold L_new_cap. destruct (Nat.eqb_spec (L_cap L) 0) as [->|Hne].
  - cbn. lia.
  - rewrite Nat.div_mul by lia. lia.
Qed.

Lemma L_cap_bytes h a L :
  ia_at h a L -> L_off L + L_stride L * L_cap L <= length (L_bytes L).
Proof.
  intros H. pose proof (at_hi _ _ _ H). pose proof (at_lo _ _ _ H).
  pose proof (Nat.Div0.mul_div_le (L_end L - L_off L) (L_stride L)).
  unfold L_cap. lia.
Qed.

Lemma length_grown_bytes h L :
  length (grown_bytes h L) = L_stride L * L_new_cap L.
Proof.
  unfold grown_bytes, junk_block.
  by rewrite length_inserts, length_map, length_seq.
Qed.

Lemma collection_grow_fail h a L :
  ia_at h a L -> ~ alloc_ok h (L_stride L * L_new_cap L) ->
  collection_grow (Some (L_coll L)) h = Some (ERR, h).
Proof.
  intros H Hno. unfold collection_grow, bind at 1. unfold load_coll at 1.
  rewrite (at_coll _ _ _ H). fields.
  unfold bind at 1, ptr_diff. fields. rewrite Nat.eqb_refl. unfold ret at 1.
  pose proof (at_stride _ _ _ H) as Hst.
  destruct (Nat.eqb_spec (L_stride L) 0) as [|_]; [lia|].
  rewrite usize_of_ptrdiff_small;
    [| apply (at_lo _ _ _ H)
     | pose proof (at_hi _ _ _ H); pose proof (at_size _ _ _ H); lia].
  fold (L_cap L). fold (L_new_cap L).
  unfold bind, Allocator_alloc. by rewrite decide_False.
Qed.

Lemma collection_grow_at h a L :
  ia_at h a L -> L_off L = 0 -> alloc_ok h (L_stride L * L_new_cap L) ->
  collection_grow (Some (L_coll L)) h = Some (OK, h_grown h L).
Proof.
  intros H Ho Hok. unfold collection_grow, bind at 1. unfold load_coll at 1.
  rewrite (at_coll _ _ _ H). fields.
  unfold bind at 1, ptr_diff. fields. rewrite Nat.eqb_refl. unfold ret at 1.
  pose proof (at_stride _ _ _ H) as Hst.
  destruct (Nat.eqb_spec (L_stride L) 0) as [|_]; [lia|].
  rewrite usize_of_ptrdiff_small;
    [| apply (at_lo _ _ _ H)
     | pose proof (at_hi _ _ _ H); pose proof (at_size _ _ _ H); lia].
  fold (L_cap L). fold (L_new_cap L).
  destruct (ia_at_cells_distinct _ _ _ H) as (Hac & Hab & Hcb).
  pose proof (lookup_lt_Some _ _ _ (at_coll _ _ _ H)) as Hc_lt.
  pose proof (lookup_lt_Some _ _ _ (at_bytes _ _ _ H)) as Hb_lt.
  pose proof (L_cap_bytes _ _ _ H) as Hcapb.
  pose proof (L_new_cap_half L) as (Hhalf & Hhpos & _).
  assert (L_cap L <= L_new_cap L) as Hle.
  { unfold L_new_cap. destruct (Nat.eqb_spec (L_cap L) 0); lia. }
  set (nb := length (cells h)).
  set (n := L_stride L * L_new_cap L) in *.
  set (jb := junk_block h nb n).
  unfold bind at 1, Allocator_alloc. rewrite decide_True by done.
  cbv zeta. fold nb. fold jb.
  set (h1 := {| cells := cells h ++ [CBytes jb]; avail := avail h - n;
                junk := junk h |}).
  assert (cells h1 !! L_blk L = Some (CBytes (L_bytes L))) as Hb1.
  { simpl. rewrite lookup_app_l by done. apply (at_bytes _ _ _ H). }
  assert (cells h1 !! L_coll L = Some (CColl (L_collection L))) as Hc1.
  { simpl. rewrite lookup_app_l by done. apply (at_coll _ _ _ H). }
  assert (cells h1 !! nb = Some (CBytes jb)) as Hnb1.
  { simpl. by apply list_lookup_middle. }
  assert (length jb = n) as Hjb.
  { unfold jb, junk_block. by rewrite length_map, length_seq. }
  unfold bind at 1, memcpy, bind at 1.
  rewrite (load_bytes_at _ _ _ _ _ Hb1) by lia.
  rewrite (store_bytes_at _ _ _ _ _ Hnb1)
    by (rewrite length_take, length_drop, Hjb; unfold n; nia).
  unfold bind at 1, Allocator_dispose. fields.
  rewrite cells_set_cell_ne by lia. rewrite Hb1, Ho. cbn [Nat.eqb].
  unfold bind at 1, store_coll, store_struct.
  cbn [cells set_cell].
  rewrite list_lookup_insert_ne by done.
  rewrite list_lookup_insert_ne by lia.
  rewrite Hc1. cbn [cell_size]. rewrite Nat.eqb_refl.
  subst h1. unfold ret, h_grown, set_cell, grown_bytes.
  cbn [cells avail junk cell_size].
  fold nb. fold n. fold jb. rewrite Ho. reflexivity.
Qed.

Lemma ia_at_grown h a L :
  ia_at h a L -> alloc_ok h (L_stride L * L_new_cap L) ->
  ia_at (h_grown h L) a (L_grown h L).
Proof.
  intros H [_ Hsz].
  destruct (ia_at_cells_distinct _ _ _ H) as (Hac & Hab & Hcb).
  pose proof (lookup_lt_Some _ _ _ (at_ia _ _ _ H)) as Ha_lt.
  pose proof (lookup_lt_Some _ _ _ (at_coll _ _ _ H)) as Hc_lt.
  pose proof (lookup_lt_Some _ _ _ (at_bytes _ _ _ H)) as Hb_lt.
  constructor; fields; unfold h_grown; cbn [cells].
  - rewrite !list_lookup_insert_ne by lia.
    rewrite lookup_app_l by done. apply (at_ia _ _ _ H).
  - rewrite list_lookup_insert_eq; [done|].
    rewrite !length_insert, length_app. lia.
  - rewrite list_lookup_insert_ne by lia.
    rewrite list_lookup_insert_ne by lia.
    rewrite list_lookup_insert_eq; [done|].
    rewrite length_app. simpl. lia.
  - apply (at_stride _ _ _ H).
  - lia.
  - by rewrite length_grown_bytes.
  - by rewrite length_grown_bytes.
Qed.

Lemma h_grown_released h a L :
  ia_at h a L -> cells (h_grown h L) !! L_blk L = Some CFreed.
Proof.
  intros H. destruct (ia_at_cells_distinct _ _ _ H) as (Hac & Hab & Hcb).
  pose proof (lookup_lt_Some _ _ _ (at_bytes _ _ _ H)) as Hb_lt.
  unfold h_grown. cbn [cells].
  rewrite list_lookup_insert_ne by done.
  rewrite list_lookup_insert_eq; [done|].
  rewrite length_insert, length_app. lia.
Qed.

Lemma L_cap_grown h L : 0 < L_stride L -> L_cap (L_grown h L) = L_new_cap L.
Proof.
  intros Hst. unfold L_cap. fields. rewrite Nat.sub_0_r.
  rewrite Nat.mul_comm. apply Nat.div_mul. lia.
Qed.

(** ** add *)

Lemma indexarray_add_scan_full h a L v :
  ia_at h a L -> L_stride L <= length v ->
  indexarray_add_scan a v (Some (Ptr (L_blk L) (L_off L))) (L_stride L)
    (L_cap L) (L_cap L) 0 h
  = match scan_first L (L_cap L) (L_cap L) 0 with
    | Some idx => Some (Some (int_of_usize idx), h_update h a (L_found L idx v))
    | None => Some (None, h)
    end.
Proof.
  intros H Hv. destruct (Nat.eq_dec (L_cap L) 0) as [E|E].
  - rewrite E. reflexivity.
  - apply indexarray_add_scan_at; [done..|lia].
Qed.

Lemma indexarray_add_prefix h a L v :
  ia_at h a L -> L_stride L <= length v ->
  indexarray_add (Some a) (Some v) h
  = match scan_first L (L_cap L) (L_cap L) 0 with
    | Some idx => Some (int_of_usize idx, h_update h a (L_found L idx v))
    | None =>
        (let* g := collection_grow (Some (L_coll L)) in
         if negb (g =? OK)%Z then ret ERR else
         let* buffer := collection_get_buffer (Some (L_coll L)) in
         let* capacity := indexarray_capacity (Some a) in
         let new_space := ptr_add buffer ((capacity / 2) * L_stride L) in
         memset_zero new_space ((capacity / 2) * L_stride L) ;;
         let slot := ptr_add buffer ((capacity / 2) * L_stride L) in
         memcpy_from slot v (L_stride L) ;;
         let* s := load_ia a in
         store_ia a {| ia_coll := ia_coll s;
                       ia_next_slot := capacity / 2 + 1 |} ;;
         ret (int_of_usize (capacity / 2))) h
    end.
Proof.
  intros H Hv. unfold indexarray_add. unfold bind at 1.
  rewrite (load_ia_at _ _ _ H). fields.
  unfold bind at 1. rewrite (collection_get_stride_at _ _ _ H).
  unfold bind at 1. rewrite (indexarray_capacity_at _ _ _ H).
  unfold bind at 1. rewrite (collection_get_buffer_at _ _ _ H).
  unfold bind at 1. rewrite (indexarray_add_scan_full _ _ _ _ H Hv).
  destruct (scan_first L (L_cap L) (L_cap L) 0); reflexivity.
Qed.

Lemma indexarray_add_found h a L v idx :
  ia_at h a L -> L_stride L <= length v ->
  scan_first L (L_cap L) (L_cap L) 0 = Some idx ->
  indexarray_add (Some a) (Some v) h
  = Some (int_of_usize idx, h_update h a (L_found L idx v)).
Proof.
  intros H Hv Hs. rewrite (indexarray_add_prefix _ _ _ _ H Hv). by rewrite Hs.
Qed.

Lemma ia_at_found h a L v idx :
  ia_at h a L -> ia_at (h_update h a (L_found L idx v)) a (L_found L idx v).
Proof.
  intros H. unfold L_found, L_write. apply (ia_at_update _ _ _ _ _ H).
  apply length_inserts.
Qed.

Lemma indexarray_add_fail h a L v :
  ia_at h a L -> L_stride L <= length v ->
  scan_first L (L_cap L) (L_cap L) 0 = None ->
  ~ alloc_ok h (L_stride L * L_new_cap L) ->
  indexarray_add (Some a) (Some v) h = Some (ERR, h).
Proof.
  intros H Hv Hs Hno. rewrite (indexarray_add_prefix _ _ _ _ H Hv), Hs.
  unfold bind at 1. by rewrite (collection_grow_fail _ _ _ H Hno).
Qed.

Lemma indexarray_add_grow h a L v :
  ia_at h a L -> L_stride L <= length v ->
  scan_first L (L_cap L) (L_cap L) 0 = None ->
  L_off L = 0 -> alloc_ok h (L_stride L * L_new_cap L) ->
  exists h',
    indexarray_add (Some a) (Some v) h
    = Some (int_of_usize (L_new_cap L / 2), h')
    /\ ia_at h' a (L_add_grown h L v)
    /\ cells h' !! L_blk L = Some CFreed.
Proof.
  intros H Hv Hs Ho Hok. rewrite (indexarray_add_prefix _ _ _ _ H Hv), Hs.
  pose proof (at_stride _ _ _ H) as Hst.
  pose proof (L_new_cap_half L) as (Hhalf & Hhpos & _).
  set (half := L_new_cap L / 2) in *.
  unfold bind at 1. rewrite (collection_grow_at _ _ _ H Ho Hok).
  cbn [Z.eqb OK negb].
  pose proof (ia_at_grown _ _ _ H Hok) as Hg.
  pose proof (h_grown_released _ _ _ H) as Hrel.
  destruct (ia_at_cells_distinct _ _ _ H) as (Hac & Hab & Hcb).
  pose proof (lookup_lt_Some _ _ _ (at_bytes _ _ _ H)) as Hb_lt.
  set (hg := h_grown h L) in *. set (Lg := L_grown h L) in *.
  assert (L_stride Lg = L_stride L) as EstG by reflexivity.
  assert (L_blk Lg = length (cells h)) as EblkG by reflexivity.
  assert (length (L_bytes Lg) = L_stride L * L_new_cap L) as HlenG
    by apply length_grown_bytes.
  unfold bind at 1.
  rewrite (collection_get_buffer_at _ _ _ Hg : collection_get_buffer (Some (L_coll L)) hg = _).
  unfold bind at 1. rewrite (indexarray_capacity_at _ _ _ Hg).
  rewrite (L_cap_grown h L Hst : L_cap Lg = _). fold half.
  (* zero the new space *)
  set (L1 := L_write Lg half (replicate (half * L_stride L) x00)).
  set (h1 := set_cell (L_blk Lg) (CBytes (L_bytes L1)) hg).
  assert (ia_at h1 a L1) as H1.
  { apply (ia_at_set_bytes _ _ _ _ Hg). apply length_inserts. }
  assert (memset_zero (Some (Ptr (L_blk Lg) (L_off Lg + half * L_stride L)))
            (half * L_stride L) hg = Some (tt, h1)) as Ezero.
  { apply (store_bytes_at hg _ _ _ _ (at_bytes _ _ _ Hg)).
    rewrite length_replicate, HlenG. change (L_off Lg) with 0. nia. }
  unfold bind at 1. cbn [ptr_add blk off]. rewrite Ezero.
  (* store the value *)
  set (L2 := L_write L1 half (take (L_stride L) v)).
  set (h2 := set_cell (L_blk L1) (CBytes (L_bytes L2)) h1).
  assert (ia_at h2 a L2) as H2.
  { apply (ia_at_set_bytes _ _ _ _ H1). apply length_inserts. }
  assert (memcpy_from (Some (Ptr (L_blk Lg) (L_off Lg + half * L_stride L))) v
            (L_stride L) h1 = Some (tt, h2)) as Ecopy.
  { unfold memcpy_from. rewrite decide_True by done.
    apply (store_bytes_at h1 (L_blk L1) _ (L_bytes L1) _ (at_bytes _ _ _ H1)).
    rewrite length_take. unfold L1, L_write. fields.
    rewrite length_inserts, HlenG. change (L_off Lg) with 0. nia. }
  unfold bind at 1. rewrite Ecopy.
  (* the hint *)
  unfold bind at 1. rewrite (load_ia_at _ _ _ H2).
  unfold bind at 1. rewrite (store_ia_at _ _ _ _ H2).
  eexists. split; [reflexivity|]. split.
  - apply (ia_at_set_next _ _ L2 (half + 1) H2).
  - rewrite cells_set_cell_ne by done. unfold h2, h1.
    rewrite !cells_set_cell_ne
      by (change (L_blk L1) with (length (cells h));
          change (L_blk Lg) with (length (cells h)); lia).
    exact Hrel.
Qed.

(** ** The order in which add looks at slots *)

Lemma scan_distance_lt hint cap k : 0 < cap -> scan_distance hint cap k < cap.
Proof. intros. apply Nat.mod_upper_bound. lia. Qed.

Lemma circ_index hint cap k :
  0 < cap -> k < cap -> (hint + scan_distance hint cap k) mod cap = k.
Proof.
  intros Hcap Hk. unfold scan_distance.
  pose proof (Nat.mod_upper_bound hint cap ltac:(lia)) as Hr.
  rewrite <- Nat.Div0.add_mod_idemp_l, Nat.Div0.add_mod_idemp_r.
  replace (hint mod cap + (k + cap - hint mod cap)) with (k + 1 * cap) by lia.
  rewrite Nat.Div0.mod_add. by apply Nat.mod_small.
Qed.

Lemma scan_distance_circ hint cap d :
  d < cap -> scan_distance hint cap ((hint + d) mod cap) = d.
Proof.
  intros Hd. unfold scan_distance.
  pose proof (Nat.mod_upper_bound hint cap ltac:(lia)) as Hr.
  rewrite <- (Nat.Div0.add_mod_idemp_l hint d cap).
  destruct (le_lt_dec cap (hint mod cap + d)) as [Hge|Hlt].
  - replace (hint mod cap + d) with ((hint mod cap + d - cap) + 1 * cap) by lia.
    rewrite Nat.Div0.mod_add, (Nat.mod_small (hint mod cap + d - cap)) by lia.
    replace (hint mod cap + d - cap + cap - hint mod cap) with d by lia.
    by apply Nat.mod_small.
  - rewrite (Nat.mod_small (hint mod cap + d)) by lia.
    replace (hint mod cap + d + cap - hint mod cap) with (d + 1 * cap) by lia.
    rewrite Nat.Div0.mod_add. by apply Nat.mod_small.
Qed.

Lemma scan_first_None L cap n i :
  scan_first L cap n i = None ->
  forall j, i <= j < i + n ->
    all_zero (L_slot L ((L_next L + j) mod cap)) = false.
Proof.
  revert i. induction n as [|n IH]; intros i Hs j Hj; [lia|].
  simpl in Hs.
  destruct (all_zero (L_slot L ((L_next L + i) mod cap))) eqn:E; [done|].
  destruct (Nat.eq_dec i j) as [<-|]; [done|].
  apply (IH (S i)); [done|lia].
Qed.

Lemma scan_first_None_all L cap :
  scan_first L cap cap 0 = None ->
  forall k, k < cap -> all_zero (L_slot L k) = false.
Proof.
  intros Hs k Hk.
  rewrite <- (circ_index (L_next L) cap k) by lia.
  apply (scan_first_None _ _ _ _ Hs).
  pose proof (scan_distance_lt (L_next L) cap k). lia.
Qed.

Lemma scan_first_all_None L cap n i :
  n <= cap ->
  (forall k, k < cap -> all_zero (L_slot L k) = false) ->
  scan_first L cap n i = None.
Proof.
  intros Hn Hall. revert i. induction n as [|n IH]; intros i; [done|].
  simpl. rewrite Hall by (apply Nat.mod_upper_bound; lia). apply IH. lia.
Qed.

Lemma scan_first_skip L cap n i d :
  0 < cap -> d < n ->
  (forall j, j < d -> all_zero (L_slot L ((L_next L + (i + j)) mod cap)) = false) ->
  all_zero (L_slot L ((L_next L + (i + d)) mod cap)) = true ->
  scan_first L cap n i = Some ((L_next L + (i + d)) mod cap).
Proof.
  intros Hcap. revert n i. induction d as [|d IH]; intros n i Hd Hocc Hemp.
  - destruct n as [|n]; [lia|]. simpl. rewrite Nat.add_0_r in Hemp.
    rewrite Hemp. by rewrite Nat.add_0_r.
  - destruct n as [|n]; [lia|]. simpl.
    pose proof (Hocc 0 ltac:(lia)) as H0. rewrite Nat.add_0_r in H0. rewrite H0.
    replace (i + S d) with (S i + d) in * by lia.
    apply IH; [lia| |done].
    intros j Hj. replace (S i + j) with (i + S j) by lia. apply Hocc. lia.
Qed.

Lemma scan_first_Some_exists L cap k :
  k < cap -> all_zero (L_slot L k) = true ->
  exists idx, scan_first L cap cap 0 = Some idx.
Proof.
  intros Hk Hz. destruct (scan_first L cap cap 0) as [idx|] eqn:E; [by eexists|].
  pose proof (scan_first_None_all _ _ E k Hk). congruence.
Qed.

(** ** Slots after growth *)

Lemma L_add_grown_cap h L v :
  0 < L_stride L -> L_cap (L_add_grown h L v) = L_new_cap L.
Proof. apply L_cap_grown. Qed.

Lemma L_add_grown_next h L v :
  L_next (L_add_grown h L v) = L_new_cap L / 2 + 1.
Proof. reflexivity. Qed.

Lemma grown_bytes_lookup h a L x :
  ia_at h a L -> x < L_stride L * L_cap L ->
  grown_bytes h L !! x = L_bytes L !! (L_off L + x).
Proof.
  intros H Hx. pose proof (L_cap_bytes _ _ _ H) as Hb.
  assert (L_cap L <= L_new_cap L) as Hle.
  { unfold L_new_cap. destruct (Nat.eqb_spec (L_cap L) 0); lia. }
  unfold grown_bytes, junk_block.
  rewrite list_lookup_inserts.
  - rewrite Nat.sub_0_r, lookup_take_lt by done. apply lookup_drop.
  - rewrite length_take, length_drop. lia.
  - rewrite length_map, length_seq. nia.
Qed.

Lemma L_add_grown_slot_old h a L v j :
  ia_at h a L -> j < L_cap L ->
  L_slot (L_add_grown h L v) j = L_slot L j.
Proof.
  intros H Hj. pose proof (L_new_cap_half L) as (Hhalf & Hhpos & Hcap).
  specialize (Hcap ltac:(lia)).
  pose proof (at_stride _ _ _ H) as Hst.
  unfold L_add_grown, L_slot. fields. rewrite Hcap.
  rewrite !take_drop_inserts_other by (left; nia).
  apply list_eq. intros i. rewrite !lookup_take.
  case_decide; [|done]. rewrite !lookup_drop.
  rewrite (grown_bytes_lookup _ _ _ _ H) by nia.
  f_equal. lia.
Qed.

Lemma L_add_grown_slot_new h L v :
  0 < L_stride L -> length v = L_stride L ->
  L_slot (L_add_grown h L v) (L_new_cap L / 2) = v.
Proof.
  intros Hst Hv. pose proof (L_new_cap_half L) as (Hhalf & Hhpos & _).
  unfold L_add_grown, L_slot. fields.
  rewrite (take_ge v) by lia. rewrite <- Hv at 1.
  apply take_drop_inserts_same.
  rewrite length_inserts, length_grown_bytes. nia.
Qed.

Lemma L_add_grown_slot_zero h L v j :
  0 < L_stride L -> length v = L_stride L ->
  L_new_cap L / 2 < j < L_new_cap L ->
  L_slot (L_add_grown h L v) j = replicate (L_stride L) x00.
Proof.
  intros Hst Hv Hj. pose proof (L_new_cap_half L) as (Hhalf & Hhpos & _).
  unfold L_add_grown, L_slot. fields.
  rewrite take_drop_inserts_other by (right; rewrite length_take; nia).
  apply list_eq. intros i. rewrite lookup_take.
  case_decide as Hi.
  - rewrite lookup_drop, list_lookup_inserts, !lookup_replicate_2;
      rewrite ?length_replicate, ?length_grown_bytes; try done; nia.
  - symmetry. apply lookup_replicate_None. lia.
Qed.

(** ** Reading the observers *)

Lemma ia_hint_at h a L : ia_at h a L -> ia_hint h a = Some (L_next L).
Proof. intros [HL _]%ia_at_layout. unfold ia_hint. by rewrite HL. Qed.

Lemma ia_slot_at h a L i :
  ia_at h a L ->
  ia_slot h a i = if i <? L_cap L then Some (L_slot L i) else None.
Proof. intros [HL _]%ia_at_layout. unfold ia_slot. by rewrite HL. Qed.

Lemma ia_slot_at_lt h a L i :
  ia_at h a L -> i < L_cap L -> ia_slot h a i = Some (L_slot L i).
Proof.
  intros H Hi. rewrite (ia_slot_at _ _ _ _ H).
  by destruct (Nat.ltb_spec i (L_cap L)); [|lia].
Qed.

(** From [ia_wf h a = true] (or [ia_growable]) obtain the layout, and read
    every hypothesis about capacity, stride and hint through it. *)
Ltac ia_intro H L HL :=
  match type of H with
  | ia_wf ?h ?a = true =>
      let E := fresh "E" in
      destruct (ia_wf_at h a H) as (L & E & HL); clear E
  | ia_growable ?h ?a = true =>
      let E := fresh "E" in let O := fresh "Hoff" in
      destruct (ia_growable_at h a H) as (L & E & HL & O); clear E
  end.

Ltac ia_read HL :=
  repeat match goal with
  | E : indexarray_capacity (Some ?a) ?h = Some (_, _) |- _ =>
      rewrite (indexarray_capacity_at h a _ HL) in E; injection E as <-
  | E : indexarray_stride (Some ?a) ?h = Some (_, _) |- _ =>
      rewrite (indexarray_stride_at h a _ HL) in E; injection E as <-
  | E : ia_hint ?h ?a = Some _ |- _ =>
      rewrite (ia_hint_at h a _ HL) in E; injection E as <-
  end.

Lemma alloc_ok_dec h n : {alloc_ok h n} + {~ alloc_ok h n}.
Proof.
  unfold alloc_ok.
  destruct (le_dec n (avail h)); [|right; tauto].
  destruct (Z_lt_dec (Z.of_nat n) (2 ^ 64)); [left|right]; tauto.
Qed.

(** What add does, by cases on the scan and on the allocator. *)
Lemma indexarray_add_cases h a L v :
  ia_at h a L -> L_off L = 0 -> L_stride L <= length v ->
  (exists idx,
      scan_first L (L_cap L) (L_cap L) 0 = Some idx /\ idx < L_cap L
      /\ all_zero (L_slot L idx) = true
      /\ indexarray_add (Some a) (Some v) h
         = Some (int_of_usize idx, h_update h a (L_found L idx v))
      /\ ia_at (h_update h a (L_found L idx v)) a (L_found L idx v))
  \/ (scan_first L (L_cap L) (L_cap L) 0 = None
      /\ ~ alloc_ok h (L_stride L * L_new_cap L)
      /\ indexarray_add (Some a) (Some v) h = Some (ERR, h))
  \/ (scan_first L (L_cap L) (L_cap L) 0 = None
      /\ alloc_ok h (L_stride L * L_new_cap L)
      /\ exists h',
          indexarray_add (Some a) (Some v) h
          = Some (int_of_usize (L_new_cap L / 2), h')
          /\ ia_at h' a (L_add_grown h L v)
          /\ cells h' !! L_blk L = Some CFreed).
Proof.
  intros H Ho Hv.
  destruct (scan_first L (L_cap L) (L_cap L) 0) as [idx|] eqn:Hs.
  - left. exists idx. split; [done|].
    assert (0 < L_cap L) as Hcap.
    { destruct (L_cap L); [discriminate Hs | lia]. }
    split; [by apply (scan_first_lt _ _ _ _ _ Hcap Hs)|].
    split; [by apply (scan_first_empty _ _ _ _ _ Hs)|].
    split; [by apply indexarray_add_found | by apply ia_at_found].
  - destruct (alloc_ok_dec h (L_stride L * L_new_cap L)) as [Hok|Hno].
    + right. right. split; [done|]. split; [done|].
      by apply indexarray_add_grow.
    + right. left. split; [done|]. split; [done|].
      by apply (indexarray_add_fail _ _ L).
Qed.

Lemma L_found_slot_same h a L idx v :
  ia_at h a L -> idx < L_cap L -> length v = L_stride L ->
  L_slot (L_found L idx v) idx = v.
Proof.
  intros H Hi Hv. unfold L_found. rewrite L_slot_set_next.
  rewrite take_ge by lia. by apply (L_slot_write_same _ _ _ _ _ H).
Qed.

Lemma L_found_slot_other L idx j v :
  idx <> j -> length v = L_stride L ->
  L_slot (L_found L idx v) j = L_slot L j.
Proof.
  intros Hj Hv. unfold L_found. rewrite L_slot_set_next.
  rewrite take_ge by lia. by apply L_slot_write_other.
Qed.

(** Whenever an add grows the buffer, the block that held the old bucket
    ends up released, whoever owned it: [collection_grow] does not look at
    [owns_buffer]. *)
Lemma growth_releases_old_bucket h a cap stride b v r h' cap' :
  ia_growable h a = true ->
  indexarray_capacity (Some a) h = Some (cap, h) ->
  indexarray_stride (Some a) h = Some (stride, h) ->
  stride <= length v ->
  ia_bucket_block h a = Some b ->
  indexarray_add (Some a) (Some v) h = Some (r, h') ->
  indexarray_capacity (Some a) h' = Some (cap', h') ->
  cap < cap' ->
  cells h' !! b = Some CFreed.
Proof.
  intros Hg Hcap Hstride Hv Hb Hadd Hcap' Hlt. ia_intro Hg L HL. ia_read HL.
  unfold ia_bucket_block in Hb.
  destruct (ia_at_layout _ _ _ HL) as [EL _]. rewrite EL in Hb.
  injection Hb as <-.
  destruct (indexarray_add_cases h a L v HL Hoff Hv)
    as [(idx & Hs & Hidx & _ & Eadd & H')
       |[(Hs & Hno & Eadd)|(Hs & Hok & h'' & Eadd & H' & Hrel)]];
    rewrite Eadd in Hadd; injection Hadd as <- <-.
  - rewrite (indexarray_capacity_at _ _ _ H') in Hcap'.
    injection Hcap' as <-.
    change (L_cap (L_found L idx v)) with (L_cap L) in Hlt. lia.
  - rewrite (indexarray_capacity_at _ _ _ HL) in Hcap'.
    injection Hcap' as <-. lia.
  - exact Hrel.
Qed.

(** ** clear, and whole runs *)

Lemma indexarray_clear_at h a L :
  ia_at h a L ->
  let L' := L_set_next
              (L_set_bytes L
                 (list_inserts (L_off L)
                    (replicate (L_cap L * L_stride L) x00) (L_bytes L))) 0 in
  indexarray_clear (Some a) h = Some (tt, h_update h a L') /\ ia_at (h_update h a L') a L'.
Proof.
  intros H L'. pose proof (L_cap_bytes _ _ _ H) as Hb.
  assert (ia_at (h_update h a L') a L') as H'.
  { apply (ia_at_update _ _ _ _ _ H). apply length_inserts. }
  split; [|exact H'].
  unfold indexarray_clear. unfold bind at 1.
  rewrite (indexarray_capacity_at _ _ _ H).
  unfold bind at 1. rewrite (load_ia_at _ _ _ H). fields.
  unfold bind at 1. rewrite (collection_get_stride_at _ _ _ H).
  unfold bind at 1. rewrite (collection_get_buffer_at _ _ _ H).
  rewrite bool_decide_eq_true_2 by discriminate.
  unfold bind at 1, memset_zero.
  rewrite (store_bytes_at _ _ _ _ _ (at_bytes _ _ _ H))
    by (rewrite length_replicate; lia).
  set (bs := list_inserts _ _ _) in *.
  assert (ia_at (set_cell (L_blk L) (CBytes bs) h) a (L_set_bytes L bs)) as H1.
  { apply (ia_at_set_bytes _ _ _ _ H). apply length_inserts. }
  unfold bind at 1. rewrite (load_ia_at _ _ _ H1).
  rewrite (store_ia_at _ _ _ _ H1). reflexivity.
Qed.

(** Creating an iterator returns (an iterator or NULL) and leaves the
    container as it is. *)
Lemma indexarray_create_iterator_keeps h a L :
  ia_at h a L ->
  exists r h',
    indexarray_create_iterator (Some a) h = Some (r, h') /\ ia_at h' a L.
Proof.
  intros H. unfold indexarray_create_iterator, sparse_iterator_new.
  unfold bind at 1, Allocator_alloc.
  destruct (decide _) as [Hok|Hno]; [|by exists None, h].
  set (h' := {| cells := _; avail := _; junk := _ |}).
  assert (ia_at h' a L) as H' by (by apply ia_at_alloc).
  cbn [blk]. unfold bind at 1. cbn [sparse_ops sp_capacity indexarray_sparse_ops].
  rewrite (indexarray_capacity_at _ _ _ H').
  unfold bind, store_iter, store_struct.
  assert (cells h' !! length (cells h)
          = Some (CBytes (junk_block h (length (cells h)) sizeof_sparse_iterator_s)))
    as Hnb by (by apply list_lookup_middle).
  rewrite Hnb. unfold junk_block at 1. rewrite length_map, length_seq.
  rewrite Nat.eqb_refl. unfold ret. eexists _, _. split; [reflexivity|].
  pose proof (lookup_lt_Some _ _ _ (at_ia _ _ _ H)).
  pose proof (lookup_lt_Some _ _ _ (at_coll _ _ _ H)).
  pose proof (lookup_lt_Some _ _ _ (at_bytes _ _ _ H)).
  destruct H' as [Ha Hc Hb Hst Hlo Hhi Hsz].
  constructor; try done; rewrite cells_set_cell_ne; try done; lia.
Qed.

Lemma ia_full_at h a L :
  ia_at h a L ->
  ia_full h a <-> scan_first L (L_cap L) (L_cap L) 0 = None.
Proof.
  intros H. split.
  - intros (cap & Hcap & Hfull).
    rewrite (indexarray_capacity_at _ _ _ H) in Hcap. injection Hcap as <-.
    apply scan_first_all_None; [done|]. intros k Hk.
    specialize (Hfull k Hk).
    rewrite (indexarray_is_empty_slot_at _ _ _ _ H) in Hfull.
    injection Hfull as Hfull. by apply orb_false_elim in Hfull as [_ ?].
  - intros Hs. exists (L_cap L).
    split; [apply (indexarray_capacity_at _ _ _ H)|].
    intros i Hi. rewrite (indexarray_is_empty_slot_at _ _ _ _ H).
    rewrite (scan_first_None_all _ _ Hs i Hi).
    by destruct (Nat.leb_spec (L_cap L) i); [lia|].
Qed.

(** One operation on a container whose bucket is an allocator block: it
    returns, the container stays such a container with the same stride, and
    the capacity moves only in a growing add. *)
Lemma run_op_at h a L o :
  ia_at h a L -> L_off L = 0 -> op_ok (L_stride L) o = true ->
  exists h' L',
    run_op a o h = Some (tt, h')
    /\ ia_at h' a L' /\ L_off L' = 0 /\ L_stride L' = L_stride L
    /\ L_cap L <= L_cap L'
    /\ (L_cap L < L_cap L' <->
        (exists v, o = OpAdd (Some v))
        /\ scan_first L (L_cap L) (L_cap L) 0 = None
        /\ alloc_ok h (L_stride L * L_new_cap L)).
Proof.
  intros H Ho Hok.
  assert (forall P : Prop, (L_cap L < L_cap L <-> P) <-> ~ P) as Hirr
    by (intros P; split; [intros [_ HP] p; specialize (HP p); lia
                         | intros HP; split; [lia | done]]).
  destruct o as [[v|]|index [out|]|index|index| | | |]; unfold run_op.
  - (* add *)
    apply Nat.leb_le in Hok.
    destruct (indexarray_add_cases h a L v H Ho Hok)
      as [(idx & Hs & Hidx & _ & Eadd & H')
         |[(Hs & Hno & Eadd)|(Hs & Halloc & h' & Eadd & H' & _)]].
    + exists (h_update h a (L_found L idx v)), (L_found L idx v).
      unfold bind. rewrite Eadd. split; [done|]. split; [done|].
      split; [done|]. split; [done|]. split; [done|].
      change (L_cap (L_found L idx v)) with (L_cap L). apply Hirr.
      intros (_ & Hs' & _). congruence.
    + exists h, L. unfold bind. rewrite Eadd. split; [done|].
      split; [done|]. split; [done|]. split; [done|]. split; [done|].
      apply Hirr. intros (_ & _ & ?). done.
    + exists h', (L_add_grown h L v). unfold bind. rewrite Eadd.
      pose proof (at_stride _ _ _ H) as Hst.
      rewrite (L_add_grown_cap h L v Hst).
      assert (L_cap L < L_new_cap L) as Hlt.
      { unfold L_new_cap. destruct (Nat.eqb_spec (L_cap L) 0); lia. }
      split; [done|]. split; [done|]. split; [done|]. split; [done|].
      split; [lia|]. split; [|done]. intros _. split; [by eexists|done].
  - exists h, L. split; [reflexivity|]. split; [done|]. split; [done|].
    split; [done|]. split; [done|]. apply Hirr. intros ([? ?] & _). discriminate.
  - (* get_at *)
    apply Nat.leb_le in Hok. exists h, L. unfold bind.
    rewrite (indexarray_get_at_at _ _ _ _ _ H Hok).
    split; [done|]. split; [done|]. split; [done|]. split; [done|].
    split; [done|]. apply Hirr. intros ([? ?] & _). discriminate.
  - exists h, L. split; [reflexivity|]. split; [done|]. split; [done|].
    split; [done|]. split; [done|]. apply Hirr. intros ([? ?] & _). discriminate.
  - (* remove_at *)
    unfold bind. rewrite (indexarray_remove_at_at _ _ _ index H).
    destruct (L_cap L <=? index).
    + exists h, L. split; [done|]. split; [done|]. split; [done|].
      split; [done|]. split; [done|]. apply Hirr.
      intros ([? ?] & _). discriminate.
    + eexists _, (L_write L index (replicate (L_stride L) x00)).
      split; [reflexivity|]. split; [apply (ia_at_remove _ _ _ _ H)|].
      split; [done|]. split; [done|]. split; [done|].
      change (L_cap (L_write L index _)) with (L_cap L). apply Hirr.
      intros ([? ?] & _). discriminate.
  - exists h, L. unfold bind.
    rewrite (indexarray_is_empty_slot_at _ _ _ _ H).
    split; [done|]. split; [done|]. split; [done|]. split; [done|].
    split; [done|]. apply Hirr. intros ([? ?] & _). discriminate.
  - exists h, L. unfold bind. rewrite (indexarray_capacity_at _ _ _ H).
    split; [done|]. split; [done|]. split; [done|]. split; [done|].
    split; [done|]. apply Hirr. intros ([? ?] & _). discriminate.
  - exists h, L. unfold bind. rewrite (indexarray_stride_at _ _ _ H).
    split; [done|]. split; [done|]. split; [done|]. split; [done|].
    split; [done|]. apply Hirr. intros ([? ?] & _). discriminate.
  - destruct (indexarray_clear_at _ _ _ H) as [Eclear H'].
    eexists _, _. split; [exact Eclear|]. split; [exact H'|].
    split; [done|]. split; [done|]. split; [done|].
    match goal with |- (_ < L_cap ?X <-> _) => change (L_cap X) with (L_cap L) end.
    apply Hirr. intros ([? ?] & _). discriminate.
  - destruct (indexarray_create_iterator_keeps _ _ _ H) as (r & h' & E & H').
    exists h', L. unfold bind. rewrite E.
    split; [done|]. split; [done|]. split; [done|]. split; [done|].
    split; [done|]. apply Hirr. intros ([? ?] & _). discriminate.
Qed.

Lemma run_ops_at h a L os :
  ia_at h a L -> L_off L = 0 ->
  Forall (fun o => op_ok (L_stride L) o = true) os ->
  exists h' L',
    run_ops a os h = Some (tt, h')
    /\ ia_at h' a L' /\ L_off L' = 0 /\ L_stride L' = L_stride L
    /\ L_cap L <= L_cap L'.
Proof.
  intros H Ho Hok. revert h L H Ho Hok.
  induction os as [|o os IH]; intros h L H Ho Hok.
  - exists h, L. split; [reflexivity|]. split; [done|]. split; [done|].
    split; [done|lia].
  - apply Forall_cons in Hok as [Hok1 Hok].
    destruct (run_op_at h a L o H Ho Hok1)
      as (h1 & L1 & E1 & H1 & Ho1 & Hst1 & Hle1 & _).
    rewrite <- Hst1 in Hok.
    destruct (IH h1 L1 H1 Ho1 Hok) as (h2 & L2 & E2 & H2 & Ho2 & Hst2 & Hle2).
    exists h2, L2. cbn [run_ops]. unfold bind. rewrite E1.
    split; [done|]. split; [done|]. split; [done|]. split; [congruence|lia].
Qed.

(** ** The sparse iterator *)

Lemma set_cell_set_cell h a c c' :
  set_cell a c (set_cell a c' h) = set_cell a c h.
Proof. unfold set_cell. simpl. by rewrite list_insert_insert_eq. Qed.

Lemma ia_at_frame h a L x c c0 :
  ia_at h a L -> cells h !! x = Some (CIter c0) ->
  ia_at (set_cell x (CIter c) h) a L.
Proof.
  intros [Ha Hc Hb Hst Hlo Hhi Hsz] Hx.
  constructor; try done; rewrite cells_set_cell_ne; try done;
    intros ->; congruence.
Qed.

Section iterating.
(** A container at [a] in [h0], and an iterator cell at [it]. *)
Variables (h0 : heap) (a it : nat) (L : layout) (s0 : sparse_iterator_s).
Hypothesis Hia : ia_at h0 a L.
Hypothesis Hit : cells h0 !! it = Some (CIter s0).

Local Abbreviation hi := (h_iter h0 it a L).

Lemma hi_ia_at cur pos : ia_at (hi cur pos) a L.
Proof. unfold h_iter. by eapply ia_at_frame. Qed.

Lemma hi_load cur pos :
  load_iter it (hi cur pos)
  = Some (it_state a (L_cap L) cur pos, hi cur pos).
Proof.
  unfold load_iter, h_iter. rewrite cells_set_cell_eq; [done|].
  by eapply lookup_lt_Some.
Qed.

Lemma hi_store cur pos cur' pos' :
  store_iter it (it_state a (L_cap L) cur' pos') (hi cur pos)
  = Some (tt, hi cur' pos').
Proof.
  unfold store_iter, store_struct, h_iter.
  rewrite cells_set_cell_eq by (by eapply lookup_lt_Some).
  cbn [cell_size]. rewrite Nat.eqb_refl. by rewrite set_cell_set_cell.
Qed.

Lemma hi_is_empty_slot cur pos i :
  i < L_cap L ->
  indexarray_is_empty_slot (Some a) i (hi cur pos)
  = Some (all_zero (L_slot L i), hi cur pos).
Proof.
  intros Hi. rewrite (indexarray_is_empty_slot_at _ _ _ _ (hi_ia_at cur pos)).
  by destruct (Nat.leb_spec (L_cap L) i); [lia|].
Qed.

Lemma sparse_iter_scan_at n : forall cur fuel,
  cur + n = L_cap L -> n <= fuel ->
  sparse_iter_scan it indexarray_sparse_ops fuel (hi cur false)
  = match find_occupied L n cur with
    | Some k => Some (true, hi k true)
    | None => Some (false, hi (L_cap L) false)
    end.
Proof.
  induction n as [|n IH]; intros cur fuel Hcur Hfuel.
  - assert (cur = L_cap L) as -> by lia.
    destruct fuel; cbn [sparse_iter_scan find_occupied]; unfold bind;
      rewrite hi_load; cbn [it_state it_capacity it_current];
      by rewrite Nat.leb_refl.
  - destruct fuel as [|fuel]; [lia|].
    cbn [sparse_iter_scan find_occupied]. unfold bind at 1.
    rewrite hi_load. cbn [it_state it_capacity it_current it_sparse_coll
                           it_ops it_positioned].
    destruct (Nat.leb_spec (L_cap L) cur); [lia|].
    unfold bind at 1. cbn [sp_is_empty_slot indexarray_sparse_ops].
    rewrite hi_is_empty_slot by lia.
    destruct (all_zero (L_slot L cur)); cbn [negb].
    + unfold bind at 1. fold (it_state a (L_cap L) (cur + 1) false).
      rewrite (hi_store cur false (cur + 1) false).
      rewrite Nat.add_1_r. apply IH; lia.
    + unfold bind at 1. fold (it_state a (L_cap L) cur true).
      by rewrite (hi_store cur false cur true).
Qed.

Lemma find_occupied_range n : forall cur k,
  find_occupied L n cur = Some k -> cur <= k < cur + n.
Proof.
  induction n as [|n IH]; intros cur k; cbn [find_occupied]; [done|].
  destruct (all_zero (L_slot L cur)).
  - intros Hk%IH. lia.
  - intros [= <-]. lia.
Qed.

Lemma occupied_from_find_None n : forall cur,
  find_occupied L n cur = None -> occupied_from L n cur = [].
Proof.
  induction n as [|n IH]; intros cur; cbn [find_occupied occupied_from];
    [done|].
  destruct (all_zero (L_slot L cur)); [apply IH | done].
Qed.

Lemma occupied_from_find_Some n : forall cur k,
  find_occupied L n cur = Some k ->
  occupied_from L n cur = k :: occupied_from L (cur + n - S k) (S k).
Proof.
  induction n as [|n IH]; intros cur k; cbn [find_occupied occupied_from];
    [done|].
  destruct (all_zero (L_slot L cur)).
  - intros Hk. rewrite (IH _ _ Hk). do 2 f_equal. lia.
  - intros [= <-]. do 2 f_equal. lia.
Qed.

(** One call of next: from an unpositioned cursor, or from a slot the
    iterator is positioned at. *)
Lemma sparse_iter_next_at cur (pos : bool) :
  (if pos then S cur else cur) <= L_cap L ->
  let cur' := if pos then S cur else cur in
  sparse_iter_next (Some it) (hi cur pos)
  = match find_occupied L (L_cap L - cur') cur' with
    | Some k => Some (true, hi k true)
    | None => Some (false, hi (L_cap L) false)
    end.
Proof.
  intros Hle cur'. unfold sparse_iter_next. unfold bind at 1.
  rewrite hi_load. cbn [it_state it_capacity it_current it_sparse_coll
                         it_ops it_positioned].
  unfold bind at 1. destruct pos.
  - fold (it_state a (L_cap L) (cur + 1) false).
    rewrite (hi_store cur true (cur + 1) false). unfold bind at 1.
    rewrite hi_load. cbn [it_state it_capacity it_current sparse_ops].
    rewrite Nat.add_1_r. apply sparse_iter_scan_at; subst cur'; lia.
  - unfold ret at 1. unfold bind at 1.
    rewrite hi_load. cbn [it_state it_capacity it_current sparse_ops].
    apply sparse_iter_scan_at; subst cur'; lia.
Qed.

Lemma sparse_iter_current_index_at cur pos :
  sparse_iter_current_index (Some it) (hi cur pos) = Some (cur, hi cur pos).
Proof.
  unfold sparse_iter_current_index, bind. by rewrite hi_load.
Qed.

(** Driving next until it returns false. *)
Lemma sparse_iter_drain_at fuel : forall cur (pos : bool),
  (if pos then S cur else cur) <= L_cap L ->
  L_cap L - (if pos then S cur else cur) < fuel ->
  let cur' := if pos then S cur else cur in
  sparse_iter_drain (Some it) fuel (hi cur pos)
  = Some (occupied_from L (L_cap L - cur') cur', hi (L_cap L) false).
Proof.
  induction fuel as [|fuel IH]; intros cur pos Hle Hfuel cur'; [lia|].
  cbn [sparse_iter_drain]. unfold bind at 1.
  rewrite (sparse_iter_next_at cur pos Hle). fold cur'.
  destruct (find_occupied L (L_cap L - cur') cur') as [k|] eqn:Hfind.
  - pose proof (find_occupied_range _ _ _ Hfind) as Hk.
    unfold bind at 1. rewrite sparse_iter_current_index_at.
    unfold bind at 1.
    rewrite (IH k true) by (subst cur'; lia).
    rewrite (occupied_from_find_Some _ _ _ Hfind). unfold ret.
    do 4 f_equal. subst cur'. lia.
  - by rewrite (occupied_from_find_None _ _ Hfind).
Qed.

Lemma sparse_iter_reset_at cur pos :
  sparse_iter_reset (Some it) (hi cur pos) = Some (tt, hi 0 false).
Proof.
  unfold sparse_iter_reset, bind. rewrite hi_load.
  apply (hi_store cur pos 0 false).
Qed.
End iterating.

Lemma set_cell_id h x c : cells h !! x = Some c -> set_cell x c h = h.
Proof.
  intros Hx. destruct h as [cs av jk]. unfold set_cell. simpl in *.
  f_equal. apply list_insert_id'. by intros.
Qed.

Lemma occupied_from_elem L n : forall cur i,
  i ∈ occupied_from L n cur
  <-> cur <= i < cur + n /\ all_zero (L_slot L i) = false.
Proof.
  induction n as [|n IH]; intros cur i; cbn [occupied_from].
  - split; [by intros ?%elem_of_nil | lia].
  - destruct (all_zero (L_slot L cur)) eqn:E.
    + rewrite IH. split; [intros [? ?]; split; [lia|done]|].
      intros [? Hz]. split; [|done].
      destruct (Nat.eq_dec i cur) as [->|]; [congruence|lia].
    + rewrite elem_of_cons, IH. split.
      * intros [->|[? ?]]; split; try done; lia.
      * intros [? Hz]. destruct (Nat.eq_dec i cur) as [->|]; [by left|].
        right. split; [lia|done].
Qed.

Lemma occupied_from_sorted L n : forall cur,
  StronglySorted lt (occupied_from L n cur).
Proof.
  induction n as [|n IH]; intros cur; cbn [occupied_from]; [constructor|].
  destruct (all_zero (L_slot L cur)); [apply IH|].
  constructor; [apply IH|].
  apply Forall_forall. intros i Hi%occupied_from_elem. lia.
Qed.

Lemma indexarray_create_iterator_at h a L it h1 :
  ia_at h a L ->
  indexarray_create_iterator (Some a) h = Some (Some it, h1) ->
  ia_at h1 a L
  /\ cells h1 !! it = Some (CIter (it_state a (L_cap L) 0 false)).
Proof.
  intros H. unfold indexarray_create_iterator, sparse_iterator_new.
  unfold bind at 1, Allocator_alloc.
  destruct (decide _) as [Hok|Hno]; [|discriminate].
  set (h' := {| cells := _; avail := _; junk := _ |}).
  assert (ia_at h' a L) as H' by (by apply ia_at_alloc).
  cbn [blk]. unfold bind at 1. cbn [sparse_ops sp_capacity indexarray_sparse_ops].
  rewrite (indexarray_capacity_at _ _ _ H').
  unfold bind, store_iter, store_struct.
  assert (cells h' !! length (cells h)
          = Some (CBytes (junk_block h (length (cells h)) sizeof_sparse_iterator_s)))
    as Hnb by (by apply list_lookup_middle).
  rewrite Hnb. unfold junk_block at 1. rewrite length_map, length_seq.
  rewrite Nat.eqb_refl. unfold ret. intros [= <- <-]. split.
  - pose proof (lookup_lt_Some _ _ _ (at_ia _ _ _ H)).
    pose proof (lookup_lt_Some _ _ _ (at_coll _ _ _ H)).
    pose proof (lookup_lt_Some _ _ _ (at_bytes _ _ _ H)).
    destruct H' as [Ha Hc Hb Hst Hlo Hhi Hsz].
    constructor; try done; rewrite cells_set_cell_ne; try done; lia.
  - apply cells_set_cell_eq. by eapply lookup_lt_Some.
Qed.

(** ** The constructors build well-formed containers *)

Lemma Allocator_alloc_cases h n :
  (alloc_ok h n
   /\ Allocator_alloc n h = Some (Some (Ptr (length (cells h)) 0), h_alloc h n))
  \/ (~ alloc_ok h n /\ Allocator_alloc n h = Some (None, h)).
Proof.
  unfold Allocator_alloc, alloc_ok.
  destruct (decide _) as [Hok|Hno]; [left | right]; by split.
Qed.

Lemma h_alloc_lookup_old h n x c :
  cells h !! x = Some c -> cells (h_alloc h n) !! x = Some c.
Proof. intros Hx. simpl. by apply lookup_app_l_Some. Qed.

Lemma h_alloc_lookup_new h n :
  cells (h_alloc h n) !! length (cells h)
  = Some (CBytes (junk_block h (length (cells h)) n)).
Proof. simpl. by apply list_lookup_middle. Qed.

Lemma h_alloc_length h n : length (cells (h_alloc h n)) = S (length (cells h)).
Proof. simpl. rewrite length_app. simpl. lia. Qed.

Lemma length_junk_block h b n : length (junk_block h b n) = n.
Proof. unfold junk_block. by rewrite length_map, length_seq. Qed.

Lemma inserts_zeros (bs : list byte) :
  list_inserts 0 (replicate (length bs) x00) bs = replicate (length bs) x00.
Proof.
  rewrite <- (app_nil_r bs) at 2.
  rewrite list_inserts_0_r by (by rewrite length_replicate).
  apply app_nil_r.
Qed.

Lemma slot_of_zeros n o st :
  o + st <= n -> take st (drop o (replicate n x00)) = replicate st x00.
Proof.
  intros Hn. rewrite drop_replicate, take_replicate. f_equal. lia.
Qed.

Lemma dispose_then_none {A} p h (x : A) h' (P : Prop) :
  (Allocator_dispose p ;; ret None) h = Some (Some x, h') -> P.
Proof.
  unfold bind. by destruct (Allocator_dispose p h) as [[[] ?]|].
Qed.

Lemma indexarray_new_at capacity stride h a h' :
  indexarray_new capacity stride h = Some (Some a, h') ->
  ia_growable h' a = true
  /\ indexarray_capacity (Some a) h' = Some (capacity, h')
  /\ indexarray_stride (Some a) h' = Some (stride, h')
  /\ ia_hint h' a = Some 0
  /\ forall i, i < capacity -> ia_slot h' a i = Some (replicate stride x00).
Proof.
  unfold indexarray_new.
  destruct (Nat.eqb_spec stride 0) as [|Hst]; [discriminate|].
  unfold bind at 1.
  destruct (Allocator_alloc_cases h sizeof_sc_indexarray)
    as [[_ ->]|[_ ->]]; [|discriminate].
  set (n0 := length (cells h)). set (h1 := h_alloc h sizeof_sc_indexarray).
  cbn [blk]. unfold bind at 1, collection_new, bind at 1.
  unfold array_alloc_struct_with_bucket.
  destruct (Nat.eqb_spec stride 0) as [|_]; [done|].
  unfold bind at 1.
  destruct (Allocator_alloc_cases h1 sizeof_sc_collection) as [[_ ->]|[_ ->]];
    [|by apply dispose_then_none].
  assert (length (cells h1) = S n0) as Hlen1 by apply h_alloc_length.
  rewrite Hlen1. set (h2 := h_alloc h1 sizeof_sc_collection).
  assert (length (cells h2) = S (S n0)) as Hlen2
    by (unfold h2; by rewrite h_alloc_length, Hlen1).
  unfold bind at 1.
  destruct (Allocator_alloc_cases h2 (capacity * stride)) as [[Hok ->]|[_ ->]].
  2:{ unfold bind at 1 2.
      destruct (Allocator_dispose _ h2) as [[[] h2']|]; [|done].
      by apply dispose_then_none. }
  rewrite Hlen2. set (h3 := h_alloc h2 (capacity * stride)).
  set (jb := junk_block h2 (length (cells h2)) (capacity * stride)).
  assert (length jb = capacity * stride) as Hjb by apply length_junk_block.
  assert (cells h3 !! S (S n0) = Some (CBytes jb)) as Hb3.
  { unfold h3, jb. rewrite <- Hlen2. apply h_alloc_lookup_new. }
  (* the two memsets *)
  set (zs := replicate (capacity * stride) x00).
  assert (list_inserts 0 zs jb = zs) as Ez.
  { unfold zs. rewrite <- Hjb. apply inserts_zeros. }
  assert (list_inserts 0 zs zs = zs) as Ezz.
  { pose proof (inserts_zeros zs) as E. unfold zs in E.
    by rewrite length_replicate in E. }
  unfold bind at 1, memset_zero. fold zs.
  rewrite (store_bytes_at _ _ _ _ _ Hb3)
    by (unfold zs; rewrite length_replicate; lia).
  rewrite Ez. set (h4 := set_cell (S (S n0)) (CBytes zs) h3).
  unfold ret at 1. unfold bind at 1, store_coll, store_struct. cbn [blk off].
  assert (cells h4 !! S n0
          = Some (CBytes (junk_block h1 (length (cells h1)) sizeof_sc_collection)))
    as Hc4.
  { unfold h4. rewrite cells_set_cell_ne by lia.
    apply h_alloc_lookup_old. unfold h2. rewrite <- Hlen1.
    apply h_alloc_lookup_new. }
  rewrite Hc4, length_junk_block, Nat.eqb_refl.
  set (k := {| c_handle := _; c_bucket := _; c_end := _; c_stride := _;
               c_length := _; c_owns_buffer := _ |}).
  set (h5 := set_cell (S n0) (CColl k) h4).
  unfold ret at 1. unfold bind at 1, collection_get_buffer, bind at 1, load_coll.
  assert (cells h5 !! S n0 = Some (CColl k)) as Hc5.
  { apply cells_set_cell_eq. by eapply lookup_lt_Some. }
  rewrite Hc5. unfold ret at 1. subst k. cbn [c_bucket].
  rewrite bool_decide_eq_true_2 by discriminate.
  assert (cells h5 !! S (S n0) = Some (CBytes zs)) as Hb5.
  { unfold h5. rewrite cells_set_cell_ne by lia.
    apply cells_set_cell_eq. by eapply lookup_lt_Some. }
  unfold bind at 1, memset_zero. fold zs.
  rewrite (store_bytes_at _ _ _ _ _ Hb5)
    by (unfold zs; rewrite length_replicate; lia).
  rewrite Ezz. set (h6 := set_cell (S (S n0)) (CBytes zs) h5).
  unfold bind at 1, store_ia, store_struct.
  assert (cells h6 !! n0
          = Some (CBytes (junk_block h n0 sizeof_sc_indexarray))) as Ha6.
  { unfold h6, h5, h4. rewrite !cells_set_cell_ne by lia.
    do 2 apply h_alloc_lookup_old. apply h_alloc_lookup_new. }
  rewrite Ha6, length_junk_block, Nat.eqb_refl.
  unfold ret. intros [= <- <-].
  set (L := mk_layout (S n0) 0 (x50, x00) (S (S n0)) 0 (0 + capacity * stride)
              stride 0 true zs).
  assert (ia_at (set_cell n0 (CIndexArray (L_ia L)) h6) n0 L) as HL.
  { assert (n0 < length (cells h6)) as Hn0 by (by eapply lookup_lt_Some).
    assert (length zs = capacity * stride) as Hzs by apply length_replicate.
    unfold L. constructor; fields.
    - by apply cells_set_cell_eq.
    - rewrite cells_set_cell_ne by lia. unfold h6.
      rewrite cells_set_cell_ne by lia. exact Hc5.
    - rewrite cells_set_cell_ne by lia. unfold h6.
      apply cells_set_cell_eq. by eapply lookup_lt_Some.
    - lia.
    - lia.
    - lia.
    - rewrite Hzs. apply Hok. }
  assert (L_cap L = capacity) as Hcap.
  { unfold L_cap, L. fields. rewrite Nat.add_0_l, Nat.sub_0_r.
    apply Nat.div_mul. lia. }
  set (h7 := set_cell n0 (CIndexArray (L_ia L)) h6) in *.
  change (set_cell n0 (CIndexArray _) h6) with h7.
  split; [by apply (ia_at_growable _ _ _ HL)|].
  split; [by rewrite (indexarray_capacity_at _ _ _ HL), Hcap|].
  split; [apply (indexarray_stride_at _ _ _ HL)|].
  split; [apply (ia_hint_at _ _ _ HL)|].
  intros i Hi. rewrite (ia_slot_at_lt _ _ _ _ HL) by lia.
  f_equal. unfold L_slot, L. fields. apply slot_of_zeros. nia.
Qed.

(** ** Further facts about growth *)

(** Growing from capacity 0 is outside C2 as amended: [collection_grow] moves
    to 8 slots, [indexarray_add] takes capacity / 2 = 4 for the old capacity,
    so the handle is 4 and slots 0 to 3 keep what the allocator left there
    (here they read as occupied). *)
Lemma add_at_capacity_zero :
  indexarray_capacity (Some 0) h_new_0_1 = Some (0, h_new_0_1)
  /\ indexarray_add (Some 0) (Some [x01]) h_new_0_1 = Some (4%Z, h_grown_0_1)
  /\ indexarray_capacity (Some 0) h_grown_0_1 = Some (8, h_grown_0_1)
  /\ ia_hint h_grown_0_1 0 = Some 5
  /\ ia_slot h_grown_0_1 0 0 = Some [xaa]
  /\ indexarray_is_empty_slot (Some 0) 0 h_grown_0_1 = Some (false, h_grown_0_1).
Proof.
  split; [run|]. split; [run|]. split; [run|]. split; [run|]. split; run.
Qed.

(** Whatever add does (take a free slot, grow or fail), a slot that get_at
    could read before reads the same afterwards: a handle stays valid until
    it is removed. *)
Lemma add_keeps_occupied_slots h a stride v r h' i out bytes :
  ia_growable h a = true ->
  indexarray_stride (Some a) h = Some (stride, h) ->
  length v = stride -> stride <= length out ->
  indexarray_add (Some a) (Some v) h = Some (r, h') ->
  indexarray_get_at (Some a) i (Some out) h = Some ((OK, Some bytes), h) ->
  indexarray_get_at (Some a) i (Some out) h' = Some ((OK, Some bytes), h').
Proof.
  intros Hg Hstride Hv Hout Hadd Hget. ia_intro Hg L HL. ia_read HL.
  pose proof (at_stride _ _ _ HL) as Hst.
  rewrite (indexarray_get_at_at _ _ _ _ _ HL Hout) in Hget.
  destruct (Nat.leb_spec (L_cap L) i) as [|Hi]; [discriminate|].
  destruct (all_zero (L_slot L i)) eqn:Hz; [discriminate|].
  cbn [orb] in Hget. injection Hget as <-.
  destruct (indexarray_add_cases h a L v HL Hoff ltac:(lia))
    as [(idx & Hs & Hidx & Hemp & Eadd & H')
       |[(Hs & Hno & Eadd)|(Hs & Hok & h'' & Eadd & H' & _)]];
    rewrite Eadd in Hadd; injection Hadd as <- <-.
  - rewrite (indexarray_get_at_at _ _ _ _ _ H') by done.
    change (L_cap (L_found L idx v)) with (L_cap L).
    destruct (Nat.leb_spec (L_cap L) i); [lia|].
    assert (idx <> i) as Hne by (intros ->; congruence).
    by rewrite (L_found_slot_other _ _ _ _ Hne Hv), Hz.
  - rewrite (indexarray_get_at_at _ _ _ _ _ HL) by done.
    destruct (Nat.leb_spec (L_cap L) i); [lia|]. by rewrite Hz.
  - rewrite (indexarray_get_at_at _ _ _ _ _ H') by done.
    rewrite (L_add_grown_cap h L v Hst).
    assert (L_cap L <= L_new_cap L) as Hle.
    { unfold L_new_cap. destruct (Nat.eqb_spec (L_cap L) 0); lia. }
    destruct (Nat.leb_spec (L_new_cap L) i); [lia|].
    by rewrite (L_add_grown_slot_old _ _ _ _ _ HL Hi), Hz.
Qed.

(** A view over a range of a live block is a well-formed container of
    (end - start) / stride slots, whose occupancy is what the range holds. *)
Lemma indexarray_from_buffer_at b o e stride bs h a h' :
  cells h !! b = Some (CBytes bs) ->
  e <= length bs -> (Z.of_nat (length bs) < 2 ^ 64)%Z ->
  indexarray_from_buffer (Some (Ptr b o)) (Some (Ptr b e)) stride h
  = Some (Some a, h') ->
  ia_wf h' a = true
  /\ indexarray_capacity (Some a) h' = Some ((e - o) / stride, h')
  /\ indexarray_stride (Some a) h' = Some (stride, h')
  /\ ia_hint h' a = Some 0
  /\ ia_bucket_block h' a = Some b
  /\ cells h' !! b = Some (CBytes bs)
  /\ forall i, i < (e - o) / stride ->
       ia_slot h' a i = Some (take stride (drop (o + i * stride) bs)).
Proof.
  intros Hb He Hsz. unfold indexarray_from_buffer.
  destruct (Nat.eqb_spec stride 0) as [|Hst]; [discriminate|].
  unfold bind at 1, ptr_ge. cbn [blk off]. rewrite Nat.eqb_refl.
  unfold ret at 1. destruct (Nat.leb_spec e o) as [|Hoe]; [discriminate|].
  unfold bind at 1.
  destruct (Allocator_alloc_cases h sizeof_sc_indexarray)
    as [[_ ->]|[_ ->]]; [|discriminate].
  set (n0 := length (cells h)). set (h1 := h_alloc h sizeof_sc_indexarray).
  assert (length (cells h1) = S n0) as Hlen1 by apply h_alloc_length.
  cbn [blk]. unfold bind at 1.
  destruct (Allocator_alloc_cases h1 sizeof_sc_collection) as [[_ ->]|[_ ->]];
    [|by apply dispose_then_none].
  rewrite Hlen1. set (h2 := h_alloc h1 sizeof_sc_collection). cbn [blk].
  pose proof (lookup_lt_Some _ _ _ Hb) as Hb_lt. fold n0 in Hb_lt.
  assert (cells h2 !! b = Some (CBytes bs)) as Hb2
    by (by do 2 apply h_alloc_lookup_old).
  assert (cells h2 !! S n0
          = Some (CBytes (junk_block h1 (length (cells h1)) sizeof_sc_collection)))
    as Hc2 by (unfold h2; rewrite <- Hlen1; apply h_alloc_lookup_new).
  assert (cells h2 !! n0 = Some (CBytes (junk_block h n0 sizeof_sc_indexarray)))
    as Ha2 by (apply h_alloc_lookup_old, h_alloc_lookup_new).
  unfold bind at 1, store_coll, store_struct.
  rewrite Hc2, length_junk_block, Nat.eqb_refl.
  set (h3 := set_cell (S n0) _ h2).
  unfold bind at 1, store_ia, store_struct.
  assert (cells h3 !! n0 = Some (CBytes (junk_block h n0 sizeof_sc_indexarray)))
    as Ha3 by (unfold h3; by rewrite cells_set_cell_ne by lia).
  rewrite Ha3, length_junk_block, Nat.eqb_refl.
  unfold ret. intros [= <- <-].
  set (L := mk_layout (S n0) 0 (x46, x00) b o e stride 0 false bs).
  set (h4 := set_cell n0 (CIndexArray (L_ia L)) h3).
  change (set_cell n0 (CIndexArray _) h3) with h4.
  assert (ia_at h4 n0 L) as HL.
  { unfold L, h4. constructor; fields.
    - apply cells_set_cell_eq. by eapply lookup_lt_Some.
    - rewrite cells_set_cell_ne by lia. unfold h3.
      apply cells_set_cell_eq. by eapply lookup_lt_Some.
    - rewrite cells_set_cell_ne by lia. unfold h3.
      by rewrite cells_set_cell_ne by lia.
    - lia.
    - lia.
    - done.
    - done. }
  split; [by apply (ia_at_wf _ _ _ HL)|].
  split; [apply (indexarray_capacity_at _ _ _ HL)|].
  split; [apply (indexarray_stride_at _ _ _ HL)|].
  split; [apply (ia_hint_at _ _ _ HL)|].
  destruct (ia_at_layout _ _ _ HL) as [EL _].
  split; [unfold ia_bucket_block; by rewrite EL|].
  split; [apply (at_bytes _ _ _ HL)|].
  intros i Hi. by rewrite (ia_slot_at_lt _ _ _ _ HL).
Qed.

(** Disposing a view releases its two structs and leaves the caller's block
    alone: [collection_dispose] tests [owns_buffer]. *)
Lemma indexarray_dispose_view h a L :
  ia_at h a L -> L_owns L = false ->
  exists h',
    indexarray_dispose (Some a) h = Some (tt, h')
    /\ cells h' !! L_blk L = Some (CBytes (L_bytes L))
    /\ cells h' !! a = Some CFreed
    /\ cells h' !! L_coll L = Some CFreed.
Proof.
  intros H Hown. destruct (ia_at_cells_distinct _ _ _ H) as (Hac & Hab & Hcb).
  pose proof (lookup_lt_Some _ _ _ (at_ia _ _ _ H)) as Ha_lt.
  pose proof (lookup_lt_Some _ _ _ (at_coll _ _ _ H)) as Hc_lt.
  unfold indexarray_dispose. unfold bind at 1.
  rewrite (load_ia_at _ _ _ H). fields.
  unfold bind at 1, collection_dispose, bind at 1, load_coll.
  rewrite (at_coll _ _ _ H). fields. rewrite Hown. cbn [andb].
  unfold bind at 1, ret at 1, Allocator_dispose at 1. cbn [blk off].
  rewrite (at_coll _ _ _ H). cbn [Nat.eqb cell_size].
  unfold Allocator_dispose. cbn [blk off cells].
  rewrite list_lookup_insert_ne by done. rewrite (at_ia _ _ _ H).
  cbn [Nat.eqb cell_size cells avail junk].
  eexists. split; [reflexivity|]. cbn [cells]. split; [|split].
  - rewrite !list_lookup_insert_ne by done. apply (at_bytes _ _ _ H).
  - apply list_lookup_insert_eq. by rewrite length_insert.
  - rewrite list_lookup_insert_ne by done. by apply list_lookup_insert_eq.
Qed.

(** And so along any run of adds, through any number of growths. *)
Lemma adds_keep_occupied_slots h a stride vs h' i out bytes :
  ia_growable h a = true ->
  indexarray_stride (Some a) h = Some (stride, h) ->
  Forall (fun v => length v = stride) vs ->
  stride <= length out ->
  run_ops a (map (fun v => OpAdd (Some v)) vs) h = Some (tt, h') ->
  indexarray_get_at (Some a) i (Some out) h = Some ((OK, Some bytes), h) ->
  indexarray_get_at (Some a) i (Some out) h' = Some ((OK, Some bytes), h').
Proof.
  intros Hg Hstride Hvs Hout. revert h Hg Hstride.
  induction vs as [|v vs IH]; intros h Hg Hstride Hrun Hget.
  - injection Hrun as <-. exact Hget.
  - apply Forall_cons in Hvs as [Hv Hvs].
    cbn [map run_ops] in Hrun. unfold bind at 1 in Hrun.
    destruct (run_op a (OpAdd (Some v)) h) as [[[] h1]|] eqn:E1; [|discriminate].
    assert (exists r, indexarray_add (Some a) (Some v) h = Some (r, h1))
      as [r Eadd].
    { cbn [run_op] in E1. unfold bind in E1.
      destruct (indexarray_add (Some a) (Some v) h) as [[r hx]|];
        [|discriminate].
      injection E1 as <-. by exists r. }
    pose proof (add_keeps_occupied_slots _ _ _ _ _ _ _ _ _
                  Hg Hstride Hv Hout Eadd Hget) as Hget1.
    destruct (ia_growable_at _ _ Hg) as (L & _ & HL & Hoff).
    pose proof Hstride as Hstride'.
    rewrite (indexarray_stride_at _ _ _ HL) in Hstride'.
    injection Hstride' as Est.
    destruct (run_op_at h a L (OpAdd (Some v)) HL Hoff)
      as (h1' & L1 & E1' & H1 & Ho1 & Hst1 & _).
    { cbn [op_ok]. apply Nat.leb_le. lia. }
    rewrite E1 in E1'. injection E1' as <-.
    apply (IH Hvs h1); [by apply (ia_at_growable _ _ _ H1) | | done | done].
    rewrite (indexarray_stride_at _ _ _ H1). by rewrite Hst1, Est.
Qed.

(** Beyond INT_MAX the cast of a slot index to [int] wraps: this is why the
    statements about returned handles bound the capacity. *)
Lemma int_of_usize_wraps :
  int_of_usize (Z.to_nat 2147483648) = (-2147483648)%Z.
Proof. unfold int_of_usize. rewrite Z2Nat.id by lia. reflexivity. Qed.

(** In a view of 2^31 + 1 one-byte records of which only the last is empty,
    add takes slot 2^31 and returns it cast to [int]. *)
Lemma add_in_view_beyond_int_max n :
  Z.of_nat n = 2147483648%Z ->
  indexarray_from_buffer (Some (Ptr 0 0)) (Some (Ptr 0 (S n))) 1
    (h_buffer_last_free n)
  = Some (Some 1, h_view_last_free n)
  /\ indexarray_capacity (Some 1) (h_view_last_free n)
     = Some (S n, h_view_last_free n)
  /\ indexarray_is_empty_slot (Some 1) n (h_view_last_free n)
     = Some (true, h_view_last_free n)
  /\ exists h',
       indexarray_add (Some 1) (Some [x00]) (h_view_last_free n)
       = Some ((-2147483648)%Z, h').
Proof.
  intros Hn.
  set (buf := replicate n x01 ++ [x00]).
  assert (length buf = S n) as Hlen.
  { unfold buf. rewrite length_app, length_replicate. cbn [length]. lia. }
  assert (forall j, j < n -> take 1 (drop (0 + j * 1) buf) = [x01]) as Hocc.
  { intros j Hj. rewrite Nat.add_0_l, Nat.mul_1_r.
    rewrite (drop_S buf x01 j); [done|].
    unfold buf. rewrite lookup_app_l by (rewrite length_replicate; lia).
    by apply lookup_replicate_2. }
  assert (take 1 (drop (0 + n * 1) buf) = [x00]) as Hemp.
  { rewrite Nat.add_0_l, Nat.mul_1_r.
    rewrite (drop_S buf x00 n); [done|].
    unfold buf. rewrite lookup_app_r by (rewrite length_replicate; lia).
    by rewrite length_replicate, Nat.sub_diag. }
  assert (indexarray_from_buffer (Some (Ptr 0 0)) (Some (Ptr 0 (S n))) 1
            (h_buffer_last_free n)
          = Some (Some 1, h_view_last_free n)) as Enew
    by (vm_compute; reflexivity).
  destruct (indexarray_from_buffer_at 0 0 (S n) 1 buf (h_buffer_last_free n)
              _ _ eq_refl ltac:(lia) ltac:(lia) Enew)
    as (Hwf & Hcap & Hst & Hhint & _ & _ & Hslots).
  rewrite Nat.sub_0_r, Nat.div_1_r in Hcap, Hslots.
  ia_intro Hwf L HL.
  pose proof Hcap as Hcap'.
  rewrite (indexarray_capacity_at _ _ _ HL) in Hcap'. injection Hcap' as Ecap.
  rewrite (ia_hint_at _ _ _ HL) in Hhint. injection Hhint as Enext.
  rewrite (indexarray_stride_at _ _ _ HL) in Hst. injection Hst as Est.
  assert (forall i, i < S n -> L_slot L i = take 1 (drop (0 + i * 1) buf))
    as Hslot.
  { intros i Hi. specialize (Hslots i Hi).
    rewrite (ia_slot_at_lt _ _ _ _ HL) in Hslots by lia. by injection Hslots. }
  split; [exact Enew|]. split; [exact Hcap|]. split.
  { rewrite (indexarray_is_empty_slot_at _ _ _ _ HL), Hslot, Hemp by lia.
    by rewrite orb_true_r. }
  eexists.
  rewrite (indexarray_add_found _ _ _ [x00] n HL).
  - f_equal. f_equal. unfold int_of_usize. by rewrite Hn.
  - rewrite Est. cbn [length]. lia.
  - pose proof (scan_first_skip L (L_cap L) (L_cap L) 0 n) as Hskip.
    rewrite Enext, Ecap in Hskip. cbn [Nat.add] in Hskip.
    rewrite Nat.mod_small in Hskip by lia. rewrite Ecap.
    apply Hskip; [lia | lia | |].
    + intros j Hj. rewrite Nat.mod_small by lia.
      by rewrite Hslot, Hocc by lia.
    + by rewrite Hslot, Hemp by lia.
Qed.

(** Every container made by new and then used through its operations is
    well formed, with its bucket an allocator block. *)
Lemma reachable_is_growable capacity stride h0 a h1 os :
  indexarray_new capacity stride h0 = Some (Some a, h1) ->
  Forall (fun o => op_ok stride o = true) os ->
  exists h,
    run_ops a os h1 = Some (tt, h)
    /\ ia_growable h a = true /\ ia_wf h a = true
    /\ indexarray_stride (Some a) h = Some (stride, h).
Proof.
  intros Hnew Hos.
  destruct (indexarray_new_at _ _ _ _ _ Hnew) as (Hg & _ & Hstride & _).
  ia_intro Hg L HL. ia_read HL.
  destruct (run_ops_at h1 a L os HL Hoff Hos)
    as (h & L' & E & H' & Ho' & Hst' & _).
  exists h. split; [done|]. split; [by apply (ia_at_growable _ _ _ H')|].
  split; [by apply (ia_at_wf _ _ _ H')|].
  rewrite <- Hst'. apply (indexarray_stride_at _ _ _ H').
Qed.

(** * The claims *)

(** C1, as stated, fails: add accepts an all-zero value and returns handle
    0, and get_at on that handle reports an empty slot. *)
Lemma round_trip_fails_for_zero_value :
  indexarray_new 2 1 (heap_init 100) = Some (Some 0, h_new_2_1)
  /\ indexarray_add (Some 0) (Some [x00]) h_new_2_1 = Some (0%Z, h_zero_added)
  /\ indexarray_get_at (Some 0) 0 (Some [xff]) h_zero_added
     = Some ((ERR, Some [xff]), h_zero_added).
Proof. split; [run | split; run]. Qed.

(** C1 (amended). On a container whose bucket is an allocator block (every
    container made by new), with at most INT_MAX slots, adding a stride-sized
    value with at least one non-zero byte returns -1 exactly when no slot is
    empty and the allocator refuses the larger buffer, and then leaves the
    store as it was.  In every other case it returns a non-negative handle
    on which get_at succeeds and puts exactly the bytes added into the first
    stride bytes of the out buffer (the rest of the buffer is untouched). *)
Theorem add_get_at_round_trip h a cap stride v out :
  ia_growable h a = true ->
  indexarray_capacity (Some a) h = Some (cap, h) ->
  (Z.of_nat cap <= INT_MAX)%Z ->
  indexarray_stride (Some a) h = Some (stride, h) ->
  length v = stride -> all_zero v = false -> stride <= length out ->
  exists r h',
    indexarray_add (Some a) (Some v) h = Some (r, h')
    /\ (r = ERR <->
        ia_full h a /\ ~ alloc_ok h (stride * grown_capacity cap))
    /\ (r = ERR -> h' = h)
    /\ (r <> ERR ->
        (0 <= r)%Z
        /\ indexarray_get_at (Some a) (Z.to_nat r) (Some out) h'
           = Some ((OK, Some (v ++ drop stride out)), h')).
Proof.
  intros Hg Hcap Hint Hstride Hv Hnz Hout.
  ia_intro Hg L HL. ia_read HL.
  change (grown_capacity (L_cap L)) with (L_new_cap L).
  pose proof (ia_full_at _ _ _ HL) as Hfull.
  destruct (indexarray_add_cases h a L v HL Hoff ltac:(lia))
    as [(idx & Hs & Hidx & _ & Eadd & H')
       |[(Hs & Hno & Eadd)|(Hs & Hok & h' & Eadd & H' & _)]].
  - exists (Z.of_nat idx), (h_update h a (L_found L idx v)).
    rewrite Eadd, int_of_usize_small by lia. split; [done|].
    assert (Z.of_nat idx <> ERR) as Hne by (unfold ERR; lia).
    split; [|split; [done|]].
    { split; [done|]. intros [Hf _]. apply Hfull in Hf. congruence. }
    intros _. split; [lia|]. rewrite Nat2Z.id.
    rewrite (indexarray_get_at_at _ _ _ _ _ H') by (fields; lia).
    change (L_cap (L_found L idx v)) with (L_cap L).
    destruct (Nat.leb_spec (L_cap L) idx); [lia|].
    by rewrite (L_found_slot_same _ _ _ _ _ HL Hidx Hv), Hnz.
  - exists ERR, h. split; [done|]. split; [|split; done].
    split; [|done]. intros _. split; [by apply Hfull | done].
  - pose proof (L_new_cap_half L) as (Hhalf & Hhpos & Hsame).
    pose proof (at_stride _ _ _ HL) as Hst.
    assert (Z.of_nat (L_new_cap L / 2) <= INT_MAX)%Z as Hfit.
    { destruct (Nat.eq_dec (L_cap L) 0) as [E0|E0].
      - unfold L_new_cap. rewrite E0. by vm_compute.
      - rewrite Hsame by lia. done. }
    exists (Z.of_nat (L_new_cap L / 2)), h'.
    rewrite Eadd, int_of_usize_small by done. split; [done|].
    assert (Z.of_nat (L_new_cap L / 2) <> ERR) as Hne by (unfold ERR; lia).
    split; [|split; [done|]].
    { split; [done|]. by intros [_ Hno]. }
    intros _. split; [lia|]. rewrite Nat2Z.id.
    rewrite (indexarray_get_at_at _ _ _ _ _ H') by (fields; lia).
    rewrite (L_add_grown_cap h L v Hst).
    destruct (Nat.leb_spec (L_new_cap L) (L_new_cap L / 2)); [lia|].
    by rewrite (L_add_grown_slot_new h L v Hst Hv), Hnz.
Qed.

Lemma add_get_at_round_trip_witness :
  exists r h',
    indexarray_add (Some 0) (Some [x07; x00]) h_full_3_2 = Some (r, h')
    /\ (r = ERR <->
        ia_full h_full_3_2 0 /\ ~ alloc_ok h_full_3_2 (2 * grown_capacity 3))
    /\ (r = ERR -> h' = h_full_3_2)
    /\ (r <> ERR ->
        (0 <= r)%Z
        /\ indexarray_get_at (Some 0) (Z.to_nat r) (Some [xff; xff; xff]) h'
           = Some ((OK, Some [x07; x00; xff]), h')).
Proof.
  apply (add_get_at_round_trip h_full_3_2 0 3 2 [x07; x00] [xff; xff; xff]);
    [run | run | vm_compute; discriminate | run | run | run | cbn; lia].
Defined.

(** C2, as stated, fails: with the allocator exhausted, add on a full
    container returns -1 and the capacity stays what it was. *)
Lemma add_on_full_container_out_of_memory :
  indexarray_new 1 1 (heap_init 65) = Some (Some 0, h_new_1_1)
  /\ indexarray_add (Some 0) (Some [x01]) h_new_1_1 = Some (0%Z, h_full_1_1)
  /\ indexarray_is_empty_slot (Some 0) 0 h_full_1_1 = Some (false, h_full_1_1)
  /\ indexarray_add (Some 0) (Some [x02]) h_full_1_1 = Some (ERR, h_full_1_1)
  /\ indexarray_capacity (Some 0) h_full_1_1 = Some (1, h_full_1_1).
Proof. split; [run | split; [run | split; [run | split; run]]]. Qed.

(** C2 (amended). On a container of at least one and at most INT_MAX slots,
    all occupied, whose bucket is an allocator block: when the allocator
    grants the doubled buffer, add returns the old capacity as the handle,
    the capacity doubles, the value sits in the slot at the old capacity,
    every slot above it in the new half is zero, the old slots are as they
    were, and the hint is the old capacity plus one; when the allocator
    refuses, add returns -1 and changes nothing. *)
Theorem add_on_full_container_grows h a cap stride v :
  ia_growable h a = true ->
  indexarray_capacity (Some a) h = Some (cap, h) ->
  0 < cap -> (Z.of_nat cap <= INT_MAX)%Z ->
  indexarray_stride (Some a) h = Some (stride, h) ->
  length v = stride ->
  (forall i, i < cap ->
     indexarray_is_empty_slot (Some a) i h = Some (false, h)) ->
  (alloc_ok h (stride * (cap * 2)) ->
   exists h',
     indexarray_add (Some a) (Some v) h = Some (Z.of_nat cap, h')
     /\ ia_growable h' a = true
     /\ indexarray_capacity (Some a) h' = Some (cap * 2, h')
     /\ indexarray_stride (Some a) h' = Some (stride, h')
     /\ ia_slot h' a cap = Some v
     /\ (forall j, cap < j < cap * 2 ->
           ia_slot h' a j = Some (replicate stride x00))
     /\ (forall j, j < cap -> ia_slot h' a j = ia_slot h a j)
     /\ ia_hint h' a = Some (cap + 1))
  /\ (~ alloc_ok h (stride * (cap * 2)) ->
      indexarray_add (Some a) (Some v) h = Some (ERR, h)).
Proof.
  intros Hg Hcap Hpos Hint Hstride Hv Hfull.
  ia_intro Hg L HL. ia_read HL.
  pose proof (at_stride _ _ _ HL) as Hst.
  assert (L_new_cap L = L_cap L * 2) as Hnew.
  { unfold L_new_cap. destruct (Nat.eqb_spec (L_cap L) 0); lia. }
  assert (L_new_cap L / 2 = L_cap L) as Hhalf
    by (apply (L_new_cap_half L); lia).
  assert (scan_first L (L_cap L) (L_cap L) 0 = None) as Hs.
  { apply scan_first_all_None; [done|]. intros k Hk.
    specialize (Hfull k Hk).
    rewrite (indexarray_is_empty_slot_at _ _ _ _ HL) in Hfull.
    injection Hfull as Hfull. by apply orb_false_elim in Hfull as [_ ?]. }
  rewrite <- Hnew. split.
  - intros Hok.
    destruct (indexarray_add_grow h a L v HL ltac:(lia) Hs Hoff Hok)
      as (h' & Eadd & H' & _).
    exists h'. rewrite Eadd, Hhalf, int_of_usize_small by lia.
    split; [done|].
    split; [by apply (ia_at_growable _ _ _ H')|].
    split; [by rewrite (indexarray_capacity_at _ _ _ H'), L_add_grown_cap|].
    split; [apply (indexarray_stride_at _ _ _ H')|].
    split.
    { rewrite (ia_slot_at_lt _ _ _ _ H') by (rewrite L_add_grown_cap; lia).
      by rewrite <- Hhalf at 1; rewrite L_add_grown_slot_new. }
    split.
    { intros j Hj.
      rewrite (ia_slot_at_lt _ _ _ _ H') by (rewrite L_add_grown_cap; lia).
      rewrite L_add_grown_slot_zero; [done..|lia]. }
    split.
    { intros j Hj.
      rewrite (ia_slot_at_lt _ _ _ _ H') by (rewrite L_add_grown_cap; lia).
      rewrite (ia_slot_at_lt _ _ _ _ HL) by done.
      by rewrite (L_add_grown_slot_old _ _ _ _ _ HL Hj). }
    rewrite (ia_hint_at _ _ _ H'), L_add_grown_next. by rewrite Hhalf.
  - intros Hno. apply (indexarray_add_fail _ _ L); [done|lia|done|done].
Qed.

Lemma add_on_full_container_grows_witness :
  exists h',
    indexarray_add (Some 0) (Some [x07; x08]) h_full_3_2 = Some (3%Z, h')
    /\ indexarray_capacity (Some 0) h' = Some (6, h')
    /\ ia_slot h' 0 3 = Some [x07; x08]
    /\ ia_slot h' 0 5 = Some [x00; x00]
    /\ ia_hint h' 0 = Some 4.
Proof.
  destruct (add_on_full_container_grows h_full_3_2 0 3 2 [x07; x08])
    as [Hgrow _];
    [run | run | lia | vm_compute; discriminate | run | run | |].
  { intros i Hi. destruct i as [|[|[|i]]]; [run | run | run | lia]. }
  destruct Hgrow as (h' & Eadd & _ & Ecap & _ & Hnew & Hzero & _ & Hhint).
  { split; [vm_compute; lia | reflexivity]. }
  exists h'.
  split; [exact Eadd|]. split; [exact Ecap|]. split; [exact Hnew|].
  split; [apply (Hzero 5); lia | exact Hhint].
Defined.

(** C3. The claim is right and [collection_grow] breaks it: it hands the old
    bucket to [Allocator.dispose] without looking at [owns_buffer] (which
    [collection_dispose] does test).  A view over a full caller's buffer:
    disposing the view leaves the caller's block alone, but an add that has
    to grow releases it; when the view starts inside the block the release
    itself is undefined. *)
Theorem view_growth_releases_caller_buffer :
  indexarray_from_buffer (Some (Ptr 0 0)) (Some (Ptr 0 2)) 1 h_external
  = Some (Some 1, h_view)
  /\ cells h_view !! 0 = Some (CBytes [x01; x02])
  /\ indexarray_dispose (Some 1) h_view = Some (tt, h_view_disposed)
  /\ cells h_view_disposed !! 0 = Some (CBytes [x01; x02])
  /\ indexarray_add (Some 1) (Some [x03]) h_view = Some (2%Z, h_view_grown)
  /\ cells h_view_grown !! 0 = Some CFreed
  /\ indexarray_from_buffer (Some (Ptr 0 1)) (Some (Ptr 0 2)) 1 h_external
     = Some (Some 1, h_view_inner)
  /\ indexarray_add (Some 1) (Some [x03]) h_view_inner = None.
Proof.
  split; [run|]. split; [run|]. split; [run|]. split; [run|].
  split; [run|]. split; [run|]. split; run.
Qed.



(** C5. On a well-formed container (every container reached from new by
    adds and removes is one, see [reachable_is_growable]), a freshly created
    sparse iterator driven by next until it returns false yields the indices
    of the occupied slots, all of them, in strictly ascending order (so each
    once); it does return false, within capacity + 1 calls, and keeps
    returning false; after reset the same drive yields the same indices. *)
Theorem sparse_iterator_visits_occupied h a cap it h1 :
  ia_wf h a = true ->
  indexarray_capacity (Some a) h = Some (cap, h) ->
  indexarray_create_iterator (Some a) h = Some (Some it, h1) ->
  exists l h2 h3 h4,
    sparse_iter_drain (Some it) (S cap) h1 = Some (l, h2)
    /\ StronglySorted lt l
    /\ (forall i, i ∈ l <->
          i < cap /\ indexarray_is_empty_slot (Some a) i h = Some (false, h))
    /\ sparse_iter_next (Some it) h2 = Some (false, h2)
    /\ sparse_iter_reset (Some it) h2 = Some (tt, h3)
    /\ sparse_iter_drain (Some it) (S cap) h3 = Some (l, h4).
Proof.
  intros Hwf Hcap Hnew. ia_intro Hwf L HL. ia_read HL.
  destruct (indexarray_create_iterator_at _ _ _ _ _ HL Hnew) as [H1 Hit].
  assert (h1 = h_iter h1 it a L 0 false) as Eh1
    by (symmetry; by apply set_cell_id).
  pose proof (sparse_iter_drain_at h1 a it L _ H1 Hit (S (L_cap L)) 0 false)
    as Hdrain.
  cbv zeta in Hdrain. rewrite Nat.sub_0_r, <- Eh1 in Hdrain.
  specialize (Hdrain ltac:(lia) ltac:(lia)).
  pose proof (sparse_iter_next_at h1 a it L _ H1 Hit (L_cap L) false) as Hnext.
  cbv zeta in Hnext. rewrite Nat.sub_diag in Hnext. cbn [find_occupied] in Hnext.
  specialize (Hnext ltac:(lia)).
  pose proof (sparse_iter_reset_at h1 a it L _ Hit (L_cap L) false) as Hreset.
  rewrite <- Eh1 in Hreset.
  exists (occupied_from L (L_cap L) 0), (h_iter h1 it a L (L_cap L) false),
    h1, (h_iter h1 it a L (L_cap L) false).
  split; [exact Hdrain|]. split; [apply occupied_from_sorted|].
  split.
  { intros i. rewrite occupied_from_elem.
    rewrite (indexarray_is_empty_slot_at _ _ _ _ HL). split.
    - intros [Hi Hz]. split; [lia|]. rewrite Hz.
      by destruct (Nat.leb_spec (L_cap L) i); [lia|].
    - intros [Hi [= Hz]]. split; [lia|].
      by apply orb_false_elim in Hz as [_ ?]. }
  split; [exact Hnext|]. split; [exact Hreset | exact Hdrain].
Qed.

Lemma sparse_iterator_visits_occupied_witness :
  exists l h2 h3 h4,
    sparse_iter_drain (Some 4) 7
      (heap_after (indexarray_create_iterator (Some 0)) h_removed_3_2)
    = Some (l, h2)
    /\ StronglySorted lt l
    /\ (forall i, i ∈ l <->
          i < 6 /\ indexarray_is_empty_slot (Some 0) i h_removed_3_2
                   = Some (false, h_removed_3_2))
    /\ sparse_iter_next (Some 4) h2 = Some (false, h2)
    /\ sparse_iter_reset (Some 4) h2 = Some (tt, h3)
    /\ sparse_iter_drain (Some 4) 7 h3 = Some (l, h4).
Proof.
  apply (sparse_iterator_visits_occupied h_removed_3_2 0 6 4); run.
Defined.

(** C6, as stated, fails.  This is the spec's own scenario: three slots
    filled, a fourth add grows the buffer and leaves the hint at 4; handle 1
    is removed; the next add returns 4, the first empty slot from the hint,
    not 1. *)
Lemma remove_then_add_takes_another_slot :
  indexarray_is_empty_slot (Some 0) 1 h_grown_3_2 = Some (false, h_grown_3_2)
  /\ indexarray_remove_at (Some 0) 1 h_grown_3_2 = Some (OK, h_removed_3_2)
  /\ indexarray_add (Some 0) (Some [x09; x09]) h_removed_3_2
     = Some (4%Z, h_readded_3_2).
Proof. split; [run | split; run]. Qed.

(** C6 (amended). In a container of at most INT_MAX slots (the handle is
    the slot index cast to int), after remove_at on a handle below the
    capacity, a single add takes the first empty slot in the order of its
    circular scan from the hint.  So it returns the removed handle again
    provided every slot the scan looks at before it (from the hint up to, not
    including, the handle) is occupied, as when the handle was the only
    empty slot; and when one of those slots is empty, add returns the first
    such slot, which is not the removed handle. *)
Theorem remove_then_add_reuses_slot h a cap stride hint index v h1 :
  ia_wf h a = true ->
  indexarray_capacity (Some a) h = Some (cap, h) ->
  (Z.of_nat cap <= INT_MAX)%Z ->
  indexarray_stride (Some a) h = Some (stride, h) ->
  ia_hint h a = Some hint ->
  index < cap -> length v = stride ->
  indexarray_remove_at (Some a) index h = Some (OK, h1) ->
  ((forall j, j < scan_distance hint cap index ->
      indexarray_is_empty_slot (Some a) ((hint + j) mod cap) h1
      = Some (false, h1)) ->
   exists h2,
     indexarray_add (Some a) (Some v) h1 = Some (Z.of_nat index, h2))
  /\ (forall d, d < scan_distance hint cap index ->
        (forall j, j < d ->
           indexarray_is_empty_slot (Some a) ((hint + j) mod cap) h1
           = Some (false, h1)) ->
        indexarray_is_empty_slot (Some a) ((hint + d) mod cap) h1
        = Some (true, h1) ->
        (hint + d) mod cap <> index
        /\ exists h2,
             indexarray_add (Some a) (Some v) h1
             = Some (Z.of_nat ((hint + d) mod cap), h2)).
Proof.
  intros Hwf Hcap Hint Hstride Hhint Hi Hv Hrm.
  ia_intro Hwf L HL. ia_read HL.
  rewrite (indexarray_remove_at_at _ _ _ index HL) in Hrm.
  destruct (Nat.leb_spec (L_cap L) index); [lia|]. injection Hrm as <-.
  pose proof (ia_at_remove _ _ _ index HL) as H1.
  set (L1 := L_write L index (replicate (L_stride L) x00)) in *.
  set (h1 := set_cell _ _ h) in *.
  pose proof (scan_distance_lt (L_next L) (L_cap L) index ltac:(lia)) as HD.
  pose proof (circ_index (L_next L) (L_cap L) index ltac:(lia) Hi) as Hci.
  assert (forall d,
            d < L_cap L ->
            (forall j, j < d ->
               indexarray_is_empty_slot (Some a) ((L_next L + j) mod L_cap L) h1
               = Some (false, h1)) ->
            all_zero (L_slot L1 ((L_next L + d) mod L_cap L)) = true ->
            exists h2,
              indexarray_add (Some a) (Some v) h1
              = Some (Z.of_nat ((L_next L + d) mod L_cap L), h2)) as Hfirst.
  { intros d Hd Hocc Hemp.
    pose proof (Nat.mod_upper_bound (L_next L + d) (L_cap L) ltac:(lia)) as Hlt.
    pose proof (scan_first_skip L1 (L_cap L) (L_cap L) 0 d) as Hskip.
    cbn [Nat.add] in Hskip. change (L_next L1) with (L_next L) in Hskip.
    eexists.
    rewrite (indexarray_add_found h1 a L1 v ((L_next L + d) mod L_cap L) H1);
      [by rewrite int_of_usize_small by lia
      | change (L_stride L1) with (L_stride L); lia |].
    apply Hskip; [lia | done | | done].
    intros j Hj. specialize (Hocc j Hj).
    rewrite (indexarray_is_empty_slot_at _ _ _ _ H1) in Hocc.
    injection Hocc as Hocc. by apply orb_false_elim in Hocc as [_ ?]. }
  split.
  - intros Hocc.
    destruct (Hfirst (scan_distance (L_next L) (L_cap L) index) HD Hocc)
      as [h2 E].
    { rewrite Hci. unfold L1.
      rewrite (L_slot_write_same _ _ _ _ _ HL Hi) by apply length_replicate.
      apply all_zero_replicate. }
    rewrite Hci in E. by exists h2.
  - intros d Hd Hocc Hemp. split.
    + intros E. assert (d < L_cap L) as Hdc by lia. rewrite <- E in Hd.
      rewrite scan_distance_circ in Hd by done. lia.
    + apply Hfirst; [lia | done |].
      rewrite (indexarray_is_empty_slot_at _ _ _ _ H1) in Hemp.
      injection Hemp as Hemp.
      pose proof (Nat.mod_upper_bound (L_next L + d) (L_cap L) ltac:(lia)).
      change (L_cap L1) with (L_cap L) in Hemp.
      by destruct (Nat.leb_spec (L_cap L) ((L_next L + d) mod L_cap L)); [lia|].
Qed.

Lemma remove_then_add_reuses_slot_witness :
  exists h2,
    indexarray_add (Some 0) (Some [x09; x09])
      (heap_after (indexarray_remove_at (Some 0) 1) h_full_3_2)
    = Some (1%Z, h2).
Proof.
  destruct (remove_then_add_reuses_slot h_full_3_2 0 3 2 0 1 [x09; x09]
              (heap_after (indexarray_remove_at (Some 0) 1) h_full_3_2))
    as [Hreuse _];
    [run | run | vm_compute; discriminate | run | run | lia | run | run |].
  apply Hreuse.
  intros j Hj. change (scan_distance 0 3 1) with 1 in Hj.
  destruct j as [|j]; [run | lia].
Defined.

(** C7. On a well-formed container remove_at fails exactly for handles at or
    above the capacity.  Below it, it succeeds whatever the slot held,
    zero-fills that slot and only that slot, leaves hint and capacity as
    they were, and afterwards is_empty_slot is true and get_at fails. *)
Theorem remove_at_contract h a cap stride hint index out :
  ia_wf h a = true ->
  indexarray_capacity (Some a) h = Some (cap, h) ->
  indexarray_stride (Some a) h = Some (stride, h) ->
  ia_hint h a = Some hint ->
  (cap <= index -> indexarray_remove_at (Some a) index h = Some (ERR, h))
  /\ (index < cap ->
      exists h',
        indexarray_remove_at (Some a) index h = Some (OK, h')
        /\ ia_wf h' a = true
        /\ ia_slot h' a index = Some (replicate stride x00)
        /\ (forall j, j <> index -> ia_slot h' a j = ia_slot h a j)
        /\ ia_hint h' a = Some hint
        /\ indexarray_capacity (Some a) h' = Some (cap, h')
        /\ indexarray_is_empty_slot (Some a) index h' = Some (true, h')
        /\ indexarray_get_at (Some a) index (Some out) h'
           = Some ((ERR, Some out), h')).
Proof.
  intros Hwf Hcap Hstride Hhint. ia_intro Hwf L HL. ia_read HL.
  rewrite (indexarray_remove_at_at _ _ _ index HL). split.
  - intros Hi. by destruct (Nat.leb_spec (L_cap L) index); [|lia].
  - intros Hi. destruct (Nat.leb_spec (L_cap L) index); [lia|].
    pose proof (ia_at_remove _ _ _ index HL) as H'.
    set (L' := L_write L index (replicate (L_stride L) x00)) in *.
    assert (L_slot L' index = replicate (L_stride L) x00) as Hslot.
    { apply (L_slot_write_same _ _ _ _ _ HL Hi). apply length_replicate. }
    eexists. split; [reflexivity|].
    split; [by apply (ia_at_wf _ _ _ H')|].
    split; [by rewrite (ia_slot_at_lt _ _ _ _ H' Hi), Hslot|].
    split.
    { intros j Hj. rewrite (ia_slot_at _ _ _ _ H'), (ia_slot_at _ _ _ _ HL).
      change (L_cap L') with (L_cap L).
      unfold L'. rewrite L_slot_write_other; [done|done|apply length_replicate]. }
    split; [apply (ia_hint_at _ _ _ H')|].
    split; [apply (indexarray_capacity_at _ _ _ H')|].
    split.
    + rewrite (indexarray_is_empty_slot_at _ _ _ _ H'), Hslot.
      by rewrite all_zero_replicate, orb_true_r.
    + apply (indexarray_get_at_empty _ _ _ _ _ H').
      by rewrite Hslot, all_zero_replicate, orb_true_r.
Qed.

Lemma remove_at_contract_witness :
  exists h',
    indexarray_remove_at (Some 0) 1 h_full_3_2 = Some (OK, h')
    /\ indexarray_is_empty_slot (Some 0) 1 h' = Some (true, h')
    /\ indexarray_get_at (Some 0) 1 (Some [xff; xff]) h'
       = Some ((ERR, Some [xff; xff]), h').
Proof.
  destruct (remove_at_contract h_full_3_2 0 3 2 0 1 [xff; xff]) as [_ Hrm];
    [run | run | run | run |].
  destruct (Hrm ltac:(lia)) as (h' & E & _ & _ & _ & _ & _ & Hemp & Hget).
  exists h'. auto.
Defined.

(** C8, as stated, fails: an add issued onto a full container leaves the
    capacity where it was when the allocator cannot grant the larger
    buffer. *)
Lemma capacity_unchanged_by_failed_growth :
  indexarray_capacity (Some 0) h_full_2_1 = Some (2, h_full_2_1)
  /\ indexarray_is_empty_slot (Some 0) 0 h_full_2_1 = Some (false, h_full_2_1)
  /\ indexarray_is_empty_slot (Some 0) 1 h_full_2_1 = Some (false, h_full_2_1)
  /\ run_op 0 (OpAdd (Some [x03])) h_full_2_1 = Some (tt, h_full_2_1).
Proof. split; [run | split; [run | split; run]]. Qed.

(** C8 (amended). Along every sequence of operations (add, get_at,
    remove_at, is_empty_slot, capacity, stride, clear, create_iterator) on a
    container whose bucket is an allocator block, every operation returns
    and the capacity never decreases; an operation strictly increases it
    exactly when it is an add of a value onto a container with no empty slot
    and the allocator grants the larger buffer. *)
Theorem capacity_is_monotone h a stride os o :
  ia_growable h a = true ->
  indexarray_stride (Some a) h = Some (stride, h) ->
  Forall (fun o => op_ok stride o = true) os ->
  op_ok stride o = true ->
  exists h1 h2 c0 c1 c2,
    run_ops a os h = Some (tt, h1)
    /\ run_op a o h1 = Some (tt, h2)
    /\ indexarray_capacity (Some a) h = Some (c0, h)
    /\ indexarray_capacity (Some a) h1 = Some (c1, h1)
    /\ indexarray_capacity (Some a) h2 = Some (c2, h2)
    /\ c0 <= c1 /\ c1 <= c2
    /\ (c1 < c2 <->
        (exists v, o = OpAdd (Some v))
        /\ ia_full h1 a
        /\ alloc_ok h1 (stride * grown_capacity c1)).
Proof.
  intros Hg Hstride Hos Ho. ia_intro Hg L HL. ia_read HL.
  destruct (run_ops_at h a L os HL Hoff Hos)
    as (h1 & L1 & E1 & H1 & Ho1 & Hst1 & Hle1).
  rewrite <- Hst1 in Ho.
  destruct (run_op_at h1 a L1 o H1 Ho1 Ho)
    as (h2 & L2 & E2 & H2 & Ho2 & Hst2 & Hle2 & Hiff).
  exists h1, h2, (L_cap L), (L_cap L1), (L_cap L2).
  split; [done|]. split; [done|].
  split; [apply (indexarray_capacity_at _ _ _ HL)|].
  split; [apply (indexarray_capacity_at _ _ _ H1)|].
  split; [apply (indexarray_capacity_at _ _ _ H2)|].
  split; [done|]. split; [done|].
  rewrite Hiff, (ia_full_at _ _ _ H1), <- Hst1. reflexivity.
Qed.

Lemma capacity_is_monotone_witness :
  exists h1 h2 c0 c1 c2,
    run_ops 0 [OpAdd (Some [x01; x02]); OpRemoveAt 0; OpAdd (Some [x03; x04]);
               OpAdd (Some [x05; x06]); OpAdd (Some [x07; x08])] h_new_3_2
    = Some (tt, h1)
    /\ run_op 0 (OpAdd (Some [x09; x0a])) h1 = Some (tt, h2)
    /\ indexarray_capacity (Some 0) h_new_3_2 = Some (c0, h_new_3_2)
    /\ indexarray_capacity (Some 0) h1 = Some (c1, h1)
    /\ indexarray_capacity (Some 0) h2 = Some (c2, h2)
    /\ c0 <= c1 /\ c1 <= c2
    /\ (c1 < c2 <->
        (exists v, OpAdd (Some [x09; x0a]) = OpAdd (Some v))
        /\ ia_full h1 0
        /\ alloc_ok h1 (2 * grown_capacity c1)).
Proof.
  apply (capacity_is_monotone h_new_3_2 0 2); [run | run | | run].
  repeat (constructor; [run|]). constructor.
Defined.

(** C9. Every accessor called with an absent (NULL) container returns its
    neutral failure value and leaves the store alone: add returns -1, get_at
    and remove_at return the error status, capacity and stride return 0,
    is_empty_slot returns true; clear and dispose do nothing and
    create_iterator returns NULL.  None of them faults. *)
Theorem null_container_is_guarded
    (h : heap) (value out : option (list byte)) (index : nat) :
  indexarray_add None value h = Some ((-1)%Z, h)
  /\ indexarray_get_at None index out h = Some ((ERR, out), h)
  /\ indexarray_remove_at None index h = Some (ERR, h)
  /\ indexarray_capacity None h = Some (0, h)
  /\ indexarray_stride None h = Some (0, h)
  /\ indexarray_is_empty_slot None index h = Some (true, h)
  /\ indexarray_clear None h = Some (tt, h)
  /\ indexarray_dispose None h = Some (tt, h)
  /\ indexarray_create_iterator None h = Some (None, h).
Proof. repeat split. Qed.

(** C10, as stated, fails beyond INT_MAX slots: in a view of 2^31 + 1
    one-byte records of which only the last is empty, add of a zero byte
    returns the handle -2147483648, the slot index 2^31 cast to int. *)
Lemma add_returns_negative_handle :
  indexarray_from_buffer (Some (Ptr 0 0))
    (Some (Ptr 0 (S (Z.to_nat 2147483648)))) 1
    (h_buffer_last_free (Z.to_nat 2147483648))
  = Some (Some 1, h_view_last_free (Z.to_nat 2147483648))
  /\ indexarray_capacity (Some 1) (h_view_last_free (Z.to_nat 2147483648))
     = Some (S (Z.to_nat 2147483648), h_view_last_free (Z.to_nat 2147483648))
  /\ indexarray_is_empty_slot (Some 1) (Z.to_nat 2147483648)
       (h_view_last_free (Z.to_nat 2147483648))
     = Some (true, h_view_last_free (Z.to_nat 2147483648))
  /\ exists h',
       indexarray_add (Some 1) (Some [x00])
         (h_view_last_free (Z.to_nat 2147483648))
       = Some ((-2147483648)%Z, h').
Proof. apply add_in_view_beyond_int_max. by rewrite Z2Nat.id. Qed.

(** C10 (amended). In a container of at most INT_MAX slots, when some slot is
    empty, adding a value whose bytes are all zero does return a handle
    (non-negative, below the capacity), but the slot it names is still empty
    afterwards and get_at on it fails. *)
Theorem add_all_zero_value_is_lost h a cap stride free v out :
  ia_wf h a = true ->
  indexarray_capacity (Some a) h = Some (cap, h) ->
  (Z.of_nat cap <= INT_MAX)%Z ->
  indexarray_stride (Some a) h = Some (stride, h) ->
  free < cap ->
  indexarray_is_empty_slot (Some a) free h = Some (true, h) ->
  length v = stride -> all_zero v = true ->
  exists r h',
    indexarray_add (Some a) (Some v) h = Some (r, h')
    /\ (0 <= r < Z.of_nat cap)%Z
    /\ indexarray_is_empty_slot (Some a) (Z.to_nat r) h' = Some (true, h')
    /\ indexarray_get_at (Some a) (Z.to_nat r) (Some out) h'
       = Some ((ERR, Some out), h').
Proof.
  intros Hwf Hcap Hint Hstride Hfree Hemp Hv Hzero.
  ia_intro Hwf L HL. ia_read HL.
  rewrite (indexarray_is_empty_slot_at _ _ _ _ HL) in Hemp.
  injection Hemp as Hemp.
  destruct (Nat.leb_spec (L_cap L) free); [lia|]. cbn [orb] in Hemp.
  destruct (scan_first_Some_exists L (L_cap L) free Hfree Hemp) as [idx Hs].
  assert (idx < L_cap L) as Hidx
    by (apply (scan_first_lt L (L_cap L) (L_cap L) 0 idx); [lia | done]).
  pose proof (ia_at_found _ _ _ v idx HL) as H'.
  assert (L_slot (L_found L idx v) idx = v) as Hslot
    by (apply (L_found_slot_same _ _ _ _ _ HL Hidx); lia).
  exists (Z.of_nat idx), (h_update h a (L_found L idx v)).
  rewrite Nat2Z.id.
  split.
  { rewrite (indexarray_add_found h a L v idx HL) by (done || lia).
    by rewrite int_of_usize_small by lia. }
  split; [lia|]. split.
  - rewrite (indexarray_is_empty_slot_at _ _ _ _ H'), Hslot, Hzero.
    by rewrite orb_true_r.
  - apply (indexarray_get_at_empty _ _ _ _ _ H').
    by rewrite Hslot, Hzero, orb_true_r.
Qed.

Lemma add_all_zero_value_is_lost_witness :
  exists r h',
    indexarray_add (Some 0) (Some [x00; x00]) h_new_3_2 = Some (r, h')
    /\ (0 <= r < 3)%Z
    /\ indexarray_is_empty_slot (Some 0) (Z.to_nat r) h' = Some (true, h')
    /\ indexarray_get_at (Some 0) (Z.to_nat r) (Some [xff; xff]) h'
       = Some ((ERR, Some [xff; xff]), h').
Proof.
  apply (add_all_zero_value_is_lost h_new_3_2 0 3 2 1 [x00; x00] [xff; xff]);
    [run | run | vm_compute; discriminate | run | lia | run | run | run].
Defined.

(** * Lemmas for the further properties *)

(** ** The constructors, step by step *)

Lemma alloc_ok_small h n :
  n <= avail h -> (Z.of_nat n < 2 ^ 64)%Z -> alloc_ok h n.
Proof. by split. Qed.

Lemma indexarray_new_built capacity stride h :
  0 < stride ->
  sizeof_sc_indexarray + sizeof_sc_collection + capacity * stride <= avail h ->
  (Z.of_nat (capacity * stride) < 2 ^ 64)%Z ->
  let a := length (cells h) in
  exists h',
    indexarray_new capacity stride h = Some (Some a, h')
    /\ ia_at h' a (L_fresh a capacity stride)
    /\ avail h' + (sizeof_sc_indexarray + sizeof_sc_collection + capacity * stride)
       = avail h
    /\ length (cells h') = a + 3
    /\ forall x c, cells h !! x = Some c -> cells h' !! x = Some c.
Proof.
  intros Hst Hmem Hsz. cbv zeta. unfold indexarray_new.
  destruct (Nat.eqb_spec stride 0) as [|_]; [lia|].
  unfold bind at 1.
  destruct (Allocator_alloc_cases h sizeof_sc_indexarray) as [[_ ->]|[Hno _]].
  2:{ exfalso. apply Hno. split; [lia | by vm_compute]. }
  set (a := length (cells h)). set (h1 := h_alloc h sizeof_sc_indexarray).
  cbn [blk]. unfold bind at 1, collection_new, bind at 1.
  unfold array_alloc_struct_with_bucket.
  destruct (Nat.eqb_spec stride 0) as [|_]; [lia|].
  unfold bind at 1.
  destruct (Allocator_alloc_cases h1 sizeof_sc_collection) as [[_ ->]|[Hno _]].
  2:{ exfalso. apply Hno. split; [cbn [h1 h_alloc avail]; lia | by vm_compute]. }
  assert (length (cells h1) = S a) as Hlen1 by apply h_alloc_length.
  rewrite Hlen1. set (h2 := h_alloc h1 sizeof_sc_collection).
  assert (length (cells h2) = S (S a)) as Hlen2
    by (unfold h2; by rewrite h_alloc_length, Hlen1).
  unfold bind at 1.
  destruct (Allocator_alloc_cases h2 (capacity * stride)) as [[Hok ->]|[Hno _]].
  2:{ exfalso. apply Hno. split; [cbn [h2 h1 h_alloc avail]; lia | done]. }
  rewrite Hlen2. set (h3 := h_alloc h2 (capacity * stride)).
  set (jb := junk_block h2 (length (cells h2)) (capacity * stride)).
  assert (length jb = capacity * stride) as Hjb by apply length_junk_block.
  assert (cells h3 !! S (S a) = Some (CBytes jb)) as Hb3.
  { unfold h3, jb. rewrite <- Hlen2. apply h_alloc_lookup_new. }
  set (zs := replicate (capacity * stride) x00).
  assert (list_inserts 0 zs jb = zs) as Ez.
  { unfold zs. rewrite <- Hjb. apply inserts_zeros. }
  assert (list_inserts 0 zs zs = zs) as Ezz.
  { pose proof (inserts_zeros zs) as E. unfold zs in E.
    by rewrite length_replicate in E. }
  unfold bind at 1, memset_zero. fold zs.
  rewrite (store_bytes_at _ _ _ _ _ Hb3)
    by (unfold zs; rewrite length_replicate; lia).
  rewrite Ez. set (h4 := set_cell (S (S a)) (CBytes zs) h3).
  unfold ret at 1. unfold bind at 1, store_coll, store_struct. cbn [blk off].
  assert (cells h4 !! S a
          = Some (CBytes (junk_block h1 (length (cells h1)) sizeof_sc_collection)))
    as Hc4.
  { unfold h4. rewrite cells_set_cell_ne by lia.
    apply h_alloc_lookup_old. unfold h2. rewrite <- Hlen1.
    apply h_alloc_lookup_new. }
  rewrite Hc4, length_junk_block, Nat.eqb_refl.
  set (k := {| c_handle := _; c_bucket := _; c_end := _; c_stride := _;
               c_length := _; c_owns_buffer := _ |}).
  set (h5 := set_cell (S a) (CColl k) h4).
  unfold ret at 1. unfold bind at 1, collection_get_buffer, bind at 1, load_coll.
  assert (cells h5 !! S a = Some (CColl k)) as Hc5.
  { apply cells_set_cell_eq. by eapply lookup_lt_Some. }
  rewrite Hc5. unfold ret at 1. subst k. cbn [c_bucket].
  rewrite bool_decide_eq_true_2 by discriminate.
  assert (cells h5 !! S (S a) = Some (CBytes zs)) as Hb5.
  { unfold h5. rewrite cells_set_cell_ne by lia.
    apply cells_set_cell_eq. by eapply lookup_lt_Some. }
  unfold bind at 1, memset_zero. fold zs.
  rewrite (store_bytes_at _ _ _ _ _ Hb5)
    by (unfold zs; rewrite length_replicate; lia).
  rewrite Ezz. set (h6 := set_cell (S (S a)) (CBytes zs) h5).
  unfold bind at 1, store_ia, store_struct.
  assert (cells h6 !! a
          = Some (CBytes (junk_block h a sizeof_sc_indexarray))) as Ha6.
  { unfold h6, h5, h4. rewrite !cells_set_cell_ne by lia.
    do 2 apply h_alloc_lookup_old. apply h_alloc_lookup_new. }
  rewrite Ha6, length_junk_block, Nat.eqb_refl.
  unfold ret. eexists. split; [reflexivity|].
  assert (a < length (cells h6)) as Hn0 by (by eapply lookup_lt_Some).
  assert (length zs = capacity * stride) as Hzs by apply length_replicate.
  split; [|split; [|split]].
  - unfold L_fresh. fold zs. constructor; fields.
    + by apply cells_set_cell_eq.
    + rewrite cells_set_cell_ne by lia. unfold h6.
      rewrite cells_set_cell_ne by lia. exact Hc5.
    + rewrite cells_set_cell_ne by lia. unfold h6.
      apply cells_set_cell_eq. by eapply lookup_lt_Some.
    + lia.
    + lia.
    + lia.
    + rewrite Hzs. apply Hok.
  - cbn [set_cell avail h6 h5 h4 h3 h2 h1 h_alloc].
    unfold sizeof_sc_indexarray, sizeof_sc_collection in *. lia.
  - cbn [set_cell cells h6 h5 h4 h3 h2 h1 h_alloc].
    rewrite !length_insert, !length_app. simpl. lia.
  - intros x c Hx. pose proof (lookup_lt_Some _ _ _ Hx) as Hlt. fold a in Hlt.
    rewrite cells_set_cell_ne by lia. unfold h6.
    rewrite cells_set_cell_ne by lia. unfold h5.
    rewrite cells_set_cell_ne by lia. unfold h4.
    rewrite cells_set_cell_ne by lia.
    by do 3 apply h_alloc_lookup_old.
Qed.

Lemma indexarray_from_buffer_eq b o e stride h :
  0 < stride -> o < e ->
  sizeof_sc_indexarray + sizeof_sc_collection <= avail h ->
  indexarray_from_buffer (Some (Ptr b o)) (Some (Ptr b e)) stride h
  = Some (Some (length (cells h)), h_viewed h b o e stride).
Proof.
  intros Hst Hoe Hmem. unfold indexarray_from_buffer.
  destruct (Nat.eqb_spec stride 0) as [|_]; [lia|].
  unfold bind at 1, ptr_ge. cbn [blk off]. rewrite Nat.eqb_refl.
  unfold ret at 1. destruct (Nat.leb_spec e o) as [|_]; [lia|].
  unfold bind at 1.
  destruct (Allocator_alloc_cases h sizeof_sc_indexarray) as [[_ ->]|[Hno _]].
  2:{ exfalso. apply Hno. split; [lia | by vm_compute]. }
  set (a := length (cells h)). set (h1 := h_alloc h sizeof_sc_indexarray).
  assert (length (cells h1) = S a) as Hlen1 by apply h_alloc_length.
  cbn [blk]. unfold bind at 1.
  destruct (Allocator_alloc_cases h1 sizeof_sc_collection) as [[_ ->]|[Hno _]].
  2:{ exfalso. apply Hno. split; [cbn [h1 h_alloc avail]; lia | by vm_compute]. }
  rewrite Hlen1. set (h2 := h_alloc h1 sizeof_sc_collection). cbn [blk].
  assert (cells h2 !! S a
          = Some (CBytes (junk_block h1 (length (cells h1)) sizeof_sc_collection)))
    as Hc2 by (unfold h2; rewrite <- Hlen1; apply h_alloc_lookup_new).
  assert (cells h2 !! a = Some (CBytes (junk_block h a sizeof_sc_indexarray)))
    as Ha2 by (apply h_alloc_lookup_old, h_alloc_lookup_new).
  unfold bind at 1, store_coll, store_struct.
  rewrite Hc2, length_junk_block, Nat.eqb_refl.
  set (h3 := set_cell (S a) _ h2).
  unfold bind at 1, store_ia, store_struct.
  assert (cells h3 !! a = Some (CBytes (junk_block h a sizeof_sc_indexarray)))
    as Ha3 by (unfold h3; by rewrite cells_set_cell_ne by lia).
  rewrite Ha3, length_junk_block, Nat.eqb_refl.
  reflexivity.
Qed.

Lemma h_viewed_old h b o e stride x c :
  cells h !! x = Some c -> cells (h_viewed h b o e stride) !! x = Some c.
Proof.
  intros Hx. pose proof (lookup_lt_Some _ _ _ Hx) as Hlt.
  unfold h_viewed. rewrite !cells_set_cell_ne by lia.
  by do 2 apply h_alloc_lookup_old.
Qed.

Lemma h_viewed_avail h b o e stride :
  sizeof_sc_indexarray + sizeof_sc_collection <= avail h ->
  avail (h_viewed h b o e stride) + (sizeof_sc_indexarray + sizeof_sc_collection)
  = avail h.
Proof. intros Hmem. cbn. unfold sizeof_sc_indexarray, sizeof_sc_collection in *. lia. Qed.

Lemma ia_at_viewed b o e stride bs h :
  cells h !! b = Some (CBytes bs) ->
  0 < stride -> o < e -> e <= length bs -> (Z.of_nat (length bs) < 2 ^ 64)%Z ->
  ia_at (h_viewed h b o e stride) (length (cells h))
        (L_view (length (cells h)) b o e stride bs).
Proof.
  intros Hb Hst Hoe He Hsz. pose proof (lookup_lt_Some _ _ _ Hb) as Hlt.
  set (a := length (cells h)) in *.
  assert (length (cells (h_alloc (h_alloc h sizeof_sc_indexarray)
                           sizeof_sc_collection)) = S (S a)) as Hlen
    by (by rewrite !h_alloc_length).
  unfold L_view, h_viewed. fold a. constructor; fields.
  - apply cells_set_cell_eq. cbn [set_cell cells]. rewrite length_insert. lia.
  - rewrite cells_set_cell_ne by lia. apply cells_set_cell_eq. lia.
  - rewrite !cells_set_cell_ne by lia. by do 2 apply h_alloc_lookup_old.
  - lia.
  - lia.
  - done.
  - done.
Qed.

(** When [indexarray_from_buffer] refuses, nothing stays allocated. *)
Lemma indexarray_from_buffer_refused b o e stride h :
  stride = 0 \/ e <= o \/ avail h < sizeof_sc_indexarray + sizeof_sc_collection ->
  exists h',
    indexarray_from_buffer (Some (Ptr b o)) (Some (Ptr b e)) stride h
    = Some (None, h')
    /\ avail h' = avail h
    /\ forall x c, cells h !! x = Some c -> cells h' !! x = Some c.
Proof.
  intros Hwhy. unfold indexarray_from_buffer.
  destruct (Nat.eqb_spec stride 0) as [|Hst]; [by exists h|].
  unfold bind at 1, ptr_ge. cbn [blk off]. rewrite Nat.eqb_refl.
  unfold ret at 1. destruct (Nat.leb_spec e o) as [|Hoe]; [by exists h|].
  unfold bind at 1.
  destruct (Allocator_alloc_cases h sizeof_sc_indexarray) as [[Hok ->]|[_ ->]];
    [|by exists h].
  set (a := length (cells h)). set (h1 := h_alloc h sizeof_sc_indexarray).
  cbn [blk]. unfold bind at 1.
  destruct (Allocator_alloc_cases h1 sizeof_sc_collection) as [[Hok' _]|[_ ->]].
  { exfalso. destruct Hok as [Hok _]. destruct Hok' as [Hok' _].
    cbn [h1 h_alloc avail] in Hok'. lia. }
  unfold bind, Allocator_dispose. cbn [blk off].
  rewrite (h_alloc_lookup_new h sizeof_sc_indexarray : cells h1 !! a = _).
  cbn [Nat.eqb cell_size]. rewrite length_junk_block.
  eexists. split; [reflexivity|]. cbn [avail cells h1 h_alloc]. split.
  - destruct Hok as [Hok _]. lia.
  - intros x c Hx. pose proof (lookup_lt_Some _ _ _ Hx) as Hlt. fold a in Hlt.
    rewrite list_lookup_insert_ne by lia. by apply lookup_app_l_Some.
Qed.

(** ** dispose *)

Lemma indexarray_dispose_at h a L :
  ia_at h a L -> (L_owns L = true -> L_off L = 0) ->
  exists h',
    indexarray_dispose (Some a) h = Some (tt, h')
    /\ avail h'
       = avail h + (if L_owns L then length (L_bytes L) else 0)
         + sizeof_sc_collection + sizeof_sc_indexarray
    /\ cells h' !! L_blk L
       = Some (if L_owns L then CFreed else CBytes (L_bytes L))
    /\ cells h' !! a = Some CFreed
    /\ cells h' !! L_coll L = Some CFreed
    /\ length (cells h') = length (cells h)
    /\ forall x, x <> a -> x <> L_coll L -> x <> L_blk L ->
         cells h' !! x = cells h !! x.
Proof.
  intros H Hown. destruct (ia_at_cells_distinct _ _ _ H) as (Hac & Hab & Hcb).
  pose proof (lookup_lt_Some _ _ _ (at_ia _ _ _ H)) as Ha_lt.
  pose proof (lookup_lt_Some _ _ _ (at_coll _ _ _ H)) as Hc_lt.
  pose proof (lookup_lt_Some _ _ _ (at_bytes _ _ _ H)) as Hb_lt.
  unfold indexarray_dispose. unfold bind at 1.
  rewrite (load_ia_at _ _ _ H). fields.
  unfold bind at 1, collection_dispose, bind at 1, load_coll.
  rewrite (at_coll _ _ _ H). fields.
  destruct (L_owns L) eqn:Eown.
  - rewrite bool_decide_eq_true_2 by discriminate. cbn [andb].
    unfold bind at 1, Allocator_dispose at 1. cbn [blk off].
    rewrite (at_bytes _ _ _ H), (Hown eq_refl). cbn [Nat.eqb cell_size].
    unfold Allocator_dispose at 1. cbn [blk off cells].
    rewrite list_lookup_insert_ne by done. rewrite (at_coll _ _ _ H).
    cbn [Nat.eqb cell_size]. unfold Allocator_dispose. cbn [blk off cells].
    rewrite !list_lookup_insert_ne by done. rewrite (at_ia _ _ _ H).
    cbn [Nat.eqb cell_size cells avail junk].
    eexists. split; [reflexivity|]. cbn [cells avail].
    split; [lia|]. split; [|split; [|split; [|split]]].
    + rewrite !list_lookup_insert_ne by done. by apply list_lookup_insert_eq.
    + apply list_lookup_insert_eq. by rewrite !length_insert.
    + rewrite list_lookup_insert_ne by done.
      apply list_lookup_insert_eq. by rewrite length_insert.
    + by rewrite !length_insert.
    + intros x Hxa Hxc Hxb. by rewrite !list_lookup_insert_ne by done.
  - cbn [andb]. unfold bind at 1, ret at 1, Allocator_dispose at 1. cbn [blk off].
    rewrite (at_coll _ _ _ H). cbn [Nat.eqb cell_size].
    unfold Allocator_dispose. cbn [blk off cells].
    rewrite list_lookup_insert_ne by done. rewrite (at_ia _ _ _ H).
    cbn [Nat.eqb cell_size cells avail junk].
    eexists. split; [reflexivity|]. cbn [cells avail].
    split; [lia|]. split; [|split; [|split; [|split]]].
    + rewrite !list_lookup_insert_ne by done. apply (at_bytes _ _ _ H).
    + apply list_lookup_insert_eq. by rewrite length_insert.
    + rewrite list_lookup_insert_ne by done. by apply list_lookup_insert_eq.
    + by rewrite !length_insert.
    + intros x Hxa Hxc Hxb. by rewrite !list_lookup_insert_ne by done.
Qed.

(** ** Fresh containers and views *)

Lemma L_cap_fresh a capacity stride :
  0 < stride -> L_cap (L_fresh a capacity stride) = capacity.
Proof.
  intros Hst. unfold L_cap, L_fresh. fields. rewrite Nat.sub_0_r.
  apply Nat.div_mul. lia.
Qed.

Lemma L_slot_fresh a capacity stride i :
  i < capacity -> L_slot (L_fresh a capacity stride) i = replicate stride x00.
Proof.
  intros Hi. unfold L_slot, L_fresh. fields. apply slot_of_zeros. nia.
Qed.


(** ** add, with the store it leaves *)

Lemma indexarray_add_grow_eq h a L v :
  ia_at h a L -> L_stride L <= length v ->
  scan_first L (L_cap L) (L_cap L) 0 = None ->
  L_off L = 0 -> alloc_ok h (L_stride L * L_new_cap L) ->
  indexarray_add (Some a) (Some v) h
  = Some (int_of_usize (L_new_cap L / 2),
          h_update (h_grown h L) a (L_add_grown h L v)).
Proof.
  intros H Hv Hs Ho Hok. rewrite (indexarray_add_prefix _ _ _ _ H Hv), Hs.
  pose proof (at_stride _ _ _ H) as Hst.
  pose proof (L_new_cap_half L) as (Hhalf & Hhpos & _).
  unfold L_add_grown. cbv zeta.
  set (half := L_new_cap L / 2) in *.
  unfold bind at 1. rewrite (collection_grow_at _ _ _ H Ho Hok).
  cbn [Z.eqb OK negb].
  pose proof (ia_at_grown _ _ _ H Hok) as Hg.
  set (hg := h_grown h L) in *. set (Lg := L_grown h L) in *.
  assert (length (L_bytes Lg) = L_stride L * L_new_cap L) as HlenG
    by apply length_grown_bytes.
  unfold bind at 1.
  rewrite (collection_get_buffer_at _ _ _ Hg : collection_get_buffer (Some (L_coll L)) hg = _).
  unfold bind at 1. rewrite (indexarray_capacity_at _ _ _ Hg).
  rewrite (L_cap_grown h L Hst : L_cap Lg = _). fold half.
  set (L1 := L_write Lg half (replicate (half * L_stride L) x00)).
  set (h1 := set_cell (L_blk Lg) (CBytes (L_bytes L1)) hg).
  assert (ia_at h1 a L1) as H1.
  { apply (ia_at_set_bytes _ _ _ _ Hg). apply length_inserts. }
  assert (memset_zero (Some (Ptr (L_blk Lg) (L_off Lg + half * L_stride L)))
            (half * L_stride L) hg = Some (tt, h1)) as Ezero.
  { apply (store_bytes_at hg _ _ _ _ (at_bytes _ _ _ Hg)).
    rewrite length_replicate, HlenG. change (L_off Lg) with 0. nia. }
  unfold bind at 1. cbn [ptr_add blk off]. rewrite Ezero.
  set (L2 := L_write L1 half (take (L_stride L) v)).
  set (h2 := set_cell (L_blk L1) (CBytes (L_bytes L2)) h1).
  assert (ia_at h2 a L2) as H2.
  { apply (ia_at_set_bytes _ _ _ _ H1). apply length_inserts. }
  assert (memcpy_from (Some (Ptr (L_blk Lg) (L_off Lg + half * L_stride L))) v
            (L_stride L) h1 = Some (tt, h2)) as Ecopy.
  { unfold memcpy_from. rewrite decide_True by done.
    apply (store_bytes_at h1 (L_blk L1) _ (L_bytes L1) _ (at_bytes _ _ _ H1)).
    rewrite length_take. unfold L1, L_write. fields.
    rewrite length_inserts, HlenG. change (L_off Lg) with 0. nia. }
  unfold bind at 1. rewrite Ecopy.
  unfold bind at 1. rewrite (load_ia_at _ _ _ H2).
  unfold bind at 1. rewrite (store_ia_at _ _ _ _ H2).
  unfold ret. do 2 f_equal. unfold h_update, h2, h1.
  change (L_blk L1) with (L_blk Lg). by rewrite set_cell_set_cell.
Qed.

(** What the container holds besides its two structs: the bucket.  Its size
    and what the allocator has left move together. *)
Lemma run_op_footprint h a L o :
  ia_at h a L -> L_off L = 0 -> op_ok (L_stride L) o = true ->
  o <> OpCreateIterator ->
  exists h' L',
    run_op a o h = Some (tt, h')
    /\ ia_at h' a L' /\ L_off L' = 0 /\ L_stride L' = L_stride L
    /\ L_owns L' = L_owns L
    /\ avail h' + length (L_bytes L') = avail h + length (L_bytes L).
Proof.
  intros H Ho Hok Hnit.
  destruct o as [[v|]|index [out|]|index|index| | | |]; unfold run_op;
    [| | | | | | | | |done].
  - apply Nat.leb_le in Hok.
    destruct (scan_first L (L_cap L) (L_cap L) 0) as [idx|] eqn:Hs.
    + exists (h_update h a (L_found L idx v)), (L_found L idx v).
      unfold bind. rewrite (indexarray_add_found _ _ _ _ _ H Hok Hs).
      split; [done|]. split; [by apply ia_at_found|].
      split; [done|]. split; [done|]. split; [done|].
      cbn [h_update set_cell avail]. fields. by rewrite length_inserts.
    + destruct (alloc_ok_dec h (L_stride L * L_new_cap L)) as [Hal|Hno].
      * exists (h_update (h_grown h L) a (L_add_grown h L v)), (L_add_grown h L v).
        unfold bind. rewrite (indexarray_add_grow_eq _ _ _ _ H Hok Hs Ho Hal).
        destruct (indexarray_add_grow _ _ _ _ H Hok Hs Ho Hal)
          as (h' & E' & H' & _).
        rewrite (indexarray_add_grow_eq _ _ _ _ H Hok Hs Ho Hal) in E'.
        injection E' as <-.
        split; [done|]. split; [done|]. split; [done|]. split; [done|].
        split; [done|].
        cbn [h_update set_cell avail h_grown]. unfold L_add_grown. fields.
        rewrite !length_inserts, length_grown_bytes.
        destruct Hal as [Hal _]. lia.
      * exists h, L. unfold bind.
        rewrite (indexarray_add_fail _ _ L _ H Hok Hs Hno). by do 5 (split; [done|]).
  - exists h, L. by do 5 (split; [done|]).
  - apply Nat.leb_le in Hok. exists h, L. unfold bind.
    rewrite (indexarray_get_at_at _ _ _ _ _ H Hok). by do 5 (split; [done|]).
  - exists h, L. by do 5 (split; [done|]).
  - unfold bind. rewrite (indexarray_remove_at_at _ _ _ index H).
    destruct (L_cap L <=? index).
    + exists h, L. by do 5 (split; [done|]).
    + eexists _, (L_write L index (replicate (L_stride L) x00)).
      split; [reflexivity|]. split; [apply (ia_at_remove _ _ _ _ H)|].
      split; [done|]. split; [done|]. split; [done|].
      cbn [set_cell avail]. fields. by rewrite length_inserts.
  - exists h, L. unfold bind.
    rewrite (indexarray_is_empty_slot_at _ _ _ _ H). by do 5 (split; [done|]).
  - exists h, L. unfold bind. rewrite (indexarray_capacity_at _ _ _ H).
    by do 5 (split; [done|]).
  - exists h, L. unfold bind. rewrite (indexarray_stride_at _ _ _ H).
    by do 5 (split; [done|]).
  - destruct (indexarray_clear_at _ _ _ H) as [Eclear H'].
    eexists _, _. split; [exact Eclear|]. split; [exact H'|].
    split; [done|]. split; [done|]. split; [done|].
    cbn [h_update set_cell avail]. fields. by rewrite length_inserts.
Qed.

Lemma run_ops_footprint h a L os :
  ia_at h a L -> L_off L = 0 ->
  Forall (fun o => op_ok (L_stride L) o = true /\ o <> OpCreateIterator) os ->
  exists h' L',
    run_ops a os h = Some (tt, h')
    /\ ia_at h' a L' /\ L_off L' = 0 /\ L_stride L' = L_stride L
    /\ L_owns L' = L_owns L
    /\ avail h' + length (L_bytes L') = avail h + length (L_bytes L).
Proof.
  intros H Ho Hok. revert h L H Ho Hok.
  induction os as [|o os IH]; intros h L H Ho Hok.
  - exists h, L. by do 5 (split; [done|]).
  - apply Forall_cons in Hok as [[Hok1 Hnit] Hok].
    destruct (run_op_footprint h a L o H Ho Hok1 Hnit)
      as (h1 & L1 & E1 & H1 & Ho1 & Hst1 & Hown1 & Hav1).
    rewrite <- Hst1 in Hok.
    destruct (IH h1 L1 H1 Ho1 Hok)
      as (h2 & L2 & E2 & H2 & Ho2 & Hst2 & Hown2 & Hav2).
    exists h2, L2. cbn [run_ops]. unfold bind. rewrite E1.
    split; [done|]. split; [done|]. split; [done|]. split; [congruence|].
    split; [congruence|lia].
Qed.



Lemma ia_owns_buffer_at h a L : ia_at h a L -> ia_owns_buffer h a = Some (L_owns L).
Proof. intros [HL _]%ia_at_layout. unfold ia_owns_buffer. by rewrite HL. Qed.

Lemma ia_bucket_block_at h a L : ia_at h a L -> ia_bucket_block h a = Some (L_blk L).
Proof. intros [HL _]%ia_at_layout. unfold ia_bucket_block. by rewrite HL. Qed.

(** ** Filling a container in order *)

Lemma scan_first_at_hint L cap :
  L_next L < cap -> all_zero (L_slot L (L_next L)) = true ->
  scan_first L cap cap 0 = Some (L_next L).
Proof.
  intros Hk Hz.
  pose proof (scan_first_skip L cap cap 0 0 ltac:(lia) ltac:(lia)) as Hs.
  rewrite !Nat.add_0_r, Nat.mod_small in Hs by done.
  apply Hs; [intros j Hj; lia | done].
Qed.

Lemma add_all_fills_in_order a : forall vs h L k,
  ia_at h a L -> k + length vs <= L_cap L -> (Z.of_nat (L_cap L) <= INT_MAX)%Z ->
  L_next L = k mod L_cap L ->
  (forall j, k <= j < L_cap L -> all_zero (L_slot L j) = true) ->
  Forall (fun v => length v = L_stride L /\ all_zero v = false) vs ->
  exists h' L',
    indexarray_add_all (Some a) vs h
    = Some (map Z.of_nat (seq k (length vs)), h')
    /\ ia_at h' a L' /\ L_cap L' = L_cap L /\ L_stride L' = L_stride L
    /\ (forall i v, vs !! i = Some v -> L_slot L' (k + i) = v)
    /\ (forall j, j < k -> L_slot L' j = L_slot L j).
Proof.
  induction vs as [|v vs IH]; intros h L k H Hk Hmax Hnext Hfree Hvs.
  - exists h, L. split; [reflexivity|]. split; [done|]. split; [done|].
    split; [done|]. split; [|done]. intros i v Hi. by rewrite lookup_nil in Hi.
  - apply Forall_cons in Hvs as [[Hv Hnz] Hvs]. cbn [length] in Hk.
    rewrite Nat.mod_small in Hnext by lia.
    assert (scan_first L (L_cap L) (L_cap L) 0 = Some k) as Hs.
    { rewrite <- Hnext. apply scan_first_at_hint; [lia|].
      rewrite Hnext. apply Hfree. lia. }
    pose proof (indexarray_add_found h a L v k H ltac:(lia) Hs) as Eadd.
    pose proof (ia_at_found _ _ _ v k H) as H1.
    set (L1 := L_found L k v) in *. set (h1 := h_update h a L1) in *.
    destruct (IH h1 L1 (S k) H1) as (h' & L' & E & H' & Hcap' & Hst' & Hnew & Hold).
    + change (L_cap L1) with (L_cap L). lia.
    + done.
    + change (L_next L1) with ((k + 1) mod L_cap L).
      change (L_cap L1) with (L_cap L). by rewrite Nat.add_1_r.
    + intros j Hj. change (L_cap L1) with (L_cap L) in Hj. unfold L1.
      rewrite L_found_slot_other by (done || lia). apply Hfree. lia.
    + done.
    + exists h', L'. cbn [indexarray_add_all length seq map]. unfold bind at 1.
      rewrite Eadd. unfold bind. rewrite E.
      rewrite int_of_usize_small by lia.
      split; [done|]. split; [done|]. split; [done|]. split; [done|]. split.
      * intros [|i] w Hw.
        -- injection Hw as <-. rewrite Nat.add_0_r, Hold by lia.
           apply (L_found_slot_same h a); [done | lia | done].
        -- rewrite <- Nat.add_succ_comm. by apply Hnew.
      * intros j Hj. rewrite Hold by lia. unfold L1.
        by rewrite L_found_slot_other by (done || lia).
Qed.

(** ** Growing from no slots at all *)

Lemma L_add_grown_slot_junk h L v j :
  0 < L_stride L -> L_cap L = 0 -> j < 4 ->
  L_slot (L_add_grown h L v) j
  = map (junk h (length (cells h))) (seq (j * L_stride L) (L_stride L)).
Proof.
  intros Hst Hcap Hj.
  assert (L_new_cap L = 8) as Hnew by (unfold L_new_cap; by rewrite Hcap).
  unfold L_add_grown. rewrite Hnew. cbv zeta.
  change (8 / 2) with 4. unfold L_slot. fields.
  assert (grown_bytes h L = junk_block h (length (cells h)) (L_stride L * 8))
    as ->.
  { unfold grown_bytes. by rewrite Hcap, Hnew, Nat.mul_0_r, take_0. }
  rewrite Nat.add_0_l.
  rewrite !take_drop_inserts_other
    by (left; rewrite ?length_take, ?length_replicate; nia).
  unfold junk_block. rewrite skipn_map, firstn_map. f_equal.
  rewrite drop_seq, take_seq, Nat.min_l by nia. by rewrite Nat.add_0_l.
Qed.


(** ** An iterator over a container that has changed since *)

Section snapshot.
(** A container at [a] in [h0], and an iterator cell at [it] that cached the
    capacity [cap0], no more than the container has now. *)
Variables (h0 : heap) (a it : nat) (L : layout) (s0 : sparse_iterator_s).
Variable cap0 : nat.
Hypothesis Hia : ia_at h0 a L.
Hypothesis Hit : cells h0 !! it = Some (CIter s0).
Hypothesis Hcap0 : cap0 <= L_cap L.

Local Abbreviation hs := (h_snap h0 it a cap0).

Lemma hs_ia_at cur pos : ia_at (hs cur pos) a L.
Proof. unfold h_snap. by eapply ia_at_frame. Qed.

Lemma hs_load cur pos :
  load_iter it (hs cur pos) = Some (it_state a cap0 cur pos, hs cur pos).
Proof.
  unfold load_iter, h_snap. rewrite cells_set_cell_eq; [done|].
  by eapply lookup_lt_Some.
Qed.

Lemma hs_store cur pos cur' pos' :
  store_iter it (it_state a cap0 cur' pos') (hs cur pos)
  = Some (tt, hs cur' pos').
Proof.
  unfold store_iter, store_struct, h_snap.
  rewrite cells_set_cell_eq by (by eapply lookup_lt_Some).
  cbn [cell_size]. rewrite Nat.eqb_refl. by rewrite set_cell_set_cell.
Qed.

Lemma hs_is_empty_slot cur pos i :
  i < cap0 ->
  indexarray_is_empty_slot (Some a) i (hs cur pos)
  = Some (all_zero (L_slot L i), hs cur pos).
Proof.
  intros Hi. rewrite (indexarray_is_empty_slot_at _ _ _ _ (hs_ia_at cur pos)).
  by destruct (Nat.leb_spec (L_cap L) i); [lia|].
Qed.

Lemma snapshot_scan_at n : forall cur fuel,
  cur + n = cap0 -> n <= fuel ->
  sparse_iter_scan it indexarray_sparse_ops fuel (hs cur false)
  = match find_occupied L n cur with
    | Some k => Some (true, hs k true)
    | None => Some (false, hs cap0 false)
    end.
Proof.
  induction n as [|n IH]; intros cur fuel Hcur Hfuel.
  - assert (cur = cap0) as -> by lia.
    destruct fuel; cbn [sparse_iter_scan find_occupied]; unfold bind;
      rewrite hs_load; cbn [it_state it_capacity it_current];
      by rewrite Nat.leb_refl.
  - destruct fuel as [|fuel]; [lia|].
    cbn [sparse_iter_scan find_occupied]. unfold bind at 1.
    rewrite hs_load. cbn [it_state it_capacity it_current it_sparse_coll
                           it_ops it_positioned].
    destruct (Nat.leb_spec cap0 cur); [lia|].
    unfold bind at 1. cbn [sp_is_empty_slot indexarray_sparse_ops].
    rewrite hs_is_empty_slot by lia.
    destruct (all_zero (L_slot L cur)); cbn [negb].
    + unfold bind at 1. fold (it_state a cap0 (cur + 1) false).
      rewrite (hs_store cur false (cur + 1) false).
      rewrite Nat.add_1_r. apply IH; lia.
    + unfold bind at 1. fold (it_state a cap0 cur true).
      by rewrite (hs_store cur false cur true).
Qed.

Lemma snapshot_next_at cur (pos : bool) :
  (if pos then S cur else cur) <= cap0 ->
  let cur' := if pos then S cur else cur in
  sparse_iter_next (Some it) (hs cur pos)
  = match find_occupied L (cap0 - cur') cur' with
    | Some k => Some (true, hs k true)
    | None => Some (false, hs cap0 false)
    end.
Proof.
  intros Hle cur'. unfold sparse_iter_next. unfold bind at 1.
  rewrite hs_load. cbn [it_state it_capacity it_current it_sparse_coll
                         it_ops it_positioned].
  unfold bind at 1. destruct pos.
  - fold (it_state a cap0 (cur + 1) false).
    rewrite (hs_store cur true (cur + 1) false). unfold bind at 1.
    rewrite hs_load. cbn [it_state it_capacity it_current sparse_ops].
    rewrite Nat.add_1_r. apply snapshot_scan_at; subst cur'; lia.
  - unfold ret at 1. unfold bind at 1.
    rewrite hs_load. cbn [it_state it_capacity it_current sparse_ops].
    apply snapshot_scan_at; subst cur'; lia.
Qed.

Lemma snapshot_current_index_at cur pos :
  sparse_iter_current_index (Some it) (hs cur pos) = Some (cur, hs cur pos).
Proof.
  unfold sparse_iter_current_index, bind. by rewrite hs_load.
Qed.

(** [current_value] is [get_at] at the cursor when the iterator is
    positioned, and fails otherwise. *)
Lemma snapshot_current_value_at cur (pos : bool) out :
  sparse_iter_current_value (Some it) (Some out) (hs cur pos)
  = if pos then indexarray_get_at (Some a) cur (Some out) (hs cur pos)
    else Some ((ERR, Some out), hs cur pos).
Proof.
  unfold sparse_iter_current_value, bind. rewrite hs_load.
  cbn [it_state it_ops it_positioned it_sparse_coll it_current sparse_ops
       sp_get_at indexarray_sparse_ops].
  by destruct pos.
Qed.

Lemma snapshot_drain_at fuel : forall cur (pos : bool),
  (if pos then S cur else cur) <= cap0 ->
  cap0 - (if pos then S cur else cur) < fuel ->
  let cur' := if pos then S cur else cur in
  sparse_iter_drain (Some it) fuel (hs cur pos)
  = Some (occupied_from L (cap0 - cur') cur', hs cap0 false).
Proof.
  induction fuel as [|fuel IH]; intros cur pos Hle Hfuel cur'; [lia|].
  cbn [sparse_iter_drain]. unfold bind at 1.
  rewrite (snapshot_next_at cur pos Hle). fold cur'.
  destruct (find_occupied L (cap0 - cur') cur') as [k|] eqn:Hfind.
  - pose proof (find_occupied_range _ _ _ _ Hfind) as Hk.
    unfold bind at 1. rewrite snapshot_current_index_at.
    unfold bind at 1.
    rewrite (IH k true) by (subst cur'; lia).
    rewrite (occupied_from_find_Some _ _ _ _ Hfind). unfold ret.
    do 4 f_equal. subst cur'. lia.
  - by rewrite (occupied_from_find_None _ _ _ Hfind).
Qed.

Lemma snapshot_collect_at out fuel : forall cur (pos : bool),
  L_stride L <= length out ->
  (if pos then S cur else cur) <= cap0 ->
  cap0 - (if pos then S cur else cur) < fuel ->
  let cur' := if pos then S cur else cur in
  sparse_iter_collect (Some it) out fuel (hs cur pos)
  = Some (L_item L out <$> occupied_from L (cap0 - cur') cur',
          hs cap0 false).
Proof.
  induction fuel as [|fuel IH]; intros cur pos Hout Hle Hfuel cur'; [lia|].
  cbn [sparse_iter_collect]. unfold bind at 1.
  rewrite (snapshot_next_at cur pos Hle). fold cur'.
  destruct (find_occupied L (cap0 - cur') cur') as [k|] eqn:Hfind.
  - pose proof (find_occupied_range _ _ _ _ Hfind) as Hk.
    assert (all_zero (L_slot L k) = false) as Hnz.
    { assert (k ∈ occupied_from L (cap0 - cur') cur') as Hin
        by (rewrite (occupied_from_find_Some _ _ _ _ Hfind); apply list_elem_of_here).
      by apply occupied_from_elem in Hin as [_ ?]. }
    unfold bind at 1. rewrite snapshot_current_index_at.
    unfold bind at 1. rewrite snapshot_current_value_at.
    rewrite (indexarray_get_at_at _ _ _ _ _ (hs_ia_at k true) Hout), Hnz.
    destruct (Nat.leb_spec (L_cap L) k); [lia|]. cbn [orb].
    unfold bind at 1.
    rewrite (IH k true Hout) by (subst cur'; lia).
    rewrite (occupied_from_find_Some _ _ _ _ Hfind). unfold ret.
    assert (cur' + (cap0 - cur') - S k = cap0 - S k) as ->
      by (subst cur'; lia).
    by rewrite fmap_cons.
  - by rewrite (occupied_from_find_None _ _ _ Hfind).
Qed.

Lemma snapshot_reset_at cur pos :
  sparse_iter_reset (Some it) (hs cur pos) = Some (tt, hs 0 false).
Proof.
  unfold sparse_iter_reset, bind. rewrite hs_load.
  apply (hs_store cur pos 0 false).
Qed.
End snapshot.

Lemma L_item_sorted L out l :
  StronglySorted lt l ->
  StronglySorted (fun x y => fst x < fst y) (L_item L out <$> l).
Proof.
  induction 1 as [|i l Hs IH Hall]; [constructor|].
  rewrite fmap_cons. constructor; [done|].
  apply Forall_forall. intros x [j [-> Hj]]%list_elem_of_fmap.
  rewrite Forall_forall in Hall. by apply Hall.
Qed.

(** Creating an iterator leaves every cell of the store as it is. *)
Lemma indexarray_create_iterator_frame h a L :
  ia_at h a L ->
  exists r h',
    indexarray_create_iterator (Some a) h = Some (r, h') /\ ia_at h' a L
    /\ forall x c, cells h !! x = Some c -> cells h' !! x = Some c.
Proof.
  intros H. unfold indexarray_create_iterator, sparse_iterator_new.
  unfold bind at 1, Allocator_alloc.
  destruct (decide _) as [Hok|Hno]; [|by exists None, h].
  set (h' := {| cells := _; avail := _; junk := _ |}).
  assert (ia_at h' a L) as H' by (by apply ia_at_alloc).
  cbn [blk]. unfold bind at 1. cbn [sparse_ops sp_capacity indexarray_sparse_ops].
  rewrite (indexarray_capacity_at _ _ _ H').
  unfold bind, store_iter, store_struct.
  assert (cells h' !! length (cells h)
          = Some (CBytes (junk_block h (length (cells h)) sizeof_sparse_iterator_s)))
    as Hnb by (by apply list_lookup_middle).
  rewrite Hnb. unfold junk_block at 1. rewrite length_map, length_seq.
  rewrite Nat.eqb_refl. unfold ret. eexists _, _. split; [reflexivity|].
  split.
  - pose proof (lookup_lt_Some _ _ _ (at_ia _ _ _ H)).
    pose proof (lookup_lt_Some _ _ _ (at_coll _ _ _ H)).
    pose proof (lookup_lt_Some _ _ _ (at_bytes _ _ _ H)).
    destruct H' as [Ha Hc Hb Hst Hlo Hhi Hsz].
    constructor; try done; rewrite cells_set_cell_ne; try done; lia.
  - intros x c Hx. pose proof (lookup_lt_Some _ _ _ Hx).
    rewrite cells_set_cell_ne by lia. subst h'. cbn [cells].
    by apply lookup_app_l_Some.
Qed.

(** No operation of a container touches an iterator cell. *)
Lemma run_op_keeps_iterators h a L o :
  ia_at h a L -> L_off L = 0 -> op_ok (L_stride L) o = true ->
  exists h' L',
    run_op a o h = Some (tt, h')
    /\ ia_at h' a L' /\ L_off L' = 0 /\ L_stride L' = L_stride L
    /\ L_cap L <= L_cap L'
    /\ forall x s, cells h !! x = Some (CIter s) -> cells h' !! x = Some (CIter s).
Proof.
  intros H Ho Hok.
  destruct (ia_at_cells_distinct _ _ _ H) as (Hac & Hab & Hcb).
  assert (forall h1 x s bs, cells h1 !! x = Some (CIter s) ->
            cells h1 !! L_blk L = Some (CBytes (L_bytes L)) ->
            cells (set_cell (L_blk L) (CBytes bs) h1) !! x = Some (CIter s))
    as Hkeepb.
  { intros h1 x s bs Hx Hb. rewrite cells_set_cell_ne; [done|congruence]. }
  assert (forall h1 x s c, cells h1 !! x = Some (CIter s) ->
            cells h1 !! a = Some (CIndexArray (L_ia L)) ->
            cells (set_cell a (CIndexArray c) h1) !! x = Some (CIter s))
    as Hkeepa.
  { intros h1 x s c Hx Ha. rewrite cells_set_cell_ne; [done|congruence]. }
  destruct o as [[v|]|index [out|]|index|index| | | |]; unfold run_op.
  - apply Nat.leb_le in Hok.
    destruct (scan_first L (L_cap L) (L_cap L) 0) as [idx|] eqn:Hs.
    + exists (h_update h a (L_found L idx v)), (L_found L idx v).
      unfold bind. rewrite (indexarray_add_found _ _ _ _ _ H Hok Hs).
      split; [done|]. split; [by apply ia_at_found|].
      split; [done|]. split; [done|]. split; [done|].
      intros x s Hx. unfold h_update.
      pose proof (at_ia _ _ _ H) as Ha. pose proof (at_bytes _ _ _ H) as Hb.
      rewrite cells_set_cell_ne by congruence.
      rewrite cells_set_cell_ne; [done|].
      change (L_blk (L_found L idx v)) with (L_blk L). congruence.
    + destruct (alloc_ok_dec h (L_stride L * L_new_cap L)) as [Hal|Hno].
      * exists (h_update (h_grown h L) a (L_add_grown h L v)), (L_add_grown h L v).
        unfold bind. rewrite (indexarray_add_grow_eq _ _ _ _ H Hok Hs Ho Hal).
        destruct (indexarray_add_grow _ _ _ _ H Hok Hs Ho Hal)
          as (h' & E' & H' & _).
        rewrite (indexarray_add_grow_eq _ _ _ _ H Hok Hs Ho Hal) in E'.
        injection E' as <-.
        pose proof (at_stride _ _ _ H) as Hst.
        split; [done|]. split; [done|]. split; [done|]. split; [done|].
        split.
        { rewrite (L_add_grown_cap h L v Hst).
          unfold L_new_cap. destruct (Nat.eqb_spec (L_cap L) 0); lia. }
        intros x s Hx. pose proof (lookup_lt_Some _ _ _ Hx) as Hlt.
        pose proof (at_ia _ _ _ H) as Ha. pose proof (at_bytes _ _ _ H) as Hb.
        pose proof (at_coll _ _ _ H) as Hc.
        unfold h_update.
        rewrite cells_set_cell_ne by congruence.
        rewrite cells_set_cell_ne
          by (change (L_blk (L_add_grown h L v)) with (length (cells h)); lia).
        unfold h_grown. cbn [cells].
        rewrite list_lookup_insert_ne by congruence.
        rewrite list_lookup_insert_ne by congruence.
        rewrite list_lookup_insert_ne by lia.
        by apply lookup_app_l_Some.
      * exists h, L. unfold bind.
        rewrite (indexarray_add_fail _ _ L _ H Hok Hs Hno).
        by do 5 (split; [done|]).
  - exists h, L. by do 5 (split; [done|]).
  - apply Nat.leb_le in Hok. exists h, L. unfold bind.
    rewrite (indexarray_get_at_at _ _ _ _ _ H Hok). by do 5 (split; [done|]).
  - exists h, L. by do 5 (split; [done|]).
  - unfold bind. rewrite (indexarray_remove_at_at _ _ _ index H).
    destruct (L_cap L <=? index).
    + exists h, L. by do 5 (split; [done|]).
    + eexists _, (L_write L index (replicate (L_stride L) x00)).
      split; [reflexivity|]. split; [apply (ia_at_remove _ _ _ _ H)|].
      split; [done|]. split; [done|]. split; [done|].
      intros x s Hx. apply Hkeepb; [done | apply (at_bytes _ _ _ H)].
  - exists h, L. unfold bind.
    rewrite (indexarray_is_empty_slot_at _ _ _ _ H). by do 5 (split; [done|]).
  - exists h, L. unfold bind. rewrite (indexarray_capacity_at _ _ _ H).
    by do 5 (split; [done|]).
  - exists h, L. unfold bind. rewrite (indexarray_stride_at _ _ _ H).
    by do 5 (split; [done|]).
  - destruct (indexarray_clear_at _ _ _ H) as [Eclear H'].
    eexists _, _. split; [exact Eclear|]. split; [exact H'|].
    split; [done|]. split; [done|]. split; [done|].
    intros x s Hx. unfold h_update. fields.
    apply Hkeepa; [|by rewrite cells_set_cell_ne by done; apply (at_ia _ _ _ H)].
    apply Hkeepb; [done | apply (at_bytes _ _ _ H)].
  - destruct (indexarray_create_iterator_frame _ _ _ H) as (r & h' & E & H' & Hold).
    exists h', L. unfold bind. rewrite E.
    split; [done|]. split; [done|]. split; [done|]. split; [done|].
    split; [done|]. intros x s Hx. by apply Hold.
Qed.

Lemma run_ops_keeps_iterators h a L os :
  ia_at h a L -> L_off L = 0 ->
  Forall (fun o => op_ok (L_stride L) o = true) os ->
  exists h' L',
    run_ops a os h = Some (tt, h')
    /\ ia_at h' a L' /\ L_off L' = 0 /\ L_stride L' = L_stride L
    /\ L_cap L <= L_cap L'
    /\ forall x s, cells h !! x = Some (CIter s) -> cells h' !! x = Some (CIter s).
Proof.
  intros H Ho Hok. revert h L H Ho Hok.
  induction os as [|o os IH]; intros h L H Ho Hok.
  - exists h, L. by do 5 (split; [done|]).
  - apply Forall_cons in Hok as [Hok1 Hok].
    destruct (run_op_keeps_iterators h a L o H Ho Hok1)
      as (h1 & L1 & E1 & H1 & Ho1 & Hst1 & Hle1 & Hit1).
    rewrite <- Hst1 in Hok.
    destruct (IH h1 L1 H1 Ho1 Hok)
      as (h2 & L2 & E2 & H2 & Ho2 & Hst2 & Hle2 & Hit2).
    exists h2, L2. cbn [run_ops]. unfold bind. rewrite E1.
    split; [done|]. split; [done|]. split; [done|]. split; [congruence|].
    split; [lia|]. intros x s Hx. by apply Hit2, Hit1.
Qed.


(** ** [usize] arithmetic and object representations *)

Lemma usize_wrap_small (z : Z) :
  (0 <= z < 2 ^ 64)%Z -> usize_wrap z = Z.to_nat z.
Proof. intros Hz. unfold usize_wrap. by rewrite Z.mod_small. Qed.

Lemma usize_mul_small (a b : nat) :
  (Z.of_nat (a * b) < 2 ^ 64)%Z -> usize_mul a b = a * b.
Proof.
  intros Hz. unfold usize_mul. rewrite usize_wrap_small by lia.
  rewrite <- Nat2Z.inj_mul. apply Nat2Z.id.
Qed.

Lemma usize_add_small (a b : nat) :
  (Z.of_nat (a + b) < 2 ^ 64)%Z -> usize_add a b = a + b.
Proof.
  intros Hz. unfold usize_add. rewrite usize_wrap_small by lia.
  rewrite <- Nat2Z.inj_add. apply Nat2Z.id.
Qed.

Lemma usize_sub_small (a b : nat) :
  b <= a -> (Z.of_nat a < 2 ^ 64)%Z -> usize_sub a b = a - b.
Proof.
  intros Hle Hz. unfold usize_sub. rewrite usize_wrap_small by lia.
  rewrite <- Nat2Z.inj_sub by done. apply Nat2Z.id.
Qed.

Lemma length_le_bytes k n : length (le_bytes k n) = k.
Proof. revert n. induction k as [|k IH]; intros n; simpl; [done|]. by rewrite IH. Qed.

Lemma to_N_byte_of_N n : Byte.to_N (byte_of_N n) = (n mod 256)%N.
Proof.
  unfold byte_of_N. destruct (Byte.of_N (n mod 256)) as [b|] eqn:E.
  - by apply Byte.to_of_N.
  - apply Byte.of_N_None_iff in E.
    pose proof (N.mod_upper_bound n 256). lia.
Qed.

Lemma le_value_le_bytes k n :
  le_value (le_bytes k n) = (n mod 256 ^ N.of_nat k)%N.
Proof.
  revert n. induction k as [|k IH]; intros n.
  - simpl. by rewrite N.mod_1_r.
  - cbn [le_bytes le_value]. rewrite to_N_byte_of_N, IH.
    rewrite Nat2N.inj_succ, N.pow_succ_r'.
    rewrite N.Div0.mod_mul_r. lia.
Qed.

Lemma le_value_le_bytes_8 n :
  (n < 2 ^ 64)%N -> le_value (le_bytes 8 n) = n.
Proof.
  intros Hn. rewrite le_value_le_bytes. apply N.mod_small.
  by change (256 ^ N.of_nat 8)%N with (2 ^ 64)%N.
Qed.

Lemma addr_of_repr_repr c : addr_of_repr (addr_repr c) = c.
Proof.
  destruct c as [a|]; [|done]. unfold addr_of_repr, addr_repr.
  destruct (N.eqb_spec (N.succ (N.of_nat a)) 0); [lia|].
  by rewrite N.pred_succ, Nat2N.id.
Qed.

(** ** The invariant of a dense collection *)

Ltac cfields :=
  cbn [L_ia L_collection L_set_bytes L_set_next L_write L_found L_grown
       L_set_length L_put with_length
       ia_coll ia_next_slot c_handle c_bucket c_end c_stride c_length
       c_owns_buffer L_coll L_next L_handle L_blk L_off L_end L_stride
       L_length L_owns L_bytes blk off ptr_add] in *.

Lemma coll_layout_at h c L :
  coll_layout h c = Some L -> layout_ok L = true -> L_length L <= L_cap L ->
  coll_at h c L.
Proof.
  unfold coll_layout, layout_ok. intros HL Hok Hlen.
  destruct (cells h !! c) as [[|[hd [[b o]|] [[b' e]|] st len owns]| | |]|] eqn:Ec;
    try discriminate.
  destruct (cells h !! b) as [[bs| | | |]|] eqn:Eb; try discriminate.
  destruct (Nat.eqb_spec b b') as [<-|]; [|discriminate].
  injection HL as <-. simpl in *.
  apply andb_prop in Hok as [Hok Hsz]. apply andb_prop in Hok as [Hok Hhi].
  apply andb_prop in Hok as [Hst Hlo].
  apply Nat.ltb_lt in Hst. apply Nat.leb_le in Hlo, Hhi. apply Z.ltb_lt in Hsz.
  by constructor.
Qed.

Lemma coll_at_layout h c L :
  coll_at h c L ->
  coll_layout h c = Some L /\ layout_ok L = true /\ L_length L <= L_cap L.
Proof.
  intros [Hself Hnext Hc Hb Hst Hlo Hhi Hsz Hlen]. split; [|split; [|done]].
  - unfold coll_layout. rewrite Hc. cbn [L_collection]. rewrite Hb, Nat.eqb_refl.
    destruct L. simpl in *. by subst.
  - unfold layout_ok. apply andb_true_intro. split; [|by apply Z.ltb_lt].
    apply andb_true_intro. split; [|by apply Nat.leb_le].
    apply andb_true_intro. split; [by apply Nat.ltb_lt | by apply Nat.leb_le].
Qed.

Lemma coll_wf_at h c :
  coll_wf h c = true -> exists L, coll_layout h c = Some L /\ coll_at h c L.
Proof.
  unfold coll_wf. destruct (coll_layout h c) as [L|] eqn:HL; [|discriminate].
  intros [Hok Hlen%Nat.leb_le]%andb_prop. exists L. split; [done|].
  by apply coll_layout_at.
Qed.

Lemma coll_growable_at h c :
  coll_growable h c = true ->
  exists L, coll_layout h c = Some L /\ coll_at h c L /\ L_off L = 0.
Proof.
  unfold coll_growable. destruct (coll_layout h c) as [L|] eqn:HL; [|discriminate].
  intros [[Hok Hlen%Nat.leb_le]%andb_prop Ho%Nat.eqb_eq]%andb_prop.
  exists L. split; [done|]. split; [by apply coll_layout_at | done].
Qed.

Lemma coll_at_wf h c L : coll_at h c L -> coll_wf h c = true.
Proof.
  intros (HL & Hok & Hlen)%coll_at_layout. unfold coll_wf. rewrite HL, Hok.
  by apply Nat.leb_le.
Qed.

Lemma coll_at_distinct h c L : coll_at h c L -> c <> L_blk L.
Proof.
  intros H E. pose proof (cat_coll _ _ _ H) as Hc.
  pose proof (cat_bytes _ _ _ H) as Hb. rewrite <- E in Hb. congruence.
Qed.

Lemma coll_cap_bytes h c L :
  coll_at h c L -> L_off L + L_stride L * L_cap L <= length (L_bytes L).
Proof.
  intros H. pose proof (cat_hi _ _ _ H). pose proof (cat_lo _ _ _ H).
  pose proof (Nat.Div0.mul_div_le (L_end L - L_off L) (L_stride L)).
  unfold L_cap. lia.
Qed.

Lemma coll_slot_range h c L i :
  coll_at h c L -> i < L_cap L ->
  L_off L + i * L_stride L + L_stride L <= length (L_bytes L).
Proof.
  intros H Hi. pose proof (coll_cap_bytes _ _ _ H). nia.
Qed.

Lemma load_coll_at h c L :
  coll_at h c L -> load_coll c h = Some (L_collection L, h).
Proof. intros H. unfold load_coll. by rewrite (cat_coll _ _ _ H). Qed.

Lemma store_coll_at h c L k :
  coll_at h c L -> store_coll c k h = Some (tt, set_cell c (CColl k) h).
Proof.
  intros H. unfold store_coll, store_struct. by rewrite (cat_coll _ _ _ H).
Qed.

Lemma coll_capacity_value h c L :
  coll_at h c L ->
  ptr_diff (c_end (L_collection L)) (c_bucket (L_collection L)) h
  = Some ((Z.of_nat (L_end L) - Z.of_nat (L_off L))%Z, h)
  /\ usize_of_ptrdiff (Z.of_nat (L_end L) - Z.of_nat (L_off L)) / L_stride L
     = L_cap L.
Proof.
  intros H. split.
  - unfold ptr_diff. cfields. by rewrite Nat.eqb_refl.
  - rewrite usize_of_ptrdiff_small;
      [done | apply (cat_lo _ _ _ H)
      | pose proof (cat_hi _ _ _ H); pose proof (cat_size _ _ _ H); lia].
Qed.

Lemma collection_count_at h c L :
  coll_at h c L -> collection_count (Some c) h = Some (L_length L, h).
Proof.
  intros H. unfold collection_count, bind. by rewrite (load_coll_at _ _ _ H).
Qed.

Lemma coll_at_set_bytes h c L bs :
  coll_at h c L -> length bs = length (L_bytes L) ->
  coll_at (set_cell (L_blk L) (CBytes bs) h) c (L_set_bytes L bs).
Proof.
  intros H Hlen. pose proof (coll_at_distinct _ _ _ H) as Hne.
  destruct H as [Hself Hnext Hc Hb Hst Hlo Hhi Hsz Hl].
  constructor; cfields; try done.
  - by rewrite cells_set_cell_ne by done.
  - apply cells_set_cell_eq. by eapply lookup_lt_Some.
  - by rewrite Hlen.
  - by rewrite Hlen.
Qed.

Lemma coll_at_set_length h c L n :
  coll_at h c L -> n <= L_cap L ->
  coll_at (set_cell c (CColl (L_collection (L_set_length L n))) h) c
          (L_set_length L n).
Proof.
  intros H Hn. pose proof (coll_at_distinct _ _ _ H) as Hne.
  destruct H as [Hself Hnext Hc Hb Hst Hlo Hhi Hsz Hl].
  constructor; cfields; try done.
  - apply cells_set_cell_eq. by eapply lookup_lt_Some.
  - by rewrite cells_set_cell_ne by done.
Qed.

Lemma coll_at_put h c L v :
  coll_at h c L -> L_length L < L_cap L -> length v = L_stride L ->
  coll_at (h_coll h (L_put L v)) c (L_put L v).
Proof.
  intros H Hroom Hv. unfold h_coll, L_put.
  set (L1 := L_write L (L_length L) v).
  assert (coll_at (set_cell (L_blk L) (CBytes (L_bytes L1)) h) c L1) as H1.
  { apply (coll_at_set_bytes _ _ _ _ H). apply length_inserts. }
  change (L_blk (L_set_length L1 (L_length L + 1))) with (L_blk L).
  change (L_bytes (L_set_length L1 (L_length L + 1))) with (L_bytes L1).
  change (L_coll (L_set_length L1 (L_length L + 1))) with (L_coll L).
  rewrite (cat_self _ _ _ H).
  apply (coll_at_set_length _ _ _ _ H1). change (L_cap L1) with (L_cap L). lia.
Qed.


(** ** Growth of a dense collection *)

Lemma take_drop_take {A} (l : list A) k n m :
  k + n <= m -> take n (drop k (take m l)) = take n (drop k l).
Proof.
  intros Hle. rewrite !take_drop_commute, take_take. f_equal. f_equal. lia.
Qed.

Lemma collection_grow_coll_fail h c L :
  coll_at h c L -> ~ alloc_ok h (L_stride L * L_new_cap L) ->
  collection_grow (Some c) h = Some (ERR, h).
Proof.
  intros H Hno. unfold collection_grow, bind at 1.
  rewrite (load_coll_at _ _ _ H).
  destruct (coll_capacity_value _ _ _ H) as [Ed Ecap].
  unfold bind at 1. rewrite Ed. cfields.
  pose proof (cat_stride _ _ _ H) as Hst.
  destruct (Nat.eqb_spec (L_stride L) 0) as [|_]; [lia|].
  rewrite Ecap. fold (L_new_cap L).
  unfold bind, Allocator_alloc. by rewrite decide_False.
Qed.

Lemma collection_grow_coll h c L :
  coll_at h c L -> L_off L = 0 -> alloc_ok h (L_stride L * L_new_cap L) ->
  collection_grow (Some c) h = Some (OK, h_grown h L).
Proof.
  intros H Ho Hok. unfold collection_grow, bind at 1.
  rewrite (load_coll_at _ _ _ H).
  destruct (coll_capacity_value _ _ _ H) as [Ed Ecap].
  unfold bind at 1. rewrite Ed. cfields.
  pose proof (cat_stride _ _ _ H) as Hst.
  destruct (Nat.eqb_spec (L_stride L) 0) as [|_]; [lia|].
  rewrite Ecap. fold (L_new_cap L).
  pose proof (coll_at_distinct _ _ _ H) as Hcb.
  pose proof (cat_self _ _ _ H) as Hself.
  pose proof (lookup_lt_Some _ _ _ (cat_coll _ _ _ H)) as Hc_lt.
  pose proof (lookup_lt_Some _ _ _ (cat_bytes _ _ _ H)) as Hb_lt.
  pose proof (coll_cap_bytes _ _ _ H) as Hcapb.
  assert (L_cap L <= L_new_cap L) as Hle.
  { unfold L_new_cap. destruct (Nat.eqb_spec (L_cap L) 0); lia. }
  set (nb := length (cells h)).
  set (n := L_stride L * L_new_cap L) in *.
  set (jb := junk_block h nb n).
  unfold bind at 1, Allocator_alloc. rewrite decide_True by done.
  cbv zeta. fold nb. fold jb.
  set (h1 := {| cells := cells h ++ [CBytes jb]; avail := avail h - n;
                junk := junk h |}).
  assert (cells h1 !! L_blk L = Some (CBytes (L_bytes L))) as Hb1.
  { simpl. rewrite lookup_app_l by done. apply (cat_bytes _ _ _ H). }
  assert (cells h1 !! c = Some (CColl (L_collection L))) as Hc1.
  { simpl. rewrite lookup_app_l by done. apply (cat_coll _ _ _ H). }
  assert (cells h1 !! nb = Some (CBytes jb)) as Hnb1.
  { simpl. by apply list_lookup_middle. }
  assert (length jb = n) as Hjb by apply length_junk_block.
  unfold bind at 1, memcpy, bind at 1.
  rewrite (load_bytes_at _ _ _ _ _ Hb1) by lia.
  rewrite (store_bytes_at _ _ _ _ _ Hnb1)
    by (rewrite length_take, length_drop, Hjb; unfold n; nia).
  unfold bind at 1, Allocator_dispose. cfields.
  rewrite cells_set_cell_ne by lia. rewrite Hb1, Ho. cbn [Nat.eqb].
  unfold bind at 1, store_coll, store_struct.
  cbn [cells set_cell].
  rewrite list_lookup_insert_ne by done.
  rewrite list_lookup_insert_ne by lia.
  rewrite Hc1. cbn [cell_size]. rewrite Nat.eqb_refl.
  subst h1. unfold ret, h_grown, set_cell, grown_bytes.
  cbn [cells avail junk cell_size].
  fold nb. fold n. fold jb. rewrite Ho, Hself. reflexivity.
Qed.

Lemma coll_at_grown h c L :
  coll_at h c L -> alloc_ok h (L_stride L * L_new_cap L) ->
  coll_at (h_grown h L) c (L_grown h L).
Proof.
  intros H [_ Hsz]. pose proof (coll_at_distinct _ _ _ H) as Hcb.
  pose proof (cat_self _ _ _ H) as Hself.
  pose proof (lookup_lt_Some _ _ _ (cat_coll _ _ _ H)) as Hc_lt.
  pose proof (lookup_lt_Some _ _ _ (cat_bytes _ _ _ H)) as Hb_lt.
  pose proof (cat_stride _ _ _ H) as Hst.
  constructor; cfields; unfold h_grown; cbn [cells].
  - done.
  - apply (cat_next _ _ _ H).
  - rewrite Hself. rewrite list_lookup_insert_eq; [done|].
    rewrite !length_insert, length_app. lia.
  - rewrite Hself. rewrite list_lookup_insert_ne by lia.
    rewrite list_lookup_insert_ne by lia.
    rewrite list_lookup_insert_eq; [done|].
    rewrite length_app. simpl. lia.
  - done.
  - lia.
  - by rewrite length_grown_bytes.
  - by rewrite length_grown_bytes.
  - rewrite (L_cap_grown h L Hst). pose proof (cat_length _ _ _ H).
    unfold L_new_cap. destruct (Nat.eqb_spec (L_cap L) 0); lia.
Qed.

Lemma L_slot_grown h c L j :
  coll_at h c L -> j < L_cap L -> L_slot (L_grown h L) j = L_slot L j.
Proof.
  intros H Hj. pose proof (coll_cap_bytes _ _ _ H) as Hb.
  pose proof (cat_stride _ _ _ H) as Hst.
  assert (L_cap L <= L_new_cap L) as Hle.
  { unfold L_new_cap. destruct (Nat.eqb_spec (L_cap L) 0); lia. }
  unfold L_slot. cfields. unfold grown_bytes. rewrite Nat.add_0_l.
  set (X := take (L_stride L * L_cap L) (drop (L_off L) (L_bytes L))).
  assert (length X = L_stride L * L_cap L) as HX.
  { unfold X. rewrite length_take, length_drop. lia. }
  set (Y := list_inserts 0 X _).
  assert (take (L_stride L * L_cap L) Y = X) as EY.
  { rewrite <- HX. unfold Y.
    apply (take_drop_inserts_same _ X 0).
    rewrite length_junk_block, HX. nia. }
  rewrite <- (take_drop_take Y _ _ (L_stride L * L_cap L)) by nia.
  rewrite EY. unfold X. rewrite take_drop_take by nia.
  by rewrite drop_drop.
Qed.

(** ** collection_add *)

Lemma L_payload_grown h L p : L_payload (L_grown h L) p = L_payload L p.
Proof. reflexivity. Qed.

(** The part of [collection_add] after the capacity check. *)
Lemma collection_add_store_at h c L p :
  coll_at h c L -> L_length L < L_cap L ->
  L_stride L <= length (L_payload L p) ->
  (let* k := load_coll c in
   let dest := ptr_add (c_bucket k) (usize_mul (c_length k) (c_stride k)) in
   (if Byte.eqb (fst (c_handle k)) x46
    then memcpy_from dest (obj_data p) (c_stride k)
    else memcpy_from dest (obj_repr p) (c_stride k)) ;;
   let* k := load_coll c in
   store_coll c (with_length k (usize_add (c_length k) 1)) ;;
   ret OK) h
  = Some (OK, h_coll h (L_put L (take (L_stride L) (L_payload L p)))).
Proof.
  intros H Hroom Hp. pose proof (coll_slot_range _ _ _ _ H Hroom) as Hrange.
  pose proof (cat_size _ _ _ H) as Hsz. pose proof (cat_stride _ _ _ H) as Hst.
  pose proof (coll_cap_bytes _ _ _ H) as Hcapb.
  unfold bind at 1. rewrite (load_coll_at _ _ _ H). cfields.
  rewrite usize_mul_small by nia.
  set (v := take (L_stride L) (L_payload L p)).
  assert (length v = L_stride L) as Hv by (unfold v; rewrite length_take; lia).
  set (L1 := L_write L (L_length L) v).
  set (h1 := set_cell (L_blk L) (CBytes (L_bytes L1)) h).
  assert (coll_at h1 c L1) as H1.
  { apply (coll_at_set_bytes _ _ _ _ H). apply length_inserts. }
  assert ((if Byte.eqb (fst (L_handle L)) x46
           then memcpy_from (Some (Ptr (L_blk L) (L_off L + L_length L * L_stride L)))
                  (obj_data p) (L_stride L)
           else memcpy_from (Some (Ptr (L_blk L) (L_off L + L_length L * L_stride L)))
                  (obj_repr p) (L_stride L)) h = Some (tt, h1)) as Ecopy.
  { unfold L_payload in *.
    destruct (Byte.eqb (fst (L_handle L)) x46); unfold memcpy_from;
      rewrite decide_True by done;
      apply (store_bytes_at h _ _ _ _ (cat_bytes _ _ _ H));
      fold v; rewrite Hv; lia. }
  unfold bind at 1. rewrite Ecopy.
  unfold bind at 1. rewrite (load_coll_at _ _ _ H1).
  unfold bind at 1. rewrite (store_coll_at _ _ _ _ H1). cfields.
  change (L_length L1) with (L_length L).
  assert (L_cap L <= length (L_bytes L)) as Hcl by nia.
  rewrite usize_add_small by lia.
  unfold ret, h_coll, L_put. fold L1. cfields.
  change (L_coll L1) with (L_coll L). by rewrite (cat_self _ _ _ H).
Qed.

Lemma collection_add_cases h c L p :
  coll_at h c L -> L_off L = 0 ->
  L_stride L <= length (L_payload L p) ->
  let v := take (L_stride L) (L_payload L p) in
  (L_length L < L_cap L
   /\ collection_add (Some c) (Some p) h = Some (OK, h_coll h (L_put L v)))
  \/ (L_length L = L_cap L /\ ~ alloc_ok h (L_stride L * L_new_cap L)
      /\ collection_add (Some c) (Some p) h = Some (ERR, h))
  \/ (L_length L = L_cap L /\ alloc_ok h (L_stride L * L_new_cap L)
      /\ collection_add (Some c) (Some p) h
         = Some (OK, h_coll (h_grown h L) (L_put (L_grown h L) v))).
Proof.
  intros H Ho Hp v. pose proof (cat_stride _ _ _ H) as Hst.
  pose proof (cat_length _ _ _ H) as Hlen.
  destruct (coll_capacity_value _ _ _ H) as [Ed Ecap].
  assert (collection_add (Some c) (Some p) h
          = (let* failed :=
               (if L_cap L <=? L_length L
                then let* g := collection_grow (Some c) in ret (negb (g =? 0)%Z)
                else ret false) in
             if failed then ret ERR else
             let* k := load_coll c in
             let dest := ptr_add (c_bucket k) (usize_mul (c_length k) (c_stride k)) in
             (if Byte.eqb (fst (c_handle k)) x46
              then memcpy_from dest (obj_data p) (c_stride k)
              else memcpy_from dest (obj_repr p) (c_stride k)) ;;
             let* k := load_coll c in
             store_coll c (with_length k (usize_add (c_length k) 1)) ;;
             ret OK) h) as ->.
  { unfold collection_add. unfold bind at 1. rewrite (load_coll_at _ _ _ H).
    unfold bind at 1. rewrite Ed. cfields.
    destruct (Nat.eqb_spec (L_stride L) 0) as [|_]; [lia|].
    by rewrite Ecap. }
  destruct (Nat.leb_spec (L_cap L) (L_length L)) as [Hfull|Hroom].
  - assert (L_length L = L_cap L) as Efull by lia.
    destruct (alloc_ok_dec h (L_stride L * L_new_cap L)) as [Hal|Hno].
    + right. right. split; [done|]. split; [done|].
      unfold bind at 1. unfold bind at 1.
      rewrite (collection_grow_coll _ _ _ H Ho Hal). cbn [OK Z.eqb negb ret].
      pose proof (coll_at_grown _ _ _ H Hal) as Hg.
      apply (collection_add_store_at _ _ _ p Hg); [|done].
      rewrite (L_cap_grown h L Hst). change (L_length (L_grown h L)) with (L_length L).
      unfold L_new_cap. destruct (Nat.eqb_spec (L_cap L) 0); lia.
    + right. left. split; [done|]. split; [done|].
      unfold bind at 1. unfold bind at 1.
      by rewrite (collection_grow_coll_fail _ _ _ H Hno).
  - left. split; [done|]. unfold bind at 1, ret at 1.
    by apply collection_add_store_at.
Qed.

Lemma L_records_eq L L' :
  L_length L' = L_length L ->
  (forall j, j < L_length L -> L_slot L' j = L_slot L j) ->
  L_records L' = L_records L.
Proof.
  intros Hlen Hslots. unfold L_records. rewrite Hlen.
  apply list_fmap_ext. intros i j Hj.
  apply lookup_seq in Hj as [-> Hj]. by apply Hslots.
Qed.

Lemma L_records_put h c L v :
  coll_at h c L -> L_length L < L_cap L -> length v = L_stride L ->
  L_records (L_put L v) = L_records L ++ [v].
Proof.
  intros H Hroom Hv. unfold L_records, L_put. cfields.
  rewrite Nat.add_1_r, seq_S, fmap_app. cbn [fmap list_fmap]. f_equal.
  - apply list_fmap_ext. intros i j Hj. apply lookup_seq in Hj as [-> Hj].
    cbn [Nat.add]. apply L_slot_write_other; [lia | done].
  - f_equal. unfold L_slot. cfields. rewrite <- Hv at 1.
    apply take_drop_inserts_same.
    pose proof (coll_slot_range _ _ _ _ H Hroom). lia.
Qed.

Lemma L_records_grown h c L :
  coll_at h c L -> L_records (L_grown h L) = L_records L.
Proof.
  intros H. apply L_records_eq; [done|]. intros j Hj.
  apply (L_slot_grown h c); [done|]. pose proof (cat_length _ _ _ H). lia.
Qed.


(** ** collection_remove *)

Lemma L_slot_write_here L i v :
  L_off L + i * L_stride L + L_stride L <= length (L_bytes L) ->
  length v = L_stride L ->
  L_slot (L_write L i v) i = v.
Proof.
  intros Hr Hv. unfold L_slot, L_write. cfields. rewrite <- Hv at 1.
  apply take_drop_inserts_same. lia.
Qed.

Lemma length_L_slot h c L i :
  coll_at h c L -> i < L_cap L -> length (L_slot L i) = L_stride L.
Proof.
  intros H Hi. pose proof (coll_slot_range _ _ _ _ H Hi).
  unfold L_slot. rewrite length_take, length_drop. lia.
Qed.

Lemma L_shift_fields L n : forall j,
  L_shift L n j = L_set_bytes L (L_bytes (L_shift L n j))
  /\ length (L_bytes (L_shift L n j)) = length (L_bytes L).
Proof.
  revert L. induction n as [|n IH]; intros L j; cbn [L_shift].
  - by destruct L.
  - destruct (IH (L_write L j (L_slot L (j + 1))) (S j)) as [E Hlen].
    split.
    + rewrite E at 1. reflexivity.
    + rewrite Hlen. unfold L_write. cfields. apply length_inserts.
Qed.

Lemma L_slot_shift c n : forall h L j i,
  coll_at h c L -> j + n < L_cap L ->
  L_slot (L_shift L n j) i
  = if decide (j <= i < j + n) then L_slot L (i + 1) else L_slot L i.
Proof.
  induction n as [|n IH]; intros h L j i H Hjn; cbn [L_shift].
  - by destruct (decide _); [lia|].
  - set (L1 := L_write L j (L_slot L (j + 1))).
    assert (length (L_slot L (j + 1)) = L_stride L) as Hlen
      by (apply (length_L_slot h c); [done|lia]).
    assert (coll_at (set_cell (L_blk L) (CBytes (L_bytes L1)) h) c L1) as H1.
    { apply (coll_at_set_bytes _ _ _ _ H). apply length_inserts. }
    rewrite (IH _ L1 (S j) i H1) by (change (L_cap L1) with (L_cap L); lia).
    pose proof (coll_slot_range _ _ _ j H ltac:(lia)) as Hrj.
    destruct (decide (S j <= i < S j + n)) as [Hin|Hout].
    + rewrite decide_True by lia. unfold L1.
      apply L_slot_write_other; [lia | done].
    + destruct (decide (i = j)) as [->|Hne].
      * rewrite decide_True by lia. unfold L1.
        by apply L_slot_write_here.
      * rewrite decide_False by lia. unfold L1.
        apply L_slot_write_other; [lia | done].
Qed.

Lemma collection_remove_shift_at c n : forall h L j,
  coll_at h c L -> j + n < L_cap L ->
  collection_remove_shift c n j h
  = Some (tt, set_cell (L_blk L) (CBytes (L_bytes (L_shift L n j))) h).
Proof.
  induction n as [|n IH]; intros h L j H Hjn;
    cbn [collection_remove_shift L_shift].
  - unfold ret. by rewrite (set_cell_id _ _ _ (cat_bytes _ _ _ H)).
  - pose proof (cat_size _ _ _ H) as Hsz. pose proof (cat_stride _ _ _ H) as Hst.
    pose proof (coll_slot_range _ _ _ j H ltac:(lia)) as Hrj.
    pose proof (coll_slot_range _ _ _ (j + 1) H ltac:(lia)) as Hrj1.
    unfold bind at 1. rewrite (load_coll_at _ _ _ H). cfields.
    rewrite (usize_add_small j 1) by nia.
    rewrite !usize_mul_small by nia.
    set (L1 := L_write L j (L_slot L (j + 1))).
    set (h1 := set_cell (L_blk L) (CBytes (L_bytes L1)) h).
    assert (coll_at h1 c L1) as H1.
    { apply (coll_at_set_bytes _ _ _ _ H). apply length_inserts. }
    unfold bind at 1, memcpy, bind at 1.
    rewrite (load_bytes_at _ _ _ _ _ (cat_bytes _ _ _ H)) by lia.
    fold (L_slot L (j + 1)).
    rewrite (store_bytes_at _ _ _ _ _ (cat_bytes _ _ _ H))
      by (rewrite (length_L_slot h c) by (done || lia); lia).
    change (set_cell (L_blk L) (CBytes (list_inserts _ _ _)) h) with h1.
    rewrite (IH h1 L1 (S j) H1) by (change (L_cap L1) with (L_cap L); lia).
    unfold h1. by rewrite set_cell_set_cell.
Qed.

Lemma coll_at_removed h c L i :
  coll_at h c L -> i < L_length L ->
  coll_at (h_coll h (L_removed L i)) c (L_removed L i).
Proof.
  intros H Hi. pose proof (cat_length _ _ _ H) as Hlen.
  unfold h_coll, L_removed.
  set (Ls := L_shift L (L_length L - 1 - i) i).
  destruct (L_shift_fields L (L_length L - 1 - i) i) as [E Hl]. fold Ls in E, Hl.
  assert (coll_at (set_cell (L_blk L) (CBytes (L_bytes Ls)) h) c Ls) as Hs.
  { rewrite E. by apply (coll_at_set_bytes _ _ _ _ H). }
  assert (L_blk Ls = L_blk L /\ L_stride Ls = L_stride L /\ L_cap Ls = L_cap L
          /\ L_coll Ls = L_coll L) as (Eb & Est & Ecap & Ec)
    by (rewrite E; done).
  set (L2 := L_write Ls (L_length L - 1) (replicate (L_stride L) x00)).
  assert (coll_at (set_cell (L_blk Ls) (CBytes (L_bytes L2))
                     (set_cell (L_blk L) (CBytes (L_bytes Ls)) h)) c L2) as H2.
  { apply (coll_at_set_bytes _ _ _ _ Hs). apply length_inserts. }
  rewrite Eb, set_cell_set_cell in H2.
  change (L_blk (L_set_length L2 (L_length L - 1))) with (L_blk Ls).
  change (L_bytes (L_set_length L2 (L_length L - 1))) with (L_bytes L2).
  change (L_coll (L_set_length L2 (L_length L - 1))) with (L_coll Ls).
  rewrite Eb, Ec, (cat_self _ _ _ H).
  apply (coll_at_set_length _ _ _ _ H2).
  change (L_cap L2) with (L_cap Ls). lia.
Qed.

Lemma collection_remove_scan_at h c L p n : forall i,
  coll_at h c L -> L_stride L <= length (obj_data p) ->
  i + n = L_length L ->
  collection_remove_scan c p n i h
  = match find_record L (take (L_stride L) (obj_data p)) n i with
    | Some k => Some (OK, h_coll h (L_removed L k))
    | None => Some (ERR, h)
    end.
Proof.
  intros i H Hp. revert i.
  pose proof (cat_size _ _ _ H) as Hsz. pose proof (cat_stride _ _ _ H) as Hst.
  pose proof (cat_length _ _ _ H) as Hlen.
  pose proof (coll_cap_bytes _ _ _ H) as Hcapb.
  induction n as [|n IH]; intros i Hin;
    cbn [collection_remove_scan find_record]; [done|].
  pose proof (coll_slot_range _ _ _ i H ltac:(lia)) as Hri.
  unfold bind at 1. rewrite (load_coll_at _ _ _ H). cfields.
  rewrite (usize_mul_small i) by nia.
  assert (memcmp_eq (Some (Ptr (L_blk L) (L_off L + i * L_stride L)))
            (obj_data p) (L_stride L) h
          = Some (bool_decide (L_slot L i = take (L_stride L) (obj_data p)), h))
    as Ecmp.
  { unfold memcmp_eq. rewrite decide_True by done. unfold bind.
    by rewrite (load_bytes_at _ _ _ _ _ (cat_bytes _ _ _ H)) by lia. }
  unfold bind at 1.
  assert ((if Byte.eqb (fst (L_handle L)) x50
           then memcmp_eq (Some (Ptr (L_blk L) (L_off L + i * L_stride L)))
                  (obj_data p) (L_stride L)
           else memcmp_eq (Some (Ptr (L_blk L) (L_off L + i * L_stride L)))
                  (obj_data p) (L_stride L)) h
          = Some (bool_decide (L_slot L i = take (L_stride L) (obj_data p)), h))
    as -> by (by destruct (Byte.eqb _ _)).
  destruct (bool_decide _); [|apply IH; lia].
  assert (L_cap L <= length (L_bytes L)) as Hcl by nia.
  rewrite usize_sub_small by lia.
  set (m := L_length L - 1 - i).
  set (Ls := L_shift L m i).
  destruct (L_shift_fields L m i) as [E Hl]. fold Ls in E, Hl.
  set (h1 := set_cell (L_blk L) (CBytes (L_bytes Ls)) h).
  assert (coll_at h1 c Ls) as Hs.
  { rewrite E. by apply (coll_at_set_bytes _ _ _ _ H). }
  assert (L_blk Ls = L_blk L /\ L_stride Ls = L_stride L /\ L_cap Ls = L_cap L
          /\ L_coll Ls = L_coll L /\ L_off Ls = L_off L
          /\ L_length Ls = L_length L) as (Eb & Est & Ecap & Ec & Eo & El)
    by (rewrite E; done).
  unfold bind at 1. rewrite (collection_remove_shift_at c m h L i H) by (unfold m; lia).
  fold Ls. fold h1.
  unfold bind at 1. rewrite (load_coll_at _ _ _ Hs). cfields.
  rewrite El, Est, Eb, Eo.
  rewrite usize_sub_small by lia. rewrite usize_mul_small by nia.
  pose proof (coll_slot_range _ _ _ (L_length L - 1) H ltac:(lia)) as Hrl.
  unfold bind at 1, memset_zero.
  rewrite <- Eb.
  rewrite (store_bytes_at _ _ _ _ _ (cat_bytes _ _ _ Hs))
    by (rewrite length_replicate, Hl; lia).
  set (L2 := L_write Ls (L_length L - 1) (replicate (L_stride L) x00)).
  assert (list_inserts (L_off L + (L_length L - 1) * L_stride L)
            (replicate (L_stride L) x00) (L_bytes Ls) = L_bytes L2) as ->.
  { unfold L2, L_write. cfields. by rewrite Eo, Est. }
  set (h2 := set_cell (L_blk Ls) (CBytes (L_bytes L2)) h1).
  assert (coll_at h2 c L2) as H2.
  { apply (coll_at_set_bytes _ _ _ _ Hs). apply length_inserts. }
  unfold bind at 1. rewrite (load_coll_at _ _ _ H2).
  unfold bind at 1. rewrite (store_coll_at _ _ _ _ H2). cfields.
  change (L_length L2) with (L_length Ls). rewrite El.
  rewrite usize_sub_small by lia.
  unfold ret, h_coll, L_removed. fold m. fold Ls. fold L2. cfields.
  change (L_coll L2) with (L_coll Ls). change (L_blk L2) with (L_blk Ls).
  rewrite Ec, (cat_self _ _ _ H). unfold h2, h1.
  by rewrite Eb, set_cell_set_cell.
Qed.

Lemma collection_remove_at h c L p :
  coll_at h c L -> L_stride L <= length (obj_data p) ->
  collection_remove (Some c) (Some p) h
  = match find_record L (take (L_stride L) (obj_data p)) (L_length L) 0 with
    | Some k => Some (OK, h_coll h (L_removed L k))
    | None => Some (ERR, h)
    end.
Proof.
  intros H Hp. unfold collection_remove, bind.
  rewrite (load_coll_at _ _ _ H). cfields.
  by apply collection_remove_scan_at.
Qed.

Lemma find_record_None L v n : forall i,
  find_record L v n i = None ->
  forall j, i <= j < i + n -> L_slot L j <> v.
Proof.
  induction n as [|n IH]; intros i Hf j Hj; [lia|].
  cbn [find_record] in Hf. case_bool_decide as Hv; [discriminate|].
  destruct (decide (j = i)) as [->|]; [done|]. apply (IH (S i) Hf). lia.
Qed.

Lemma find_record_Some L v n : forall i k,
  find_record L v n i = Some k ->
  i <= k < i + n /\ L_slot L k = v
  /\ forall j, i <= j < k -> L_slot L j <> v.
Proof.
  induction n as [|n IH]; intros i k Hf; [discriminate|].
  cbn [find_record] in Hf. case_bool_decide as Hv.
  - injection Hf as <-. split; [lia|]. split; [done|]. intros j Hj. lia.
  - destruct (IH (S i) k Hf) as (Hk & Hv' & Hbefore).
    split; [lia|]. split; [done|]. intros j Hj.
    destruct (decide (j = i)) as [->|]; [done|]. apply Hbefore. lia.
Qed.

Lemma L_records_lookup L i :
  i < L_length L -> L_records L !! i = Some (L_slot L i).
Proof.
  intros Hi. unfold L_records. rewrite list_lookup_fmap.
  by rewrite lookup_seq_lt.
Qed.

Lemma length_L_records L : length (L_records L) = L_length L.
Proof. unfold L_records. by rewrite length_fmap, length_seq. Qed.

Lemma L_slot_set_length L n j : L_slot (L_set_length L n) j = L_slot L j.
Proof. reflexivity. Qed.

Lemma L_slot_removed h c L i j :
  coll_at h c L -> i < L_length L -> j < L_length L - 1 ->
  L_slot (L_removed L i) j = if decide (j < i) then L_slot L j else L_slot L (j + 1).
Proof.
  intros H Hi Hj. pose proof (cat_length _ _ _ H) as Hlen.
  unfold L_removed. rewrite L_slot_set_length.
  set (m := L_length L - 1 - i).
  destruct (L_shift_fields L m i) as [E Hl].
  rewrite L_slot_write_other;
    [| lia | rewrite length_replicate; rewrite E; reflexivity].
  rewrite (L_slot_shift c m h L i j H) by (unfold m; lia).
  destruct (decide (j < i)).
  - by rewrite decide_False by lia.
  - by rewrite decide_True by (unfold m; lia).
Qed.

Lemma L_cap_removed L i : L_cap (L_removed L i) = L_cap L.
Proof.
  unfold L_removed, L_cap. cfields.
  destruct (L_shift_fields L (L_length L - 1 - i) i) as [E _].
  by rewrite E.
Qed.

Lemma L_records_removed h c L i :
  coll_at h c L -> i < L_length L ->
  L_records (L_removed L i) = delete i (L_records L).
Proof.
  intros H Hi. pose proof (cat_length _ _ _ H) as Hlen.
  assert (L_length (L_removed L i) = L_length L - 1) as El by reflexivity.
  apply list_eq. intros j.
  destruct (decide (j < L_length L - 1)) as [Hj|Hj].
  - rewrite L_records_lookup by (rewrite El; lia).
    rewrite list_lookup_delete, (L_slot_removed h c) by done.
    destruct (decide (j < i)).
    + by rewrite L_records_lookup by lia.
    + rewrite L_records_lookup by lia. by rewrite Nat.add_1_r.
  - rewrite !lookup_ge_None_2; [done| |].
    + rewrite length_delete by (apply lookup_lt_is_Some; rewrite length_L_records; lia).
      rewrite length_L_records. lia.
    + rewrite length_L_records, El. lia.
Qed.

Lemma find_record_first L v rs1 rs2 :
  L_records L = rs1 ++ v :: rs2 -> v ∉ rs1 ->
  find_record L v (L_length L) 0 = Some (length rs1).
Proof.
  intros Hrs Hnot.
  assert (L_length L = length rs1 + S (length rs2)) as Hlen.
  { rewrite <- length_L_records, Hrs, length_app. simpl. lia. }
  destruct (find_record L v (L_length L) 0) as [k|] eqn:Hf.
  - destruct (find_record_Some _ _ _ _ _ Hf) as (Hk & Hv & Hbefore).
    f_equal. destruct (Nat.lt_trichotomy k (length rs1)) as [Hlt|[->|Hgt]];
      [|done|].
    + exfalso. apply Hnot. apply list_elem_of_lookup. exists k.
      pose proof (L_records_lookup L k ltac:(lia)) as Hlk.
      rewrite Hrs, lookup_app_l in Hlk by done. by rewrite Hlk, Hv.
    + exfalso. apply (Hbefore (length rs1)); [lia|].
      pose proof (L_records_lookup L (length rs1) ltac:(lia)) as Hlk.
      rewrite Hrs, list_lookup_middle in Hlk by done. by injection Hlk.
  - exfalso.
    apply (find_record_None _ _ _ _ Hf (length rs1)); [lia|].
    pose proof (L_records_lookup L (length rs1) ltac:(lia)) as Hlk.
    rewrite Hrs, list_lookup_middle in Hlk by done. by injection Hlk.
Qed.

Lemma find_record_absent L v :
  v ∉ L_records L -> find_record L v (L_length L) 0 = None.
Proof.
  intros Hnot.
  destruct (find_record L v (L_length L) 0) as [k|] eqn:Hf; [|done].
  destruct (find_record_Some _ _ _ _ _ Hf) as (Hk & Hv & _).
  exfalso. apply Hnot. apply list_elem_of_lookup. exists k.
  by rewrite L_records_lookup, Hv by lia.
Qed.


(** ** collection_clear and collection_set_data *)

Lemma L_slot_overwritten L (x : list byte) i :
  L_off L + length x <= length (L_bytes L) ->
  i * L_stride L + L_stride L <= length x ->
  L_slot (L_set_bytes L (list_inserts (L_off L) x (L_bytes L))) i
  = take (L_stride L) (drop (i * L_stride L) x).
Proof.
  intros Hx Hi. unfold L_slot. cfields.
  set (Y := list_inserts _ _ _).
  pose proof (take_drop_inserts_same (L_bytes L) x (L_off L) Hx) as Ez.
  fold Y in Ez.
  rewrite <- drop_drop.
  rewrite <- (take_drop_take (drop (L_off L) Y) _ _ (length x)) by lia.
  by rewrite Ez.
Qed.

Lemma coll_at_h_coll h c L bs n :
  coll_at h c L -> length bs = length (L_bytes L) -> n <= L_cap L ->
  coll_at (h_coll h (L_set_length (L_set_bytes L bs) n)) c
          (L_set_length (L_set_bytes L bs) n).
Proof.
  intros H Hlen Hn. unfold h_coll. cfields. rewrite (cat_self _ _ _ H).
  apply (coll_at_set_length _ _ (L_set_bytes L bs) n); [|done].
  by apply coll_at_set_bytes.
Qed.

Lemma collection_clear_at h c L :
  coll_at h c L ->
  collection_clear (Some c) h = Some (tt, h_coll h (L_cleared L))
  /\ coll_at (h_coll h (L_cleared L)) c (L_cleared L).
Proof.
  intros H. pose proof (coll_cap_bytes _ _ _ H) as Hb.
  pose proof (cat_size _ _ _ H) as Hsz. pose proof (cat_stride _ _ _ H) as Hst.
  destruct (coll_capacity_value _ _ _ H) as [Ed Ecap].
  split; [|apply (coll_at_h_coll _ _ _ _ _ H); [apply length_inserts | lia]].
  unfold collection_clear. unfold bind at 1. rewrite (load_coll_at _ _ _ H).
  cfields. rewrite bool_decide_eq_false_2 by discriminate.
  unfold bind at 1. rewrite Ed.
  destruct (Nat.eqb_spec (L_stride L) 0) as [|_]; [lia|].
  rewrite Ecap, usize_mul_small by nia.
  unfold bind at 1, memset_zero.
  rewrite (store_bytes_at _ _ _ _ _ (cat_bytes _ _ _ H))
    by (rewrite length_replicate; lia).
  set (bs := list_inserts _ _ _).
  assert (coll_at (set_cell (L_blk L) (CBytes bs) h) c (L_set_bytes L bs)) as H1.
  { apply (coll_at_set_bytes _ _ _ _ H). apply length_inserts. }
  unfold bind at 1. rewrite (load_coll_at _ _ _ H1).
  rewrite (store_coll_at _ _ _ _ H1).
  unfold h_coll, L_cleared. fold bs. cfields. by rewrite (cat_self _ _ _ H).
Qed.

Lemma L_slot_cleared h c L i :
  coll_at h c L -> i < L_cap L ->
  L_slot (L_cleared L) i = replicate (L_stride L) x00.
Proof.
  intros H Hi. pose proof (coll_cap_bytes _ _ _ H) as Hb.
  unfold L_cleared. rewrite L_slot_set_length.
  rewrite L_slot_overwritten by (rewrite length_replicate; nia).
  apply slot_of_zeros. nia.
Qed.

Lemma collection_set_data_at h c L d count :
  coll_at h c L -> count <= L_cap L -> count * L_stride L <= length d ->
  collection_set_data (Some c) (Some d) count h
  = Some (tt, h_coll h (L_loaded L d count))
  /\ coll_at (h_coll h (L_loaded L d count)) c (L_loaded L d count).
Proof.
  intros H Hcount Hd. pose proof (coll_cap_bytes _ _ _ H) as Hb.
  pose proof (cat_size _ _ _ H) as Hsz. pose proof (cat_stride _ _ _ H) as Hst.
  split; [|apply (coll_at_h_coll _ _ _ _ _ H); [apply length_inserts | lia]].
  unfold collection_set_data. unfold bind at 1. rewrite (load_coll_at _ _ _ H).
  cfields. rewrite usize_mul_small by nia.
  unfold bind at 1, memcpy_from. rewrite decide_True by done.
  rewrite (store_bytes_at _ _ _ _ _ (cat_bytes _ _ _ H))
    by (rewrite length_take; nia).
  set (bs := list_inserts _ _ _).
  assert (coll_at (set_cell (L_blk L) (CBytes bs) h) c (L_set_bytes L bs)) as H1.
  { apply (coll_at_set_bytes _ _ _ _ H). apply length_inserts. }
  unfold bind at 1. rewrite (load_coll_at _ _ _ H1).
  rewrite (store_coll_at _ _ _ _ H1).
  unfold h_coll, L_loaded. fold bs. cfields. by rewrite (cat_self _ _ _ H).
Qed.

Lemma L_slot_loaded h c L d count i :
  coll_at h c L -> count <= L_cap L -> count * L_stride L <= length d ->
  i < count ->
  L_slot (L_loaded L d count) i = take (L_stride L) (drop (i * L_stride L) d).
Proof.
  intros H Hcount Hd Hi. pose proof (coll_cap_bytes _ _ _ H) as Hb.
  unfold L_loaded. rewrite L_slot_set_length.
  rewrite L_slot_overwritten by (rewrite length_take; nia).
  apply take_drop_take. nia.
Qed.

(** ** The dense iterator *)

Ltac sizes :=
  unfold sizeof_pointer, sizeof_usize, sizeof_iterator_s in *; simpl; lia.

Lemma length_iter_bytes c cur : length (iter_bytes c cur) = sizeof_iterator_s.
Proof. unfold iter_bytes. by rewrite length_app, !length_le_bytes. Qed.

Section dense_iterating.
(** A collection at [c] in [h0] and an iterator block at [it]. *)
Variables (h0 : heap) (c it : nat) (L : layout) (b0 : list byte).
Hypothesis Hc : coll_at h0 c L.
Hypothesis Hit : cells h0 !! it = Some (CBytes b0).
Hypothesis Hb0 : length b0 = sizeof_iterator_s.
Hypothesis Hne : it <> L_blk L.
Hypothesis Haddr : (Z.of_nat c + 1 < 2 ^ 64)%Z.

Local Abbreviation hd := (h_dense h0 it c).

Lemma hd_lookup cur : cells (hd cur) !! it = Some (CBytes (iter_bytes c cur)).
Proof. apply cells_set_cell_eq. by eapply lookup_lt_Some. Qed.

Lemma hd_coll_at cur : coll_at (hd cur) c L.
Proof.
  destruct Hc as [Hself Hnext Hcc Hb Hst Hlo Hhi Hsz Hl].
  constructor; try done; unfold h_dense; rewrite cells_set_cell_ne; try done.
  intros ->. congruence.
Qed.

Lemma hd_load_coll cur :
  load_iterator_coll it (hd cur) = Some (Some c, hd cur).
Proof.
  unfold load_iterator_coll, bind.
  rewrite (load_bytes_at _ _ _ _ _ (hd_lookup cur))
    by (rewrite length_iter_bytes; sizes).
  unfold ret, iter_bytes. rewrite drop_0.
  rewrite take_app_length' by (by rewrite length_le_bytes).
  rewrite le_value_le_bytes_8 by (unfold addr_repr; lia).
  by rewrite addr_of_repr_repr.
Qed.

Lemma hd_load_current cur :
  (Z.of_nat cur < 2 ^ 64)%Z ->
  load_iterator_current it (hd cur) = Some (cur, hd cur).
Proof.
  intros Hcur. unfold load_iterator_current, bind.
  rewrite (load_bytes_at _ _ _ _ _ (hd_lookup cur))
    by (rewrite length_iter_bytes; sizes).
  unfold ret, iter_bytes.
  rewrite drop_app_length' by (by rewrite length_le_bytes).
  rewrite take_ge by (by rewrite length_le_bytes).
  rewrite le_value_le_bytes_8 by lia. by rewrite Nat2N.id.
Qed.

Lemma hd_store_current cur cur' :
  store_iterator_current it cur' (hd cur) = Some (tt, hd cur').
Proof.
  unfold store_iterator_current.
  rewrite (store_bytes_at _ _ _ _ _ (hd_lookup cur))
    by (rewrite length_iter_bytes, length_le_bytes; sizes).
  assert (list_inserts sizeof_pointer (le_bytes sizeof_usize (N.of_nat cur'))
            (iter_bytes c cur) = iter_bytes c cur') as ->.
  { unfold iter_bytes.
    pose proof (list_inserts_app_r (le_bytes sizeof_usize (N.of_nat cur'))
                  (le_bytes sizeof_pointer (addr_repr (Some c)))
                  (le_bytes sizeof_usize (N.of_nat cur)) 0) as E.
    rewrite length_le_bytes, Nat.add_0_r in E. rewrite E. by f_equal. }
  unfold h_dense. by rewrite set_cell_set_cell.
Qed.

Lemma iter_next_at cur :
  cur <= L_length L ->
  iter_next (Some it) (hd cur)
  = Some (if L_length L <=? cur then (false, hd cur) else (true, hd (cur + 1))).
Proof.
  intros Hcur. pose proof (cat_length _ _ _ Hc) as Hlen.
  pose proof (cat_size _ _ _ Hc) as Hsz. pose proof (cat_stride _ _ _ Hc) as Hst.
  pose proof (coll_cap_bytes _ _ _ Hc) as Hb.
  assert (L_cap L <= length (L_bytes L)) as Hcl by nia.
  unfold iter_next. unfold bind at 1. rewrite hd_load_coll.
  unfold bind at 1. rewrite hd_load_current by lia.
  unfold bind at 1. rewrite (load_coll_at _ _ _ (hd_coll_at cur)). cfields.
  destruct (Nat.leb_spec (L_length L) cur); [done|].
  unfold bind. rewrite hd_store_current.
  by rewrite usize_add_small by lia.
Qed.

Lemma iter_current_at cur :
  cur <= L_length L ->
  iter_current (Some it) (hd cur)
  = Some (if cur =? 0 then None
          else Some (Ptr (L_blk L) (L_off L + (cur - 1) * L_stride L)),
          hd cur).
Proof.
  intros Hcur. pose proof (cat_length _ _ _ Hc) as Hlen.
  pose proof (cat_size _ _ _ Hc) as Hsz. pose proof (cat_stride _ _ _ Hc) as Hst.
  pose proof (coll_cap_bytes _ _ _ Hc) as Hb.
  assert (L_cap L <= length (L_bytes L)) as Hcl by nia.
  unfold iter_current. unfold bind at 1. rewrite hd_load_coll.
  unfold bind at 1. rewrite hd_load_current by lia.
  destruct (Nat.eqb_spec cur 0); [done|].
  unfold bind at 1. rewrite (load_coll_at _ _ _ (hd_coll_at cur)). cfields.
  destruct (Nat.ltb_spec (L_length L) cur); [lia|].
  rewrite usize_sub_small by lia. by rewrite usize_mul_small by nia.
Qed.

Lemma iter_collect_at fuel : forall cur,
  cur <= L_length L -> L_length L - cur < fuel ->
  iter_collect (Some it) (L_stride L) fuel (hd cur)
  = Some (drop cur (L_records L), hd (L_length L)).
Proof.
  pose proof (cat_length _ _ _ Hc) as Hlen.
  induction fuel as [|fuel IH]; intros cur Hcur Hfuel; [lia|].
  cbn [iter_collect]. unfold bind at 1. rewrite (iter_next_at cur Hcur).
  destruct (Nat.leb_spec (L_length L) cur) as [Hend|Hmore].
  - assert (cur = L_length L) as -> by lia.
    by rewrite drop_ge by (by rewrite length_L_records).
  - unfold bind at 1. rewrite iter_current_at by lia.
    destruct (Nat.eqb_spec (cur + 1) 0); [lia|].
    replace (cur + 1 - 1) with cur by lia.
    pose proof (coll_slot_range _ _ _ cur Hc ltac:(lia)) as Hr.
    unfold bind at 1.
    rewrite (load_bytes_at _ _ _ _ _ (cat_bytes _ _ _ (hd_coll_at (cur + 1))))
      by lia.
    fold (L_slot L cur). unfold bind at 1.
    rewrite (IH (cur + 1)) by lia. unfold ret.
    rewrite (drop_S (L_records L) (L_slot L cur) cur)
      by (by apply L_records_lookup).
    by rewrite Nat.add_1_r.
Qed.

Lemma iter_reset_at cur : iter_reset (Some it) (hd cur) = Some (tt, hd 0).
Proof. apply hd_store_current. Qed.
End dense_iterating.

Lemma collection_create_iterator_at h c L :
  coll_at h c L -> alloc_ok h sizeof_iterator_s ->
  collection_create_iterator (Some c) h
  = Some (Some (length (cells h)),
          h_dense (h_alloc h sizeof_iterator_s) (length (cells h)) c 0).
Proof.
  intros H Hok. unfold collection_create_iterator. unfold bind at 1.
  destruct (Allocator_alloc_cases h sizeof_iterator_s) as [[_ ->]|[Hno _]];
    [|done].
  set (it := length (cells h)). set (h1 := h_alloc h sizeof_iterator_s).
  pose proof (h_alloc_lookup_new h sizeof_iterator_s) as Hnew.
  fold it h1 in Hnew. cbn [blk].
  set (jb := junk_block h it sizeof_iterator_s) in *.
  assert (length jb = sizeof_iterator_s) as Hjb by apply length_junk_block.
  unfold bind at 1, store_iterator_coll.
  rewrite (store_bytes_at _ _ _ _ _ Hnew)
    by (rewrite length_le_bytes, Hjb; sizes).
  set (b1 := list_inserts 0 _ jb).
  set (h2 := set_cell it (CBytes b1) h1).
  assert (cells h2 !! it = Some (CBytes b1)) as H2
    by (apply cells_set_cell_eq; by eapply lookup_lt_Some).
  assert (length b1 = sizeof_iterator_s) as Hb1
    by (unfold b1; by rewrite length_inserts).
  unfold bind at 1, store_iterator_current.
  rewrite (store_bytes_at _ _ _ _ _ H2)
    by (rewrite length_le_bytes, Hb1; sizes).
  assert (list_inserts sizeof_pointer (le_bytes sizeof_usize (N.of_nat 0)) b1
          = iter_bytes c 0) as ->.
  { unfold b1, iter_bytes.
    rewrite <- (take_drop sizeof_pointer jb) at 1.
    rewrite list_inserts_0_r
      by (rewrite length_le_bytes, length_take, Hjb; sizes).
    pose proof (list_inserts_app_r (le_bytes sizeof_usize (N.of_nat 0))
                  (le_bytes sizeof_pointer (addr_repr (Some c)))
                  (drop sizeof_pointer jb) 0) as E.
    rewrite length_le_bytes, Nat.add_0_r in E. rewrite E. by f_equal. }
  unfold ret, h_dense, h2. by rewrite set_cell_set_cell.
Qed.

Lemma coll_at_alloc h c L n :
  coll_at h c L -> coll_at (h_alloc h n) c L.
Proof.
  intros [Hself Hnext Hc Hb Hst Hlo Hhi Hsz Hl].
  constructor; try done; by apply h_alloc_lookup_old.
Qed.


(** ** Reading the observers of a dense collection *)

Lemma coll_records_at h c L : coll_at h c L -> coll_records h c = Some (L_records L).
Proof. intros (HL & _)%coll_at_layout. unfold coll_records. by rewrite HL. Qed.

Lemma coll_capacity_at h c L : coll_at h c L -> coll_capacity h c = Some (L_cap L).
Proof. intros (HL & _)%coll_at_layout. unfold coll_capacity. by rewrite HL. Qed.

Lemma coll_stores_values_at h c L :
  coll_at h c L ->
  coll_stores_values h c = Some (Byte.eqb (fst (L_handle L)) x46).
Proof. intros (HL & _)%coll_at_layout. unfold coll_stores_values. by rewrite HL. Qed.

Lemma coll_get_stride_at h c L :
  coll_at h c L -> collection_get_stride (Some c) h = Some (L_stride L, h).
Proof.
  intros H. unfold collection_get_stride, bind. by rewrite (load_coll_at _ _ _ H).
Qed.


Ltac coll_intro H L HL :=
  match type of H with
  | coll_wf ?h ?c = true =>
      let E := fresh "E" in
      destruct (coll_wf_at h c H) as (L & E & HL); clear E
  | coll_growable ?h ?c = true =>
      let E := fresh "E" in let O := fresh "Hoff" in
      destruct (coll_growable_at h c H) as (L & E & HL & O); clear E
  end.

Ltac coll_read HL :=
  repeat match goal with
  | E : collection_get_stride (Some ?c) ?h = Some (_, _) |- _ =>
      rewrite (coll_get_stride_at h c _ HL) in E; injection E as <-
  | E : coll_records ?h ?c = Some _ |- _ =>
      rewrite (coll_records_at h c _ HL) in E; injection E as <-
  | E : coll_capacity ?h ?c = Some _ |- _ =>
      rewrite (coll_capacity_at h c _ HL) in E; injection E as <-
  | E : coll_stores_values ?h ?c = Some _ |- _ =>
      rewrite (coll_stores_values_at h c _ HL) in E; injection E as <-
  end.

Lemma h_coll_lookup_other h L' x :
  x <> L_coll L' -> x <> L_blk L' -> cells (h_coll h L') !! x = cells h !! x.
Proof. intros Hc Hb. unfold h_coll. by rewrite !cells_set_cell_ne by done. Qed.

Lemma h_grown_lookup_other h L x y :
  cells h !! x = Some y -> x <> L_coll L -> x <> L_blk L ->
  cells (h_grown h L) !! x = Some y.
Proof.
  intros Hx Hc Hb. pose proof (lookup_lt_Some _ _ _ Hx) as Hlt.
  unfold h_grown. cbn [cells]. rewrite !list_lookup_insert_ne by (done || lia).
  by apply lookup_app_l_Some.
Qed.

(** What [collection_add] does, in one statement. *)
Lemma collection_add_at h c L p :
  coll_at h c L -> L_off L = 0 ->
  L_stride L <= length (L_payload L p) ->
  let v := take (L_stride L) (L_payload L p) in
  exists r h' L',
    collection_add (Some c) (Some p) h = Some (r, h')
    /\ (r = ERR <->
        L_length L = L_cap L /\ ~ alloc_ok h (L_stride L * L_new_cap L))
    /\ (r = ERR -> h' = h /\ L' = L)
    /\ coll_at h' c L' /\ L_off L' = 0 /\ L_stride L' = L_stride L
    /\ L_handle L' = L_handle L
    /\ (r <> ERR ->
        r = OK /\ L_records L' = L_records L ++ [v]
        /\ L_length L' = L_length L + 1
        /\ L_cap L' = (if L_length L <? L_cap L then L_cap L else L_new_cap L)
        /\ (L_length L < L_cap L -> L_blk L' = L_blk L)
        /\ (L_length L = L_cap L -> L_blk L' = length (cells h))
        /\ forall x y, cells h !! x = Some y -> x <> c -> x <> L_blk L ->
             cells h' !! x = Some y).
Proof.
  intros H Ho Hp v. pose proof (cat_stride _ _ _ H) as Hst.
  assert (length v = L_stride L) as Hv by (unfold v; rewrite length_take; lia).
  pose proof (cat_self _ _ _ H) as Hself.
  destruct (collection_add_cases h c L p H Ho Hp)
    as [[Hroom E]|[(Hfull & Hno & E)|(Hfull & Hal & E)]]; fold v in E.
  - exists OK, (h_coll h (L_put L v)), (L_put L v). split; [exact E|].
    split; [split; [discriminate | intros [? _]; lia]|].
    split; [discriminate|]. split; [by apply coll_at_put|].
    split; [done|]. split; [done|]. split; [done|]. intros _.
    split; [done|]. split; [by apply (L_records_put h c)|].
    split; [done|]. split.
    { change (L_cap (L_put L v)) with (L_cap L).
      by destruct (Nat.ltb_spec (L_length L) (L_cap L)); [|lia]. }
    split; [done|]. split; [lia|].
    intros x y Hx Hxc Hxb. rewrite h_coll_lookup_other; [done| |done].
    change (L_coll (L_put L v)) with (L_coll L). congruence.
  - exists ERR, h, L. split; [exact E|]. split; [done|]. split; [done|].
    split; [done|]. split; [done|]. split; [done|]. split; [done|]. done.
  - pose proof (coll_at_grown _ _ _ H Hal) as Hg.
    assert (L_length (L_grown h L) < L_cap (L_grown h L)) as Hroom.
    { rewrite (L_cap_grown h L Hst). change (L_length (L_grown h L)) with (L_length L).
      unfold L_new_cap. destruct (Nat.eqb_spec (L_cap L) 0); lia. }
    exists OK, (h_coll (h_grown h L) (L_put (L_grown h L) v)), (L_put (L_grown h L) v).
    split; [exact E|].
    split; [split; [discriminate | intros [_ ?]; done]|].
    split; [discriminate|].
    split; [by apply coll_at_put|]. split; [done|]. split; [done|].
    split; [done|]. intros _. split; [done|].
    split.
    { rewrite (L_records_put (h_grown h L) c) by done.
      by rewrite (L_records_grown h c). }
    split; [done|]. split.
    { change (L_cap (L_put (L_grown h L) v)) with (L_cap (L_grown h L)).
      rewrite (L_cap_grown h L Hst).
      by destruct (Nat.ltb_spec (L_length L) (L_cap L)); [lia|]. }
    split; [lia|]. split; [done|].
    intros x y Hx Hxc Hxb. pose proof (lookup_lt_Some _ _ _ Hx) as Hlt.
    rewrite h_coll_lookup_other.
    + apply h_grown_lookup_other; [done | congruence | done].
    + change (L_coll (L_put (L_grown h L) v)) with (L_coll L). congruence.
    + change (L_blk (L_put (L_grown h L) v)) with (length (cells h)). lia.
Qed.


Lemma coll_slot_at h c L i : coll_at h c L -> coll_slot h c i = Some (L_slot L i).
Proof. intros (HL & _)%coll_at_layout. unfold coll_slot. by rewrite HL. Qed.

(** ** Runs of adds, and iterating afterwards *)


(** A fresh iterator, and what a drive of it yields. *)
Lemma collection_create_iterator_drive h c L it h1 :
  coll_at h c L -> (Z.of_nat c + 1 < 2 ^ 64)%Z ->
  collection_create_iterator (Some c) h = Some (Some it, h1) ->
  coll_at h1 c L
  /\ cells h1 !! it = Some (CBytes (iter_bytes c 0))
  /\ it <> L_blk L
  /\ (forall x y, cells h !! x = Some y -> cells h1 !! x = Some y).
Proof.
  intros H Haddr Hnew.
  destruct (alloc_ok_dec h sizeof_iterator_s) as [Hok|Hno].
  2:{ unfold collection_create_iterator, bind in Hnew.
      destruct (Allocator_alloc_cases h sizeof_iterator_s) as [[Hok _]|[_ E]];
        [done|]. by rewrite E in Hnew. }
  rewrite (collection_create_iterator_at _ _ _ H Hok) in Hnew.
  injection Hnew as <- <-.
  pose proof (lookup_lt_Some _ _ _ (cat_bytes _ _ _ H)) as Hb_lt.
  pose proof (coll_at_alloc h c L sizeof_iterator_s H) as H1.
  pose proof (h_alloc_lookup_new h sizeof_iterator_s) as Hnewcell.
  split; [|split; [|split]].
  - apply (hd_coll_at _ _ _ _ _ H1 Hnewcell). lia.
  - apply (hd_lookup _ _ _ _ Hnewcell).
  - lia.
  - intros x y Hx. pose proof (lookup_lt_Some _ _ _ Hx).
    unfold h_dense. rewrite cells_set_cell_ne by lia.
    by apply h_alloc_lookup_old.
Qed.

Lemma iter_drive_at h c L it cur :
  coll_at h c L -> (Z.of_nat c + 1 < 2 ^ 64)%Z ->
  cells h !! it = Some (CBytes (iter_bytes c cur)) -> it <> L_blk L ->
  h = h_dense h it c cur.
Proof. intros _ _ Hit _. symmetry. by apply set_cell_id. Qed.


(** A drive of an iterator that stands before the first record. *)
Lemma iter_drive h c L it :
  coll_at h c L -> (Z.of_nat c + 1 < 2 ^ 64)%Z ->
  cells h !! it = Some (CBytes (iter_bytes c 0)) -> it <> L_blk L ->
  let h_end := h_dense h it c (L_length L) in
  iter_current (Some it) h = Some (None, h)
  /\ (forall fuel, L_length L < fuel ->
        iter_collect (Some it) (L_stride L) fuel h = Some (L_records L, h_end))
  /\ iter_next (Some it) h_end = Some (false, h_end)
  /\ iter_reset (Some it) h_end = Some (tt, h)
  /\ (0 < L_length L ->
      iter_current (Some it) h_end
      = Some (Some (Ptr (L_blk L) (L_off L + (L_length L - 1) * L_stride L)), h_end)
      /\ load_bytes (Some (Ptr (L_blk L) (L_off L + (L_length L - 1) * L_stride L)))
           (L_stride L) h_end
         = Some (L_slot L (L_length L - 1), h_end)).
Proof.
  intros H Haddr Hit Hne h_end.
  assert (h_dense h it c 0 = h) as Eh by (by apply set_cell_id).
  pose proof (length_iter_bytes c 0) as Hlen.
  pose proof (cat_length _ _ _ H) as Hl.
  split; [|split; [|split; [|split]]].
  - pose proof (iter_current_at h c it L _ H Hit Hlen Hne Haddr 0 ltac:(lia)) as E.
    by rewrite Eh in E.
  - intros fuel Hfuel.
    pose proof (iter_collect_at h c it L _ H Hit Hlen Hne Haddr fuel 0
                  ltac:(lia) ltac:(lia)) as E.
    by rewrite Eh, drop_0 in E.
  - pose proof (iter_next_at h c it L _ H Hit Hlen Hne Haddr (L_length L)
                  ltac:(lia)) as E.
    by rewrite Nat.leb_refl in E.
  - pose proof (iter_reset_at h c it L _ Hit Hlen Hne (L_length L)) as E.
    by rewrite Eh in E.
  - intros Hpos.
    pose proof (iter_current_at h c it L _ H Hit Hlen Hne Haddr (L_length L)
                  ltac:(lia)) as E.
    destruct (Nat.eqb_spec (L_length L) 0); [lia|]. split; [exact E|].
    pose proof (hd_coll_at h c it L _ H Hit Hne (L_length L)) as Hend.
    pose proof (coll_slot_range _ _ _ (L_length L - 1) H ltac:(lia)) as Hr.
    by rewrite (load_bytes_at _ _ _ _ _ (cat_bytes _ _ _ Hend)) by lia.
Qed.

Lemma last_L_records L :
  0 < L_length L -> last (L_records L) = Some (L_slot L (L_length L - 1)).
Proof.
  intros Hpos. rewrite last_lookup, length_L_records.
  replace (Init.Nat.pred (L_length L)) with (L_length L - 1) by lia.
  apply L_records_lookup. lia.
Qed.


Lemma coll_get_buffer_at h c L :
  coll_at h c L ->
  collection_get_buffer (Some c) h = Some (Some (Ptr (L_blk L) (L_off L)), h).
Proof.
  intros H. unfold collection_get_buffer, bind. by rewrite (load_coll_at _ _ _ H).
Qed.

(** ** Releasing an iterator *)

Lemma iter_dispose_at h c it cur :
  cells h !! it = Some (CBytes (iter_bytes c cur)) ->
  iter_dispose (Some it) h
  = Some (tt, {| cells := <[it := CFreed]> (cells h);
                 avail := avail h + sizeof_iterator_s; junk := junk h |}).
Proof.
  intros H. unfold iter_dispose, Allocator_dispose. cbn [blk off]. rewrite H.
  cbn [Nat.eqb cell_size]. by rewrite length_iter_bytes.
Qed.

Lemma collection_create_iterator_avail h c L it h1 :
  coll_at h c L ->
  collection_create_iterator (Some c) h = Some (Some it, h1) ->
  avail h1 + sizeof_iterator_s = avail h.
Proof.
  intros H Hnew.
  destruct (Allocator_alloc_cases h sizeof_iterator_s) as [[Hok _]|[_ E]].
  2:{ unfold collection_create_iterator, bind in Hnew. by rewrite E in Hnew. }
  rewrite (collection_create_iterator_at _ _ _ H Hok) in Hnew.
  injection Hnew as <- <-. destruct Hok as [Hok _].
  unfold h_dense, set_cell, h_alloc. cbn [avail]. lia.
Qed.

Lemma indexarray_create_iterator_avail h a L it h1 :
  ia_at h a L ->
  indexarray_create_iterator (Some a) h = Some (Some it, h1) ->
  avail h1 + sizeof_sparse_iterator_s = avail h.
Proof.
  intros H. unfold indexarray_create_iterator, sparse_iterator_new.
  unfold bind at 1, Allocator_alloc.
  destruct (decide _) as [Hok|Hno]; [|discriminate].
  set (h' := {| cells := _; avail := _; junk := _ |}).
  assert (ia_at h' a L) as H' by (by apply ia_at_alloc).
  cbn [blk]. unfold bind at 1. cbn [sparse_ops sp_capacity indexarray_sparse_ops].
  rewrite (indexarray_capacity_at _ _ _ H').
  unfold bind, store_iter, store_struct.
  assert (cells h' !! length (cells h)
          = Some (CBytes (junk_block h (length (cells h)) sizeof_sparse_iterator_s)))
    as Hnb by (by apply list_lookup_middle).
  rewrite Hnb. unfold junk_block at 1. rewrite length_map, length_seq.
  rewrite Nat.eqb_refl. unfold ret. intros [= <- <-].
  destruct Hok as [Hok _]. subst h'. unfold set_cell. cbn [avail]. lia.
Qed.

(** * Further properties *)

(** X1. With room in the allocator for the two structs and the bucket, new
    returns a container of the requested capacity and stride in which every
    slot is empty: is_empty_slot says so at every index, and get_at fails at
    every index and leaves the caller's buffer as it was. *)
Theorem new_container_is_empty capacity stride h :
  0 < stride ->
  sizeof_sc_indexarray + sizeof_sc_collection + capacity * stride <= avail h ->
  (Z.of_nat (capacity * stride) < 2 ^ 64)%Z ->
  exists a h',
    indexarray_new capacity stride h = Some (Some a, h')
    /\ indexarray_capacity (Some a) h' = Some (capacity, h')
    /\ indexarray_stride (Some a) h' = Some (stride, h')
    /\ (forall i, indexarray_is_empty_slot (Some a) i h' = Some (true, h'))
    /\ (forall i out,
          indexarray_get_at (Some a) i (Some out) h' = Some ((ERR, Some out), h')).
Proof.
  intros Hst Hmem Hsz.
  destruct (indexarray_new_built capacity stride h Hst Hmem Hsz)
    as (h' & Enew & HL & _).
  set (a := length (cells h)) in *. set (L := L_fresh a capacity stride) in *.
  assert (L_cap L = capacity) as Hcap by (by apply L_cap_fresh).
  assert (forall i, (L_cap L <=? i) || all_zero (L_slot L i) = true) as Hempty.
  { intros i. rewrite Hcap. destruct (Nat.leb_spec capacity i) as [|Hi]; [done|].
    unfold L. rewrite L_slot_fresh by done. apply all_zero_replicate. }
  exists a, h'. split; [exact Enew|].
  split; [by rewrite (indexarray_capacity_at _ _ _ HL), Hcap|].
  split; [apply (indexarray_stride_at _ _ _ HL)|]. split.
  - intros i. by rewrite (indexarray_is_empty_slot_at _ _ _ _ HL), Hempty.
  - intros i out. by apply (indexarray_get_at_empty _ _ _ _ _ HL).
Qed.

Lemma new_container_is_empty_witness :
  exists a h',
    indexarray_new 3 2 (heap_init 1000) = Some (Some a, h')
    /\ indexarray_capacity (Some a) h' = Some (3, h')
    /\ indexarray_stride (Some a) h' = Some (2, h')
    /\ (forall i, indexarray_is_empty_slot (Some a) i h' = Some (true, h'))
    /\ (forall i out,
          indexarray_get_at (Some a) i (Some out) h' = Some ((ERR, Some out), h')).
Proof.
  apply (new_container_is_empty 3 2 (heap_init 1000));
    [lia | vm_compute; lia | by vm_compute].
Defined.

(** X2. from_buffer on two pointers into one block always returns; it
    returns NULL exactly when the stride is 0, the range is empty or
    reversed, or the allocator cannot provide the two structs; and when it
    returns NULL, the allocator has as much to give as before and every
    block that existed is untouched (the first struct is released when the
    second cannot be had). *)
Theorem from_buffer_returns_null_exactly b o e stride h :
  exists r h',
    indexarray_from_buffer (Some (Ptr b o)) (Some (Ptr b e)) stride h
    = Some (r, h')
    /\ (r = None <->
        stride = 0 \/ e <= o
        \/ avail h < sizeof_sc_indexarray + sizeof_sc_collection)
    /\ (r = None ->
        avail h' = avail h
        /\ forall x c, cells h !! x = Some c -> cells h' !! x = Some c).
Proof.
  destruct (decide (stride = 0 \/ e <= o
                    \/ avail h < sizeof_sc_indexarray + sizeof_sc_collection))
    as [Hwhy|Hok].
  - destruct (indexarray_from_buffer_refused b o e stride h Hwhy)
      as (h' & E & Hav & Hold).
    exists None, h'. split; [exact E|]. split; [done|]. by intros _.
  - exists (Some (length (cells h))), (h_viewed h b o e stride).
    split; [apply indexarray_from_buffer_eq; lia|].
    split; [split; [discriminate | by intros ?]|]. discriminate.
Qed.

(** X3. A view made by from_buffer over a range of a live block has
    (end - start) / stride slots and shows the records already in the range:
    get_at copies out record i when it has a non-zero byte and fails when it
    is all zero.  Making the view does not touch the block. *)
Theorem view_shows_buffer_records b o e stride bs h :
  cells h !! b = Some (CBytes bs) ->
  0 < stride -> o < e -> e <= length bs -> (Z.of_nat (length bs) < 2 ^ 64)%Z ->
  sizeof_sc_indexarray + sizeof_sc_collection <= avail h ->
  exists a h',
    indexarray_from_buffer (Some (Ptr b o)) (Some (Ptr b e)) stride h
    = Some (Some a, h')
    /\ cells h' !! b = Some (CBytes bs)
    /\ indexarray_capacity (Some a) h' = Some ((e - o) / stride, h')
    /\ forall i out, i < (e - o) / stride -> stride <= length out ->
         let record := take stride (drop (o + i * stride) bs) in
         indexarray_get_at (Some a) i (Some out) h'
         = Some (if all_zero record then (ERR, Some out)
                 else (OK, Some (record ++ drop stride out)), h').
Proof.
  intros Hb Hst Hoe He Hsz Hmem.
  pose proof (ia_at_viewed b o e stride bs h Hb Hst Hoe He Hsz) as HL.
  exists (length (cells h)), (h_viewed h b o e stride).
  split; [by apply indexarray_from_buffer_eq|].
  split; [by apply h_viewed_old|].
  split; [apply (indexarray_capacity_at _ _ _ HL)|].
  intros i out Hi Hout record.
  rewrite (indexarray_get_at_at _ _ _ _ _ HL) by done.
  change (L_cap (L_view (length (cells h)) b o e stride bs))
    with ((e - o) / stride).
  by destruct (Nat.leb_spec ((e - o) / stride) i); [lia|].
Qed.

Lemma view_shows_buffer_records_witness :
  exists a h',
    indexarray_from_buffer (Some (Ptr 0 0)) (Some (Ptr 0 2)) 1 h_external
    = Some (Some a, h')
    /\ cells h' !! 0 = Some (CBytes [x01; x02])
    /\ indexarray_capacity (Some a) h' = Some ((2 - 0) / 1, h')
    /\ forall i out, i < (2 - 0) / 1 -> 1 <= length out ->
         let record := take 1 (drop (0 + i * 1) [x01; x02]) in
         indexarray_get_at (Some a) i (Some out) h'
         = Some (if all_zero record then (ERR, Some out)
                 else (OK, Some (record ++ drop 1 out)), h').
Proof.
  apply (view_shows_buffer_records 0 0 2 1 [x01; x02] h_external);
    [reflexivity | lia | lia | simpl; lia | by vm_compute | vm_compute; lia].
Defined.

(** X4. A view writes through to the caller's memory.  On a fresh view whose
    range has an all-zero record, add stores the value in the first such
    record and returns its index cast to int, which is the index itself
    when it is at most INT_MAX; the caller's block then holds the value at
    that record and is unchanged elsewhere. *)
Theorem add_through_view_writes_buffer b o e stride bs h a h1 j v :
  cells h !! b = Some (CBytes bs) ->
  e <= length bs -> (Z.of_nat (length bs) < 2 ^ 64)%Z ->
  indexarray_from_buffer (Some (Ptr b o)) (Some (Ptr b e)) stride h
  = Some (Some a, h1) ->
  j < (e - o) / stride ->
  all_zero (take stride (drop (o + j * stride) bs)) = true ->
  (forall i, i < j ->
     all_zero (take stride (drop (o + i * stride) bs)) = false) ->
  length v = stride ->
  exists h2,
    indexarray_add (Some a) (Some v) h1 = Some (int_of_usize j, h2)
    /\ ((Z.of_nat j <= INT_MAX)%Z -> int_of_usize j = Z.of_nat j)
    /\ cells h2 !! b = Some (CBytes (list_inserts (o + j * stride) v bs)).
Proof.
  intros Hb He Hsz Hnew Hj Hz Hbefore Hv.
  destruct (decide (stride = 0 \/ e <= o
                    \/ avail h < sizeof_sc_indexarray + sizeof_sc_collection))
    as [Hwhy|Hok].
  { destruct (indexarray_from_buffer_refused b o e stride h Hwhy)
      as (h' & E & _). congruence. }
  rewrite indexarray_from_buffer_eq in Hnew by lia. injection Hnew as <- <-.
  pose proof (ia_at_viewed b o e stride bs h Hb ltac:(lia) ltac:(lia) He Hsz)
    as HL.
  set (a := length (cells h)) in *. set (L := L_view a b o e stride bs) in *.
  assert (scan_first L (L_cap L) (L_cap L) 0 = Some j) as Hs.
  { pose proof (scan_first_skip L (L_cap L) (L_cap L) 0 j) as Hskip.
    change (L_cap L) with ((e - o) / stride) in *.
    change (L_next L) with 0 in Hskip. cbn [Nat.add] in Hskip.
    rewrite Nat.mod_small in Hskip by done.
    apply Hskip; [lia | done | | done].
    intros i Hi. rewrite Nat.mod_small by lia. by apply Hbefore. }
  assert (L_stride L <= length v) as Hlv
    by (change (L_stride L) with stride; lia).
  rewrite (indexarray_add_found _ _ _ _ _ HL Hlv Hs).
  eexists. split; [reflexivity|].
  split; [intros Hmax; by apply int_of_usize_small|].
  pose proof (lookup_lt_Some _ _ _ Hb) as Hb_lt.
  unfold h_update.
  rewrite cells_set_cell_ne by (change (L_blk (L_found L j v)) with b; lia).
  rewrite cells_set_cell_eq by (eapply lookup_lt_Some, (at_bytes _ _ _ HL)).
  change (L_bytes (L_found L j v))
    with (list_inserts (o + j * stride) (take stride v) bs).
  by rewrite take_ge by lia.
Qed.

Lemma add_through_view_writes_buffer_witness :
  exists h2,
    indexarray_add (Some 1) (Some [x07])
      (heap_after (indexarray_from_buffer (Some (Ptr 0 0)) (Some (Ptr 0 3)) 1)
         (mk_heap [CBytes [x01; x00; x00]] 100 (fun _ _ => xaa)))
    = Some (int_of_usize 1, h2)
    /\ ((Z.of_nat 1 <= INT_MAX)%Z -> int_of_usize 1 = Z.of_nat 1)
    /\ cells h2 !! 0 = Some (CBytes (list_inserts (0 + 1 * 1) [x07] [x01; x00; x00])).
Proof.
  apply (add_through_view_writes_buffer 0 0 3 1 [x01; x00; x00]
           (mk_heap [CBytes [x01; x00; x00]] 100 (fun _ _ => xaa)));
    [reflexivity | simpl; lia | by vm_compute | run | vm_compute; lia
    | reflexivity | | reflexivity].
  intros [|i] Hi; [reflexivity | lia].
Defined.

(** X5. A container made by new, used through any sequence of add, get_at,
    remove_at, is_empty_slot, capacity, stride and clear, and then disposed
    gives back all it took: the allocator has exactly what it had before new,
    however often the bucket was regrown in between. *)
Theorem dispose_returns_all_memory capacity stride h0 os :
  0 < stride ->
  sizeof_sc_indexarray + sizeof_sc_collection + capacity * stride <= avail h0 ->
  (Z.of_nat (capacity * stride) < 2 ^ 64)%Z ->
  Forall (fun o => op_ok stride o = true /\ o <> OpCreateIterator) os ->
  exists a h1 h2 h3,
    indexarray_new capacity stride h0 = Some (Some a, h1)
    /\ run_ops a os h1 = Some (tt, h2)
    /\ indexarray_dispose (Some a) h2 = Some (tt, h3)
    /\ avail h3 = avail h0
    /\ ia_wf h3 a = false.
Proof.
  intros Hst Hmem Hsz Hos.
  destruct (indexarray_new_built capacity stride h0 Hst Hmem Hsz)
    as (h1 & Enew & HL & Hav1 & _).
  set (a := length (cells h0)) in *. set (L := L_fresh a capacity stride) in *.
  destruct (run_ops_footprint h1 a L os HL eq_refl Hos)
    as (h2 & L2 & Erun & H2 & Ho2 & _ & Hown2 & Hav2).
  destruct (indexarray_dispose_at h2 a L2 H2 (fun _ => Ho2))
    as (h3 & Edis & Hav3 & _ & Hfreed & _).
  exists a, h1, h2, h3. split; [exact Enew|]. split; [exact Erun|].
  split; [exact Edis|]. split.
  - rewrite Hav3, Hown2. change (L_owns L) with true. cbn iota.
    assert (length (L_bytes L) = capacity * stride) as HlenL
      by apply length_replicate.
    lia.
  - unfold ia_wf, ia_layout. by rewrite Hfreed.
Qed.

Lemma dispose_returns_all_memory_witness :
  exists a h1 h2 h3,
    indexarray_new 1 1 (heap_init 100) = Some (Some a, h1)
    /\ run_ops a [OpAdd (Some [x01]); OpAdd (Some [x02]); OpRemoveAt 0] h1
       = Some (tt, h2)
    /\ indexarray_dispose (Some a) h2 = Some (tt, h3)
    /\ avail h3 = avail (heap_init 100)
    /\ ia_wf h3 a = false.
Proof.
  apply (dispose_returns_all_memory 1 1 (heap_init 100));
    [lia | vm_compute; lia | by vm_compute |].
  repeat (constructor; [by split|]). constructor.
Defined.

(** X6. Disposing a container that does not own its bucket (a view) releases
    its two structs and nothing else: the caller's block is live afterwards
    and holds what it held. *)
Theorem dispose_of_view_keeps_buffer h a b bs :
  ia_wf h a = true ->
  ia_owns_buffer h a = Some false ->
  ia_bucket_block h a = Some b ->
  cells h !! b = Some (CBytes bs) ->
  exists h',
    indexarray_dispose (Some a) h = Some (tt, h')
    /\ cells h' !! b = Some (CBytes bs)
    /\ avail h' = avail h + sizeof_sc_collection + sizeof_sc_indexarray
    /\ ia_wf h' a = false.
Proof.
  intros Hwf Hown Hblk Hb. ia_intro Hwf L HL.
  rewrite (ia_owns_buffer_at _ _ _ HL) in Hown. injection Hown as Hown.
  rewrite (ia_bucket_block_at _ _ _ HL) in Hblk. injection Hblk as <-.
  destruct (indexarray_dispose_at h a L HL) as (h' & E & Hav & Hbk & Hfreed & _).
  { rewrite Hown. discriminate. }
  rewrite Hown in Hav, Hbk. exists h'. split; [exact E|].
  rewrite (at_bytes _ _ _ HL) in Hb. injection Hb as <-.
  split; [exact Hbk|]. split; [lia|].
  unfold ia_wf, ia_layout. by rewrite Hfreed.
Qed.

Lemma dispose_of_view_keeps_buffer_witness :
  exists h',
    indexarray_dispose (Some 1) h_view = Some (tt, h')
    /\ cells h' !! 0 = Some (CBytes [x01; x02])
    /\ avail h' = avail h_view + sizeof_sc_collection + sizeof_sc_indexarray
    /\ ia_wf h' 1 = false.
Proof.
  apply (dispose_of_view_keeps_buffer h_view 1 0 [x01; x02]); run.
Defined.

(** X7. clear empties every slot, keeps capacity and stride, and resets the
    hint: on a container with at least one slot, the add that follows
    returns handle 0. *)
Theorem clear_empties_and_restarts h a cap stride v :
  ia_wf h a = true ->
  indexarray_capacity (Some a) h = Some (cap, h) ->
  indexarray_stride (Some a) h = Some (stride, h) ->
  0 < cap -> length v = stride ->
  exists h1 h2,
    indexarray_clear (Some a) h = Some (tt, h1)
    /\ indexarray_capacity (Some a) h1 = Some (cap, h1)
    /\ indexarray_stride (Some a) h1 = Some (stride, h1)
    /\ (forall i, indexarray_is_empty_slot (Some a) i h1 = Some (true, h1))
    /\ indexarray_add (Some a) (Some v) h1 = Some (0%Z, h2).
Proof.
  intros Hwf Hcap Hstride Hpos Hv. ia_intro Hwf L HL. ia_read HL.
  destruct (indexarray_clear_at _ _ _ HL) as [Eclear H1].
  cbv zeta in Eclear, H1.
  set (L1 := L_set_next _ 0) in *. set (h1 := h_update h a L1) in *.
  pose proof (L_cap_bytes _ _ _ HL) as Hb.
  assert (forall i, i < L_cap L -> L_slot L1 i = replicate (L_stride L) x00)
    as Hslots.
  { intros i Hi. unfold L_slot, L1. fields.
    set (X := list_inserts _ _ _).
    pose proof (take_drop_inserts_same (L_bytes L)
                  (replicate (L_cap L * L_stride L) x00) (L_off L)) as Ez.
    rewrite length_replicate in Ez. specialize (Ez ltac:(lia)). fold X in Ez.
    assert (take (i * L_stride L + L_stride L) (drop (L_off L) X)
            = take (i * L_stride L + L_stride L)
                (replicate (L_cap L * L_stride L) x00)) as E1.
    { rewrite <- Ez, take_take. f_equal. nia. }
    rewrite <- drop_drop, take_drop_commute, E1, <- take_drop_commute.
    apply slot_of_zeros. nia. }
  exists h1. eexists. split; [exact Eclear|].
  split; [apply (indexarray_capacity_at _ _ _ H1)|].
  split; [apply (indexarray_stride_at _ _ _ H1)|]. split.
  - intros i. rewrite (indexarray_is_empty_slot_at _ _ _ _ H1).
    change (L_cap L1) with (L_cap L).
    destruct (Nat.leb_spec (L_cap L) i) as [|Hi]; [done|].
    by rewrite Hslots, all_zero_replicate.
  - assert (scan_first L1 (L_cap L1) (L_cap L1) 0 = Some 0) as Hs.
    { apply (scan_first_at_hint L1 (L_cap L1)); change (L_next L1) with 0.
      - exact Hpos.
      - rewrite Hslots by done. apply all_zero_replicate. }
    assert (L_stride L1 <= length v) as Hlv
      by (change (L_stride L1) with (L_stride L); lia).
    rewrite (indexarray_add_found _ _ _ _ _ H1 Hlv Hs).
    reflexivity.
Qed.

Lemma clear_empties_and_restarts_witness :
  exists h1 h2,
    indexarray_clear (Some 0) h_grown_3_2 = Some (tt, h1)
    /\ indexarray_capacity (Some 0) h1 = Some (6, h1)
    /\ indexarray_stride (Some 0) h1 = Some (2, h1)
    /\ (forall i, indexarray_is_empty_slot (Some 0) i h1 = Some (true, h1))
    /\ indexarray_add (Some 0) (Some [x09; x09]) h1 = Some (0%Z, h2).
Proof.
  apply (clear_empties_and_restarts h_grown_3_2 0 6 2 [x09; x09]);
    [run | run | run | lia | reflexivity].
Defined.

(** X8. Handles are issued in slot order on a fresh container: up to its
    capacity, consecutive adds of values with a non-zero byte return 0, 1, 2
    and so on, and get_at of handle i then returns the i-th value added. *)
Theorem fresh_adds_return_consecutive_handles capacity stride h a h1 vs :
  indexarray_new capacity stride h = Some (Some a, h1) ->
  length vs <= capacity -> (Z.of_nat capacity <= INT_MAX)%Z ->
  Forall (fun v => length v = stride /\ all_zero v = false) vs ->
  exists h2,
    indexarray_add_all (Some a) vs h1
    = Some (map Z.of_nat (seq 0 (length vs)), h2)
    /\ forall i v out, vs !! i = Some v -> stride <= length out ->
         indexarray_get_at (Some a) i (Some out) h2
         = Some ((OK, Some (v ++ drop stride out)), h2).
Proof.
  intros Hnew Hlen Hmax Hvs.
  destruct (indexarray_new_at _ _ _ _ _ Hnew)
    as (Hg & Hcap & Hstride & Hhint & Hslots).
  ia_intro Hg L HL.
  rewrite (ia_hint_at _ _ _ HL) in Hhint. injection Hhint as Hhint.
  ia_read HL.
  destruct (add_all_fills_in_order a vs h1 L 0 HL)
    as (h2 & L2 & E & H2 & Hcap2 & Hst2 & Hnewslots & _).
  - lia.
  - done.
  - by rewrite Nat.Div0.mod_0_l.
  - intros j Hj. specialize (Hslots j ltac:(lia)).
    rewrite (ia_slot_at_lt _ _ _ _ HL) in Hslots by lia.
    injection Hslots as ->. apply all_zero_replicate.
  - done.
  - exists h2. split; [exact E|]. intros i v out Hi Hout.
    rewrite (indexarray_get_at_at _ _ _ _ _ H2) by lia.
    pose proof (lookup_lt_Some _ _ _ Hi) as Hilt.
    rewrite Hcap2, Hst2. destruct (Nat.leb_spec (L_cap L) i); [lia|].
    rewrite (Hnewslots i v Hi : L_slot L2 i = v).
    destruct (Forall_lookup_1 _ _ _ _ Hvs Hi) as [_ ->]. reflexivity.
Qed.

Lemma fresh_adds_return_consecutive_handles_witness :
  exists h2,
    indexarray_add_all (Some 0) [[x01; x02]; [x03; x04]; [x05; x06]] h_new_3_2
    = Some (map Z.of_nat (seq 0 (length [[x01; x02]; [x03; x04]; [x05; x06]])), h2)
    /\ forall i v out,
         [[x01; x02]; [x03; x04]; [x05; x06]] !! i = Some v -> 2 <= length out ->
         indexarray_get_at (Some 0) i (Some out) h2
         = Some ((OK, Some (v ++ drop 2 out)), h2).
Proof.
  apply (fresh_adds_return_consecutive_handles 3 2 (heap_init 1000) 0 h_new_3_2);
    [run | simpl; lia | by vm_compute |].
  repeat (constructor; [by split|]). constructor.
Defined.

(** X9. The first add to a container of capacity 0 grows it to 8 slots and
    returns handle 4, not 0.  Slots 5 to 7 are empty, but slots 0 to 3 are
    never initialised: they hold whatever the allocator left in the fresh
    bucket, and read as occupied wherever that is not zero. *)
Theorem first_add_at_capacity_zero h a stride v :
  ia_growable h a = true ->
  indexarray_capacity (Some a) h = Some (0, h) ->
  indexarray_stride (Some a) h = Some (stride, h) ->
  length v = stride ->
  alloc_ok h (stride * 8) ->
  exists h',
    indexarray_add (Some a) (Some v) h = Some (4%Z, h')
    /\ indexarray_capacity (Some a) h' = Some (8, h')
    /\ ia_slot h' a 4 = Some v
    /\ (forall j, 4 < j < 8 -> ia_slot h' a j = Some (replicate stride x00))
    /\ (forall j, j < 4 ->
          ia_slot h' a j
          = Some (map (junk h (length (cells h))) (seq (j * stride) stride))).
Proof.
  intros Hg Hcap Hstride Hv Hal. ia_intro Hg L HL.
  rewrite (indexarray_capacity_at _ _ _ HL) in Hcap. injection Hcap as Hcap.
  ia_read HL. pose proof (at_stride _ _ _ HL) as Hst.
  assert (L_new_cap L = 8) as Hnew by (unfold L_new_cap; by rewrite Hcap).
  assert (scan_first L (L_cap L) (L_cap L) 0 = None) as Hs by (by rewrite Hcap).
  rewrite <- Hnew in Hal.
  destruct (indexarray_add_grow h a L v HL ltac:(lia) Hs Hoff Hal)
    as (h' & E & H' & _).
  rewrite Hnew in E. exists h'. split; [exact E|].
  pose proof (L_add_grown_cap h L v Hst) as Hcap'. rewrite Hnew in Hcap'.
  split; [by rewrite (indexarray_capacity_at _ _ _ H'), Hcap'|].
  split; [|split].
  - rewrite (ia_slot_at_lt _ _ _ _ H') by lia.
    pose proof (L_add_grown_slot_new h L v Hst Hv) as Hslot.
    rewrite Hnew in Hslot. change (8 / 2) with 4 in Hslot. by rewrite Hslot.
  - intros j Hj. rewrite (ia_slot_at_lt _ _ _ _ H') by lia.
    by rewrite (L_add_grown_slot_zero h L v j Hst Hv) by (rewrite Hnew; simpl; lia).
  - intros j Hj. rewrite (ia_slot_at_lt _ _ _ _ H') by lia.
    by rewrite (L_add_grown_slot_junk h L v j Hst).
Qed.

Lemma first_add_at_capacity_zero_witness :
  exists h',
    indexarray_add (Some 0) (Some [x01]) h_new_0_1 = Some (4%Z, h')
    /\ indexarray_capacity (Some 0) h' = Some (8, h')
    /\ ia_slot h' 0 4 = Some [x01]
    /\ (forall j, 4 < j < 8 -> ia_slot h' 0 j = Some (replicate 1 x00))
    /\ (forall j, j < 4 ->
          ia_slot h' 0 j
          = Some (map (junk h_new_0_1 (length (cells h_new_0_1))) (seq (j * 1) 1))).
Proof.
  apply (first_add_at_capacity_zero h_new_0_1 0 1 [x01]);
    [run | run | run | reflexivity | split; [vm_compute; lia | by vm_compute]].
Defined.

(** X10. Driving a fresh iterator with next and reading both accessors at
    each element yields, in strictly ascending index order, exactly the
    pairs of an index and a buffer for which get_at at that index succeeds
    and fills the buffer so; current_value fails before the first next and
    after next has returned false. *)
Theorem sparse_iterator_yields_index_value_pairs h a cap stride it h1 out :
  ia_wf h a = true ->
  indexarray_capacity (Some a) h = Some (cap, h) ->
  indexarray_stride (Some a) h = Some (stride, h) ->
  stride <= length out ->
  indexarray_create_iterator (Some a) h = Some (Some it, h1) ->
  exists items h2,
    sparse_iter_current_value (Some it) (Some out) h1
    = Some ((ERR, Some out), h1)
    /\ sparse_iter_collect (Some it) out (S cap) h1 = Some (items, h2)
    /\ StronglySorted (fun x y => fst x < fst y) items
    /\ (forall i r, (i, r) ∈ items <->
          i < cap /\ fst r = OK
          /\ indexarray_get_at (Some a) i (Some out) h = Some (r, h))
    /\ sparse_iter_current_value (Some it) (Some out) h2
       = Some ((ERR, Some out), h2).
Proof.
  intros Hwf Hcap Hstride Hout Hnew. ia_intro Hwf L HL. ia_read HL.
  destruct (indexarray_create_iterator_at _ _ _ _ _ HL Hnew) as [H1 Hit].
  assert (h1 = h_snap h1 it a (L_cap L) 0 false) as Eh1
    by (symmetry; by apply set_cell_id).
  pose proof (snapshot_collect_at h1 a it L _ (L_cap L) H1 Hit (le_n _)
                out (S (L_cap L)) 0 false Hout) as Hcol.
  cbv zeta in Hcol. rewrite Nat.sub_0_r, <- Eh1 in Hcol.
  specialize (Hcol ltac:(lia) ltac:(lia)).
  exists (L_item L out <$> occupied_from L (L_cap L) 0),
    (h_snap h1 it a (L_cap L) (L_cap L) false).
  split.
  { rewrite Eh1 at 1 2.
    by rewrite (snapshot_current_value_at h1 a it _ (L_cap L) Hit). }
  split; [exact Hcol|]. split.
  { apply L_item_sorted, occupied_from_sorted. }
  split.
  { intros i r. rewrite (indexarray_get_at_at _ _ _ _ _ HL Hout). split.
    - intros [j [[= -> ->] Hj]]%list_elem_of_fmap.
      apply occupied_from_elem in Hj as [Hj Hnz].
      split; [lia|]. split; [done|]. rewrite Hnz.
      by destruct (Nat.leb_spec (L_cap L) j); [lia|].
    - intros (Hi & Hr & Hget).
      destruct (Nat.leb_spec (L_cap L) i); [lia|].
      destruct (all_zero (L_slot L i)) eqn:Hnz; cbn [orb] in Hget;
        injection Hget as <-; [discriminate Hr|].
      apply list_elem_of_fmap. exists i. split; [done|].
      apply occupied_from_elem. split; [lia|done]. }
  by rewrite (snapshot_current_value_at h1 a it _ (L_cap L) Hit).
Qed.

Lemma sparse_iterator_yields_index_value_pairs_witness :
  exists items h2,
    sparse_iter_current_value (Some 4) (Some [x00; x00])
      (heap_after (indexarray_create_iterator (Some 0)) h_removed_3_2)
    = Some ((ERR, Some [x00; x00]),
            heap_after (indexarray_create_iterator (Some 0)) h_removed_3_2)
    /\ sparse_iter_collect (Some 4) [x00; x00] (S 6)
         (heap_after (indexarray_create_iterator (Some 0)) h_removed_3_2)
       = Some (items, h2)
    /\ StronglySorted (fun x y => fst x < fst y) items
    /\ (forall i r, (i, r) ∈ items <->
          i < 6 /\ fst r = OK
          /\ indexarray_get_at (Some 0) i (Some [x00; x00]) h_removed_3_2
             = Some (r, h_removed_3_2))
    /\ sparse_iter_current_value (Some 4) (Some [x00; x00]) h2
       = Some ((ERR, Some [x00; x00]), h2).
Proof.
  apply (sparse_iterator_yields_index_value_pairs h_removed_3_2 0 6 2 4);
    [run | run | run | simpl; lia | run].
Defined.

(** X11. An iterator caches the capacity when it is created and reads the
    slots when it is driven.  After any operations on the container since
    (adds that grow it included), a drive yields the slots occupied now, but
    only those below the capacity at creation: a value that growth put in a
    new slot is never visited. *)
Theorem iterator_keeps_creation_capacity h a cap stride it h1 os h2 :
  ia_growable h a = true ->
  indexarray_capacity (Some a) h = Some (cap, h) ->
  indexarray_stride (Some a) h = Some (stride, h) ->
  indexarray_create_iterator (Some a) h = Some (Some it, h1) ->
  Forall (fun o => op_ok stride o = true) os ->
  run_ops a os h1 = Some (tt, h2) ->
  exists l h3,
    sparse_iter_drain (Some it) (S cap) h2 = Some (l, h3)
    /\ StronglySorted lt l
    /\ forall i, i ∈ l <->
         i < cap /\ indexarray_is_empty_slot (Some a) i h2 = Some (false, h2).
Proof.
  intros Hg Hcap Hstride Hnew Hos Hrun. ia_intro Hg L HL. ia_read HL.
  destruct (indexarray_create_iterator_at _ _ _ _ _ HL Hnew) as [H1 Hit].
  destruct (run_ops_keeps_iterators h1 a L os H1 Hoff Hos)
    as (h2' & L2 & E & H2 & _ & _ & Hle & Hkeep).
  rewrite Hrun in E. injection E as <-.
  specialize (Hkeep _ _ Hit).
  assert (h2 = h_snap h2 it a (L_cap L) 0 false) as Eh2
    by (symmetry; by apply set_cell_id).
  pose proof (snapshot_drain_at h2 a it L2 _ (L_cap L) H2 Hkeep Hle
                (S (L_cap L)) 0 false) as Hdrain.
  cbv zeta in Hdrain. rewrite Nat.sub_0_r, <- Eh2 in Hdrain.
  specialize (Hdrain ltac:(lia) ltac:(lia)).
  eexists _, _. split; [exact Hdrain|]. split; [apply occupied_from_sorted|].
  intros i. rewrite occupied_from_elem.
  rewrite (indexarray_is_empty_slot_at _ _ _ _ H2). split.
  - intros [Hi Hz]. split; [lia|]. rewrite Hz.
    by destruct (Nat.leb_spec (L_cap L2) i); [lia|].
  - intros [Hi [= Hz]]. split; [lia|].
    by apply orb_false_elim in Hz as [_ ?].
Qed.

Lemma iterator_keeps_creation_capacity_witness :
  exists l h3,
    sparse_iter_drain (Some 3) (S 3)
      (heap_after (run_ops 0 [OpAdd (Some [x07; x08])])
         (heap_after (indexarray_create_iterator (Some 0)) h_full_3_2))
    = Some (l, h3)
    /\ StronglySorted lt l
    /\ forall i, i ∈ l <->
         i < 3
         /\ indexarray_is_empty_slot (Some 0) i
              (heap_after (run_ops 0 [OpAdd (Some [x07; x08])])
                 (heap_after (indexarray_create_iterator (Some 0)) h_full_3_2))
            = Some (false,
                    heap_after (run_ops 0 [OpAdd (Some [x07; x08])])
                      (heap_after (indexarray_create_iterator (Some 0)) h_full_3_2)).
Proof.
  apply (iterator_keeps_creation_capacity h_full_3_2 0 3 2 3
           (heap_after (indexarray_create_iterator (Some 0)) h_full_3_2)
           [OpAdd (Some [x07; x08])]);
    [run | run | run | run | by repeat constructor | run].
Defined.



(** X13. remove on a dense collection looks for the first record equal to
    the first [stride] bytes its argument points at.  When there is none it
    fails and changes nothing; otherwise it takes that one record out,
    keeps the others in their order, and decrements the count, the capacity
    staying as it was. *)
Theorem collection_remove_takes_first_match h c stride rs p :
  coll_wf h c = true ->
  collection_get_stride (Some c) h = Some (stride, h) ->
  coll_records h c = Some rs ->
  stride <= length (obj_data p) ->
  exists r h',
    collection_remove (Some c) (Some p) h = Some (r, h')
    /\ (take stride (obj_data p) ∉ rs -> r = ERR /\ h' = h)
    /\ (forall rs1 rs2,
          rs = rs1 ++ take stride (obj_data p) :: rs2 ->
          take stride (obj_data p) ∉ rs1 ->
          r = OK /\ coll_wf h' c = true
          /\ coll_records h' c = Some (rs1 ++ rs2)
          /\ collection_count (Some c) h' = Some (length rs - 1, h')
          /\ coll_capacity h' c = coll_capacity h c).
Proof.
  intros Hwf Hstride Hrs Hp. coll_intro Hwf L HL. coll_read HL.
  rewrite (collection_remove_at _ _ _ _ HL Hp).
  set (v := take (L_stride L) (obj_data p)).
  destruct (find_record L v (L_length L) 0) as [k|] eqn:Hf.
  - destruct (find_record_Some _ _ _ _ _ Hf) as (Hk & Hv & Hbefore).
    pose proof (coll_at_removed _ _ _ k HL ltac:(lia)) as H'.
    eexists _, _. split; [reflexivity|]. split.
    + intros Hnot. by rewrite (find_record_absent _ _ Hnot) in Hf.
    + intros rs1 rs2 Hsplit Hnot.
      rewrite (find_record_first _ _ _ _ Hsplit Hnot) in Hf. injection Hf as <-.
      split; [done|]. split; [by apply (coll_at_wf _ _ _ H')|].
      split.
      { rewrite (coll_records_at _ _ _ H'), (L_records_removed h c) by (done || lia).
        by rewrite Hsplit, delete_middle. }
      split.
      { rewrite (collection_count_at _ _ _ H'). by rewrite length_L_records. }
      by rewrite (coll_capacity_at _ _ _ H'), (coll_capacity_at _ _ _ HL),
        L_cap_removed.
  - eexists _, _. split; [reflexivity|]. split; [done|].
    intros rs1 rs2 Hsplit Hnot.
    by rewrite (find_record_first _ _ _ _ Hsplit Hnot) in Hf.
Qed.

Lemma collection_remove_takes_first_match_witness :
  exists r h',
    collection_remove (Some 1) (Some obj_2) h_values_added = Some (r, h')
    /\ (take 2 (obj_data obj_2) ∉ [[x01; x02]; [x03; x04]; [x03; x04]] ->
        r = ERR /\ h' = h_values_added)
    /\ (forall rs1 rs2,
          [[x01; x02]; [x03; x04]; [x03; x04]]
          = rs1 ++ take 2 (obj_data obj_2) :: rs2 ->
          take 2 (obj_data obj_2) ∉ rs1 ->
          r = OK /\ coll_wf h' 1 = true
          /\ coll_records h' 1 = Some (rs1 ++ rs2)
          /\ collection_count (Some 1) h'
             = Some (length [[x01; x02]; [x03; x04]; [x03; x04]] - 1, h')
          /\ coll_capacity h' 1 = coll_capacity h_values_added 1).
Proof.
  apply (collection_remove_takes_first_match h_values_added 1 2
           [[x01; x02]; [x03; x04]; [x03; x04]] obj_2);
    [run | run | run | simpl; lia].
Defined.

(** X14. In a collection of pointers, remove does not undo add.  add stores
    the pointer it is given, remove compares the stored bytes with what its
    argument points at: after adding a pointer whose target does not start
    with the bytes of a stored pointer, nor of itself, removing the same
    pointer fails and leaves the collection as it is. *)
Theorem pointer_collection_remove_misses_added h c rs p h1 :
  coll_growable h c = true ->
  collection_get_stride (Some c) h = Some (sizeof_pointer, h) ->
  coll_records h c = Some rs ->
  coll_stores_values h c = Some false ->
  sizeof_pointer <= length (obj_data p) ->
  take sizeof_pointer (obj_data p) ∉ rs ->
  take sizeof_pointer (obj_data p) <> obj_repr p ->
  collection_add (Some c) (Some p) h = Some (OK, h1) ->
  coll_records h1 c = Some (rs ++ [obj_repr p])
  /\ collection_remove (Some c) (Some p) h1 = Some (ERR, h1).
Proof.
  intros Hg Hstride Hrs Hval Hp Hnot Hne Hadd. coll_intro Hg L HL.
  rewrite (coll_get_stride_at _ _ _ HL) in Hstride. injection Hstride as Hst.
  rewrite (coll_stores_values_at _ _ _ HL) in Hval. injection Hval as Hval.
  coll_read HL.
  assert (L_payload L p = obj_repr p) as Epay
    by (unfold L_payload; by rewrite Hval).
  assert (length (obj_repr p) = sizeof_pointer) as Hrepr
    by apply length_le_bytes.
  destruct (collection_add_at h c L p HL Hoff)
    as (r & h' & L' & E & _ & _ & H' & _ & Hst' & _ & Hok).
  { rewrite Epay, Hrepr. lia. }
  rewrite Hadd in E. injection E as <- <-.
  destruct (Hok ltac:(discriminate)) as (_ & Hrec & _).
  rewrite Epay, Hst, take_ge in Hrec by lia.
  split; [by rewrite (coll_records_at _ _ _ H'), Hrec|].
  rewrite (collection_remove_at _ _ _ _ H') by lia.
  rewrite Hst', Hst, find_record_absent; [done|].
  rewrite Hrec. apply not_elem_of_app. split; [done|].
  by intros E%list_elem_of_singleton.
Qed.

Lemma pointer_collection_remove_misses_added_witness :
  coll_records (heap_after (collection_add (Some 0) (Some obj_1)) h_pointers_2) 0
  = Some ([] ++ [obj_repr obj_1])
  /\ collection_remove (Some 0) (Some obj_1)
       (heap_after (collection_add (Some 0) (Some obj_1)) h_pointers_2)
     = Some (ERR, heap_after (collection_add (Some 0) (Some obj_1)) h_pointers_2).
Proof.
  apply (pointer_collection_remove_misses_added h_pointers_2 0 [] obj_1);
    [run | run | run | run | vm_compute; lia | by intros ?%elem_of_nil
    | by vm_compute | run].
Defined.

(** X15. clear zeroes the whole bucket and resets the count: afterwards the
    collection has no records, every slot up to the capacity is all zero,
    and capacity and stride are as before. *)
Theorem collection_clear_empties h c stride cap :
  coll_wf h c = true ->
  collection_get_stride (Some c) h = Some (stride, h) ->
  coll_capacity h c = Some cap ->
  exists h',
    collection_clear (Some c) h = Some (tt, h')
    /\ coll_wf h' c = true
    /\ collection_count (Some c) h' = Some (0, h')
    /\ coll_records h' c = Some []
    /\ coll_capacity h' c = Some cap
    /\ collection_get_stride (Some c) h' = Some (stride, h')
    /\ forall i, i < cap -> coll_slot h' c i = Some (replicate stride x00).
Proof.
  intros Hwf Hstride Hcap. coll_intro Hwf L HL. coll_read HL.
  destruct (collection_clear_at _ _ _ HL) as [E H'].
  exists (h_coll h (L_cleared L)). split; [exact E|].
  split; [by apply (coll_at_wf _ _ _ H')|].
  split; [apply (collection_count_at _ _ _ H')|].
  split; [by rewrite (coll_records_at _ _ _ H')|].
  split; [by rewrite (coll_capacity_at _ _ _ H')|].
  split; [apply (coll_get_stride_at _ _ _ H')|].
  intros i Hi. rewrite (coll_slot_at _ _ _ _ H').
  by rewrite (L_slot_cleared h c).
Qed.

Lemma collection_clear_empties_witness :
  exists h',
    collection_clear (Some 1) h_values_added = Some (tt, h')
    /\ coll_wf h' 1 = true
    /\ collection_count (Some 1) h' = Some (0, h')
    /\ coll_records h' 1 = Some []
    /\ coll_capacity h' 1 = Some 3
    /\ collection_get_stride (Some 1) h' = Some (2, h')
    /\ forall i, i < 3 -> coll_slot h' 1 i = Some (replicate 2 x00).
Proof.
  apply (collection_clear_empties h_values_added 1 2 3); run.
Defined.

(** X16. set_data copies [count] records from the caller's buffer to the
    start of the bucket and sets the count: when they fit the capacity, the
    collection's records are then the first [count] records of the buffer,
    in order. *)
Theorem collection_set_data_loads h c stride cap d count :
  coll_wf h c = true ->
  collection_get_stride (Some c) h = Some (stride, h) ->
  coll_capacity h c = Some cap ->
  count <= cap -> count * stride <= length d ->
  exists h',
    collection_set_data (Some c) (Some d) count h = Some (tt, h')
    /\ coll_wf h' c = true
    /\ collection_count (Some c) h' = Some (count, h')
    /\ coll_records h' c
       = Some ((fun i => take stride (drop (i * stride) d)) <$> seq 0 count).
Proof.
  intros Hwf Hstride Hcap Hcount Hd. coll_intro Hwf L HL. coll_read HL.
  destruct (collection_set_data_at _ _ _ d count HL Hcount Hd) as [E H'].
  exists (h_coll h (L_loaded L d count)). split; [exact E|].
  split; [by apply (coll_at_wf _ _ _ H')|].
  split; [apply (collection_count_at _ _ _ H')|].
  rewrite (coll_records_at _ _ _ H'). f_equal. unfold L_records.
  change (L_length (L_loaded L d count)) with count.
  apply list_fmap_ext. intros i j Hj. apply lookup_seq in Hj as [-> Hj].
  by apply (L_slot_loaded h c).
Qed.

Lemma collection_set_data_loads_witness :
  exists h',
    collection_set_data (Some 1) (Some [x0a; x0b; x0c; x0d; x0e]) 2 h_values_3
    = Some (tt, h')
    /\ coll_wf h' 1 = true
    /\ collection_count (Some 1) h' = Some (2, h')
    /\ coll_records h' 1
       = Some ((fun i => take 2 (drop (i * 2) [x0a; x0b; x0c; x0d; x0e]))
                 <$> seq 0 2).
Proof.
  apply (collection_set_data_loads h_values_3 1 2 3 [x0a; x0b; x0c; x0d; x0e] 2);
    [run | run | run | lia | simpl; lia].
Defined.


(** X17. A fresh iterator over a dense collection, driven by next until it
    returns false with current read after each step, hands out the records
    in order, every one once.  current is NULL before the first next; once
    next has returned false it keeps doing so, while current still points
    at the last record; after reset the same drive yields the same
    records. *)
Theorem iterator_visits_records_in_order h c stride rs it h1 :
  coll_wf h c = true ->
  (Z.of_nat c + 1 < 2 ^ 64)%Z ->
  collection_get_stride (Some c) h = Some (stride, h) ->
  coll_records h c = Some rs ->
  collection_create_iterator (Some c) h = Some (Some it, h1) ->
  exists h2 h3 h4,
    iter_current (Some it) h1 = Some (None, h1)
    /\ iter_collect (Some it) stride (S (length rs)) h1 = Some (rs, h2)
    /\ iter_next (Some it) h2 = Some (false, h2)
    /\ (forall v, last rs = Some v ->
          exists q, iter_current (Some it) h2 = Some (Some q, h2)
                    /\ load_bytes (Some q) stride h2 = Some (v, h2))
    /\ iter_reset (Some it) h2 = Some (tt, h3)
    /\ iter_collect (Some it) stride (S (length rs)) h3 = Some (rs, h4).
Proof.
  intros Hwf Haddr Hstride Hrs Hnew. coll_intro Hwf L HL. coll_read HL.
  destruct (collection_create_iterator_drive _ _ _ _ _ HL Haddr Hnew)
    as (H1 & Hit & Hne & _).
  destruct (iter_drive h1 c L it H1 Haddr Hit Hne)
    as (Ecur & Ecol & Enext & Ereset & Elast).
  rewrite length_L_records.
  eexists _, h1, _. split; [exact Ecur|].
  split; [apply Ecol; lia|]. split; [exact Enext|]. split.
  { intros v Hv. destruct (L_length L) as [|n] eqn:En.
    - unfold L_records in Hv. by rewrite En in Hv.
    - rewrite last_L_records in Hv by lia. injection Hv as <-.
      destruct (Elast ltac:(lia)) as [E1 E2]. rewrite En in *.
      eexists. split; [exact E1 | exact E2]. }
  split; [exact Ereset|]. apply Ecol. lia.
Qed.

Lemma iterator_visits_records_in_order_witness :
  exists h2 h3 h4,
    iter_current (Some 2)
      (heap_after (collection_create_iterator (Some 1)) h_values_added)
    = Some (None, heap_after (collection_create_iterator (Some 1)) h_values_added)
    /\ iter_collect (Some 2) 2 (S (length [[x01; x02]; [x03; x04]; [x03; x04]]))
         (heap_after (collection_create_iterator (Some 1)) h_values_added)
       = Some ([[x01; x02]; [x03; x04]; [x03; x04]], h2)
    /\ iter_next (Some 2) h2 = Some (false, h2)
    /\ (forall v, last [[x01; x02]; [x03; x04]; [x03; x04]] = Some v ->
          exists q, iter_current (Some 2) h2 = Some (Some q, h2)
                    /\ load_bytes (Some q) 2 h2 = Some (v, h2))
    /\ iter_reset (Some 2) h2 = Some (tt, h3)
    /\ iter_collect (Some 2) 2 (S (length [[x01; x02]; [x03; x04]; [x03; x04]])) h3
       = Some ([[x01; x02]; [x03; x04]; [x03; x04]], h4).
Proof.
  apply (iterator_visits_records_in_order h_values_added 1 2
           [[x01; x02]; [x03; x04]; [x03; x04]] 2);
    [run | by vm_compute | run | run | run].
Defined.





(** X20. An add that finds the collection full moves the records to a fresh
    bucket and releases the old one: every pointer into the old bucket (one
    handed out by current, say) is dangling afterwards, and the collection's
    buffer is a different block. *)
Theorem growing_add_moves_the_bucket h c stride rs values p b h' :
  coll_growable h c = true ->
  collection_get_stride (Some c) h = Some (stride, h) ->
  coll_records h c = Some rs ->
  coll_capacity h c = Some (length rs) ->
  coll_stores_values h c = Some values ->
  stride <= length (if values then obj_data p else obj_repr p) ->
  collection_get_buffer (Some c) h = Some (Some (Ptr b 0), h) ->
  collection_add (Some c) (Some p) h = Some (OK, h') ->
  cells h' !! b = Some CFreed
  /\ (forall o n, load_bytes (Some (Ptr b o)) n h' = None)
  /\ collection_get_buffer (Some c) h' = Some (Some (Ptr (length (cells h)) 0), h')
  /\ b < length (cells h).
Proof.
  intros Hg Hstride Hrs Hcap Hval Hp Hbuf Hadd. coll_intro Hg L HL.
  rewrite (coll_capacity_at _ _ _ HL) in Hcap. injection Hcap as Hcap.
  rewrite (coll_get_buffer_at _ _ _ HL) in Hbuf. injection Hbuf as <- _.
  coll_read HL. rewrite length_L_records in Hcap.
  pose proof (cat_stride _ _ _ HL) as Hst.
  pose proof (coll_at_distinct _ _ _ HL) as Hcb.
  pose proof (cat_self _ _ _ HL) as Hself.
  pose proof (lookup_lt_Some _ _ _ (cat_bytes _ _ _ HL)) as Hb_lt.
  destruct (collection_add_cases h c L p HL Hoff Hp)
    as [[Hroom _]|[(_ & _ & E)|(_ & Hal & E)]];
    [lia | by rewrite Hadd in E |].
  rewrite Hadd in E. injection E as ->.
  set (v := take _ _). set (L' := L_put (L_grown h L) v).
  assert (coll_at (h_coll (h_grown h L) L') c L') as H'.
  { apply coll_at_put.
    - by apply coll_at_grown.
    - rewrite (L_cap_grown h L Hst). change (L_length (L_grown h L)) with (L_length L).
      unfold L_new_cap. destruct (Nat.eqb_spec (L_cap L) 0); lia.
    - unfold v. rewrite length_take. change (L_stride (L_grown h L)) with (L_stride L).
      unfold L_payload. lia. }
  assert (cells (h_coll (h_grown h L) L') !! L_blk L = Some CFreed) as Hfreed.
  { rewrite h_coll_lookup_other.
    - unfold h_grown. cbn [cells].
      rewrite list_lookup_insert_ne by congruence.
      rewrite list_lookup_insert_eq; [done|].
      rewrite length_insert, length_app. lia.
    - change (L_coll L') with (L_coll L). congruence.
    - change (L_blk L') with (length (cells h)). lia. }
  split; [exact Hfreed|]. split.
  - intros o n. unfold load_bytes. cbn [blk]. by rewrite Hfreed.
  - split; [|done]. by rewrite (coll_get_buffer_at _ _ _ H').
Qed.

Lemma growing_add_moves_the_bucket_witness :
  cells (heap_after (collection_add (Some 1) (Some obj_3)) h_values_added) !! 0
  = Some CFreed
  /\ (forall o n,
        load_bytes (Some (Ptr 0 o)) n
          (heap_after (collection_add (Some 1) (Some obj_3)) h_values_added)
        = None)
  /\ collection_get_buffer (Some 1)
       (heap_after (collection_add (Some 1) (Some obj_3)) h_values_added)
     = Some (Some (Ptr (length (cells h_values_added)) 0),
             heap_after (collection_add (Some 1) (Some obj_3)) h_values_added)
  /\ 0 < length (cells h_values_added).
Proof.
  apply (growing_add_moves_the_bucket h_values_added 1 2
           [[x01; x02]; [x03; x04]; [x03; x04]] true obj_3);
    [run | run | run | run | run | vm_compute; lia | run | run].
Defined.

(** X21. A dense iterator costs its sixteen bytes and nothing else.  Created,
    driven to the end and disposed, it leaves the allocator with what it had
    before the iterator was made and the collection with the records it had;
    the disposed iterator's block is released, so a further next on it is
    undefined. *)
Theorem iterator_dispose_restores h c stride rs it h1 :
  coll_wf h c = true ->
  (Z.of_nat c + 1 < 2 ^ 64)%Z ->
  collection_get_stride (Some c) h = Some (stride, h) ->
  coll_records h c = Some rs ->
  collection_create_iterator (Some c) h = Some (Some it, h1) ->
  exists h2 h3,
    iter_collect (Some it) stride (S (length rs)) h1 = Some (rs, h2)
    /\ iter_dispose (Some it) h2 = Some (tt, h3)
    /\ avail h3 = avail h
    /\ coll_wf h3 c = true
    /\ coll_records h3 c = Some rs
    /\ coll_capacity h3 c = coll_capacity h c
    /\ cells h3 !! it = Some CFreed
    /\ iter_next (Some it) h3 = None.
Proof.
  intros Hwf Haddr Hstride Hrs Hnew. coll_intro Hwf L HL. coll_read HL.
  pose proof (collection_create_iterator_avail _ _ _ _ _ HL Hnew) as Hav.
  destruct (collection_create_iterator_drive _ _ _ _ _ HL Haddr Hnew)
    as (H1 & Hit & Hne & _).
  destruct (iter_drive h1 c L it H1 Haddr Hit Hne) as (_ & Ecol & _).
  rewrite length_L_records.
  pose proof (hd_lookup h1 c it _ Hit (L_length L)) as Hit2.
  pose proof (hd_coll_at h1 c it L _ H1 Hit Hne (L_length L)) as H2.
  set (h2 := h_dense h1 it c (L_length L)) in *.
  pose proof (lookup_lt_Some _ _ _ Hit2) as Hlt.
  set (h3 := {| cells := <[it := CFreed]> (cells h2);
                avail := avail h2 + sizeof_iterator_s; junk := junk h2 |}).
  assert (cells h3 !! it = Some CFreed) as Hfreed
    by (by apply list_lookup_insert_eq).
  assert (coll_at h3 c L) as H3.
  { destruct H2 as [Hself Hnext Hcc Hb Hst Hlo Hhi Hsz Hl].
    constructor; try done; subst h3; cbn [cells];
      rewrite list_lookup_insert_ne; try done.
    intros ->. congruence. }
  exists h2, h3. split; [apply Ecol; lia|].
  split; [by apply (iter_dispose_at h2 c it (L_length L))|].
  split; [subst h3 h2; unfold h_dense, set_cell; cbn [avail]; lia|].
  split; [by eapply coll_at_wf|].
  split; [by apply coll_records_at|].
  split; [by rewrite (coll_capacity_at _ _ _ H3), (coll_capacity_at _ _ _ HL)|].
  split; [done|].
  unfold iter_next, bind, load_iterator_coll, bind, load_bytes. cbn [blk].
  by rewrite Hfreed.
Qed.

Lemma iterator_dispose_restores_witness :
  exists h2 h3,
    iter_collect (Some 2) 2 (S (length [[x01; x02]; [x03; x04]; [x03; x04]]))
      (heap_after (collection_create_iterator (Some 1)) h_values_added)
    = Some ([[x01; x02]; [x03; x04]; [x03; x04]], h2)
    /\ iter_dispose (Some 2) h2 = Some (tt, h3)
    /\ avail h3 = avail h_values_added
    /\ coll_wf h3 1 = true
    /\ coll_records h3 1 = Some [[x01; x02]; [x03; x04]; [x03; x04]]
    /\ coll_capacity h3 1 = coll_capacity h_values_added 1
    /\ cells h3 !! 2 = Some CFreed
    /\ iter_next (Some 2) h3 = None.
Proof.
  apply (iterator_dispose_restores h_values_added 1 2
           [[x01; x02]; [x03; x04]; [x03; x04]] 2);
    [run | by vm_compute | run | run | run].
Defined.

(** X22. A sparse iterator costs the forty bytes of its struct and nothing
    else: created, driven to the end and disposed, it leaves the allocator
    with what it had before and every slot of the container as it was; a
    further next on the disposed iterator is undefined. *)
Theorem sparse_iterator_dispose_restores h a cap it h1 :
  ia_wf h a = true ->
  indexarray_capacity (Some a) h = Some (cap, h) ->
  indexarray_create_iterator (Some a) h = Some (Some it, h1) ->
  exists l h2 h3,
    sparse_iter_drain (Some it) (S cap) h1 = Some (l, h2)
    /\ sparse_iter_dispose (Some it) h2 = Some (tt, h3)
    /\ avail h3 = avail h
    /\ ia_wf h3 a = true
    /\ (forall i, ia_slot h3 a i = ia_slot h a i)
    /\ cells h3 !! it = Some CFreed
    /\ sparse_iter_next (Some it) h3 = None.
Proof.
  intros Hwf Hcap Hnew. ia_intro Hwf L HL.
  rewrite (indexarray_capacity_at _ _ _ HL) in Hcap. injection Hcap as Hcap.
  pose proof (indexarray_create_iterator_avail _ _ _ _ _ HL Hnew) as Hav.
  destruct (indexarray_create_iterator_at _ _ _ _ _ HL Hnew) as [H1 Hit].
  pose proof (snapshot_drain_at h1 a it L _ (L_cap L) H1 Hit (Nat.le_refl _)
                (S (L_cap L)) 0 false) as Edrain.
  cbv zeta in Edrain. cbn [Nat.sub] in Edrain.
  unfold h_snap at 1 in Edrain. rewrite (set_cell_id _ _ _ Hit) in Edrain.
  pose proof (hs_ia_at h1 a it L _ (L_cap L) H1 Hit (L_cap L) false) as H2.
  set (h2 := h_snap h1 it a (L_cap L) (L_cap L) false) in *.
  assert (cells h2 !! it = Some (CIter (it_state a (L_cap L) (L_cap L) false)))
    as Hit2.
  { subst h2. unfold h_snap. apply cells_set_cell_eq. by eapply lookup_lt_Some. }
  pose proof (lookup_lt_Some _ _ _ Hit2) as Hlt.
  set (h3 := {| cells := <[it := CFreed]> (cells h2);
                avail := avail h2 + sizeof_sparse_iterator_s; junk := junk h2 |}).
  assert (cells h3 !! it = Some CFreed) as Hfreed
    by (by apply list_lookup_insert_eq).
  assert (ia_at h3 a L) as H3.
  { destruct H2 as [Ha Hc Hb Hst Hlo Hhi Hsz].
    constructor; try done; subst h3; cbn [cells];
      rewrite list_lookup_insert_ne; try done; intros ->; congruence. }
  subst cap. eexists _, h2, h3. split; [apply Edrain; lia|].
  split.
  { unfold sparse_iter_dispose, Allocator_dispose. cbn [blk off].
    by rewrite Hit2. }
  split; [subst h3 h2; unfold h_snap, set_cell; cbn [avail]; lia|].
  split; [by eapply ia_at_wf|].
  split; [intros i; by rewrite (ia_slot_at _ _ _ _ H3), (ia_slot_at _ _ _ _ HL)|].
  split; [done|].
  unfold sparse_iter_next, bind, load_iter. by rewrite Hfreed.
Qed.

Lemma sparse_iterator_dispose_restores_witness :
  exists l h2 h3,
    sparse_iter_drain (Some 4) (S 6)
      (heap_after (indexarray_create_iterator (Some 0)) h_removed_3_2)
    = Some (l, h2)
    /\ sparse_iter_dispose (Some 4) h2 = Some (tt, h3)
    /\ avail h3 = avail h_removed_3_2
    /\ ia_wf h3 0 = true
    /\ (forall i, ia_slot h3 0 i = ia_slot h_removed_3_2 0 i)
    /\ cells h3 !! 4 = Some CFreed
    /\ sparse_iter_next (Some 4) h3 = None.
Proof.
  apply (sparse_iterator_dispose_restores h_removed_3_2 0 6 4); run.
Defined.

(** X23. In a collection of values, remove undoes add: after a successful
    add of an object whose value is not yet among the records, remove of
    the same object succeeds and leaves the records and the count as they
    were before the add; the capacity stays where the add left it. *)
Theorem value_collection_remove_undoes_add h c stride rs p h1 :
  coll_growable h c = true ->
  collection_get_stride (Some c) h = Some (stride, h) ->
  coll_records h c = Some rs ->
  coll_stores_values h c = Some true ->
  stride <= length (obj_data p) ->
  take stride (obj_data p) ∉ rs ->
  collection_add (Some c) (Some p) h = Some (OK, h1) ->
  exists h2,
    collection_remove (Some c) (Some p) h1 = Some (OK, h2)
    /\ coll_wf h2 c = true
    /\ coll_records h2 c = Some rs
    /\ collection_count (Some c) h2 = Some (length rs, h2)
    /\ coll_capacity h2 c = coll_capacity h1 c.
Proof.
  intros Hg Hstride Hrs Hval Hp Hnot Hadd. coll_intro Hg L HL.
  rewrite (coll_stores_values_at _ _ _ HL) in Hval. injection Hval as Hval.
  coll_read HL.
  assert (L_payload L p = obj_data p) as Epay
    by (unfold L_payload; by rewrite Hval).
  destruct (collection_add_at h c L p HL Hoff)
    as (r & h' & L' & E & _ & _ & H' & _ & Hst' & _ & Hok).
  { by rewrite Epay. }
  rewrite Hadd in E. injection E as <- <-.
  destruct (Hok ltac:(discriminate)) as (_ & Hrec & Hlen & _).
  rewrite Epay in Hrec.
  rewrite (collection_remove_at _ _ _ _ H') by (rewrite Hst'; lia).
  rewrite Hst', (find_record_first L' _ (L_records L) []) by done.
  rewrite length_L_records.
  pose proof (coll_at_removed _ _ _ (L_length L) H' ltac:(lia)) as H2.
  eexists. split; [reflexivity|].
  split; [by apply (coll_at_wf _ _ _ H2)|].
  split.
  { rewrite (coll_records_at _ _ _ H2), (L_records_removed h1 c) by (done || lia).
    rewrite Hrec, <- (length_L_records L), delete_middle. by rewrite app_nil_r. }
  split.
  { rewrite (collection_count_at _ _ _ H2).
    do 2 f_equal. unfold L_removed, L_set_length. cbn [L_length]. lia. }
  by rewrite (coll_capacity_at _ _ _ H2), (coll_capacity_at _ _ _ H'),
    L_cap_removed.
Qed.

Lemma value_collection_remove_undoes_add_witness :
  exists h2,
    collection_remove (Some 1) (Some obj_3)
      (heap_after (collection_add (Some 1) (Some obj_3)) h_values_added)
    = Some (OK, h2)
    /\ coll_wf h2 1 = true
    /\ coll_records h2 1 = Some [[x01; x02]; [x03; x04]; [x03; x04]]
    /\ collection_count (Some 1) h2
       = Some (length [[x01; x02]; [x03; x04]; [x03; x04]], h2)
    /\ coll_capacity h2 1
       = coll_capacity
           (heap_after (collection_add (Some 1) (Some obj_3)) h_values_added) 1.
Proof.
  apply (value_collection_remove_undoes_add h_values_added 1 2
           [[x01; x02]; [x03; x04]; [x03; x04]] obj_3);
    [run | run | run | run | vm_compute; lia | | run].
  intros H. by repeat (apply elem_of_cons in H as [H|H]; [discriminate|]);
    apply elem_of_nil in H.
Defined.
